(** * prism-media: the Ogg page reader and the EBML/WebM tag walker

    A shallow embedding of [src/opus/OggDemuxer.ts], of the base walker
    [WebmBaseDemuxer] with its helpers [vintLength] and [expandVint], and of
    the two [_checkHead] hooks (Opus and Vorbis), followed by the properties
    of the specification that concern them.  The Opus encoder and decoder
    streams, the volume transformer, the FFmpeg launcher and the helper of the
    tests are embedded after them, with properties of their own at the end.

    Buffers are lists of bytes.  JavaScript numbers that the code produces are
    integers (of magnitude far below 2^53) or NaN; the 32-bit behaviour of
    [<<] and [&] is written out.  A thrown exception ends a run. *)

From Stdlib Require Import ZArith List Lia Bool.
From Stdlib Require Import Strings.Byte Strings.String.
Import ListNotations.
Local Open Scope Z_scope.

(** ** JavaScript values *)

Module JS.

Definition Buffer := list byte.

Definition byteval (b : byte) : Z := Z.of_N (Byte.to_N b).

(** [buffer.length] *)
Definition blength (b : Buffer) : Z := Z.of_nat (List.length b).

(** [buffer[i]]: [None] is [undefined], the value of an index outside the buffer. *)
Definition get (b : Buffer) (i : Z) : option byte :=
  if i <? 0 then None else nth_error b (Z.to_nat i).

(** A JavaScript number: an integer or NaN. *)
Inductive num := Int (z : Z) | NaN.

(** ToInt32 of an integer, and of [buffer[i]] ([undefined] gives 0). *)
Definition ToInt32 (z : Z) : Z :=
  let m := z mod 2 ^ 32 in if 2 ^ 31 <=? m then m - 2 ^ 32 else m.

Definition int32_of_elem (x : option byte) : Z :=
  match x with Some b => byteval b | None => 0 end.

Definition int32_of_number (v : num) : Z :=
  match v with Int z => ToInt32 z | NaN => 0 end.

(** [a << n] and [a & b] *)
Definition shl (a n : Z) : Z := ToInt32 (Z.shiftl (ToInt32 a) (Z.land n 31)).
Definition band (a b : Z) : Z := Z.land (ToInt32 a) (ToInt32 b).

(** [v + buffer[i]]: adding [undefined] gives NaN. *)
Definition add_elem (v : Z) (x : option byte) : num :=
  match x with Some b => Int (v + byteval b) | None => NaN end.

Definition add (a : Z) (b : num) : num :=
  match b with Int z => Int (a + z) | NaN => NaN end.

(** [a > b] where [b] may be NaN (every comparison with NaN is false) *)
Definition gt (a b : num) : bool :=
  match a, b with Int x, Int y => y <? x | _, _ => false end.

(** truthiness of a number, and of an optional field holding one *)
Definition truthy (v : num) : bool :=
  match v with Int z => negb (z =? 0) | NaN => false end.

Definition truthy_opt (v : option num) : bool :=
  match v with Some n => truthy n | None => false end.

(** [Buffer.prototype.slice]: a negative bound counts from the end, bounds are
    clamped to the buffer, NaN is 0. *)
Definition adjustOffset (offset : num) (length : Z) : Z :=
  match offset with
  | NaN => 0
  | Int o =>
      if o =? 0 then 0
      else if o <? 0 then (if 0 <? o + length then o + length else 0)
      else if o <? length then o else length
  end.

Definition slice_num (b : Buffer) (start end_ : num) : Buffer :=
  let s := adjustOffset start (blength b) in
  let e := adjustOffset end_ (blength b) in
  let newLength := if s <? e then e - s else 0 in
  firstn (Z.to_nat newLength) (skipn (Z.to_nat s) b).

Definition slice (b : Buffer) (start end_ : Z) : Buffer :=
  slice_num b (Int start) (Int end_).

(** [buffer.slice(start)] *)
Definition slice_from (b : Buffer) (start : Z) : Buffer :=
  slice b start (blength b).

(** [Buffer.from('...')] for an ASCII string *)
Definition Buffer_from (s : string) : Buffer := list_byte_of_string s.

(** [a.equals(b)] *)
Fixpoint equals (a b : Buffer) : bool :=
  match a, b with
  | [], [] => true
  | x :: a', y :: b' => Byte.eqb x y && equals a' b'
  | _, _ => false
  end.

(** [readUInt8] and [readUInt32BE]; [None] is the RangeError they throw when the
    read leaves the buffer. *)
Definition readUInt8 (b : Buffer) (offset : Z) : option Z :=
  option_map byteval (get b offset).

Definition readUInt32BE (b : Buffer) (offset : Z) : option Z :=
  match get b offset, get b (offset + 1), get b (offset + 2), get b (offset + 3) with
  | Some b0, Some b1, Some b2, Some b3 =>
      Some (byteval b0 * 2 ^ 24 + byteval b1 * 2 ^ 16 + byteval b2 * 2 ^ 8 + byteval b3)
  | _, _, _, _ => None
  end.

(** What a call to [_transform] leaves behind: the stream goes on in a new
    state, or an exception was thrown. *)
Inductive status (S E : Type) :=
  | Running (st : S)
  | Crashed (e : E).
Arguments Running {S E} st.
Arguments Crashed {S E} e.

End JS.
Import JS.

(** ** The Ogg page reader ([src/opus/OggDemuxer.ts]) *)

Module OggDemuxer.

Definition OGG_PAGE_HEADER_SIZE : Z := 26.
Definition STREAM_STRUCTURE_VERSION : Z := 0.

Definition OGGS_HEADER : Buffer := Buffer_from "OggS".
Definition OPUS_HEAD : Buffer := Buffer_from "OpusHead".
Definition OPUS_TAGS : Buffer := Buffer_from "OpusTag".

Record state := mkState {
  _remainder : option Buffer;
  _head : option Buffer;
  _bitstream : option Z
}.

(** A new demuxer: every field is [undefined]. *)
Definition fresh : state := mkState None None None.

(** What the reader hands to its consumer: [this.push(segment)] and the three
    [this.emit(name, segment)] notifications. *)
Inductive event :=
  | Push (segment : Buffer)
  | Emit_head (segment : Buffer)
  | Emit_tags (segment : Buffer)
  | Emit_unknownSegment (segment : Buffer).

Inductive error :=
  | CapturePatternError
  | StructureVersionError
  | RangeError.

(** The segment-table loop of [_readPage].  [cur] is [None] at the head of the
    outer [for] and [Some size] inside the inner [while], whose variable [x]
    was 255 at the last read.  [None] as a result is the [return false] taken
    when the table ends inside a run of 255. *)
Fixpoint lacing (table : list byte) (cur : option Z) : option (list Z) :=
  match table with
  | [] => match cur with None => Some [] | Some _ => None end
  | x :: table' =>
      let size := match cur with None => 0 | Some s => s end + byteval x in
      if byteval x =? 255 then lacing table' (Some size)
      else option_map (cons size) (lacing table' None)
  end.

Definition totalSize (sizes : list Z) : Z := fold_right Z.add 0 sizes.

(** The body of [for (const size of sizes)] for one segment. *)
Definition route (st : state) (bitstream : Z) (segment : Buffer) : state * list event :=
  let header := slice segment 0 8 in
  match _head st with
  | Some _ =>
      if equals header OPUS_TAGS then (st, [Emit_tags segment])
      else if match _bitstream st with Some b => b =? bitstream | None => false end
           then (st, [Push segment])
           else (st, [])
  | None =>
      if equals header OPUS_HEAD
      then (mkState (_remainder st) (Some segment) (Some bitstream), [Emit_head segment])
      else (st, [Emit_unknownSegment segment])
  end.

Fixpoint segments (chunk : Buffer) (bitstream : Z) (sizes : list Z) (start : Z)
                  (st : state) : state * list event * Z :=
  match sizes with
  | [] => (st, [], start)
  | size :: sizes' =>
      let segment := slice chunk start (start + size) in
      let '(st1, ev1) := route st bitstream segment in
      let '(st2, ev2, start2) := segments chunk bitstream sizes' (start + size) st1 in
      (st2, ev1 ++ ev2, start2)
  end.

(** The result of [_readPage]: an exception, [false], or the excess data
    together with the state and the events of the page. *)
Inductive page_result :=
  | Threw (e : error)
  | False_
  | Rest (st : state) (events : list event) (rest : Buffer).

Definition _readPage (st : state) (chunk : Buffer) : page_result :=
  if blength chunk <? OGG_PAGE_HEADER_SIZE then False_
  else if negb (equals (slice chunk 0 4) OGGS_HEADER) then Threw CapturePatternError
  else match readUInt8 chunk 4 with
  | None => Threw RangeError
  | Some version =>
  if negb (version =? STREAM_STRUCTURE_VERSION) then Threw StructureVersionError
  else if blength chunk <? 27 then False_
  else match readUInt8 chunk 26 with
  | None => Threw RangeError
  | Some pageSegments =>
  if blength chunk <? 27 + pageSegments then False_
  else
    let table := slice chunk 27 (27 + pageSegments) in
    match readUInt32BE chunk 14 with
    | None => Threw RangeError
    | Some bitstream =>
    match lacing table None with
    | None => False_
    | Some sizes =>
      if blength chunk <? 27 + pageSegments + totalSize sizes then False_
      else
        let '(st', events, start) :=
          segments chunk bitstream sizes (27 + pageSegments) st in
        Rest st' events (slice_from chunk start)
    end end end end.

(** The [while (chunk)] loop of [_transform] (a Buffer is always truthy, so the
    loop ends on [false] or on an exception).  Every page read removes at least
    27 bytes, so [fuel] above the length of the chunk is never used up; the
    result is [None] only when it is. *)
Fixpoint pages (fuel : nat) (st : state) (chunk : Buffer) (acc : list event)
  : option (list event * status state error) :=
  match fuel with
  | O => None
  | S fuel' =>
      match _readPage st chunk with
      | Threw e => Some (acc, Crashed e)
      | False_ => Some (acc, Running (mkState (Some chunk) (_head st) (_bitstream st)))
      | Rest st' events rest => pages fuel' st' rest (acc ++ events)
      end
  end.

Definition _transform (st : state) (chunk : Buffer)
  : option (list event * status state error) :=
  let chunk := match _remainder st with Some r => r ++ chunk | None => chunk end in
  let st := mkState None (_head st) (_bitstream st) in
  pages (S (List.length chunk)) st chunk [].

(** [cleanup], called by [_destroy] and by [_final]; neither pushes anything. *)
Definition cleanup (st : state) : state := mkState None None None.

Definition _final (st : state) : state * list event := (cleanup st, []).
Definition _destroy (st : state) : state * list event := (cleanup st, []).

(** Writing a sequence of chunks to the stream, one [_transform] call each; an
    exception ends the run. *)
Fixpoint feed (st : state) (chunks : list Buffer)
  : option (list event * status state error) :=
  match chunks with
  | [] => Some ([], Running st)
  | c :: chunks' =>
      match _transform st c with
      | None => None
      | Some (ev, Crashed e) => Some (ev, Crashed e)
      | Some (ev, Running st') =>
          match feed st' chunks' with
          | None => None
          | Some (ev', s) => Some (ev ++ ev', s)
          end
      end
  end.

End OggDemuxer.

(** ** The EBML tag walker ([WebmBaseDemuxer] and its helpers) *)

Module WebmBaseDemuxer.

(** [Partial<Track>]: a field is [None] while it is [undefined].  The resolved
    track [_track] is the very object [_incompleteTrack] at the moment of its
    promotion; once [_track] is set that object is never written again (every
    write is guarded by [!this._track], and [cleanup] replaces
    [_incompleteTrack] by a new object), so a copy stands for the alias. *)
Record Track := mkTrack {
  number : option Z;
  type : option Z
}.

Record state := mkState {
  _remainder : option Buffer;
  _length : Z;
  _count : Z;
  _skipUntil : option num;
  _track : option Track;
  _incompleteTrack : Track;
  _ebmlFound : bool
}.

Definition fresh : state :=
  mkState None 0 0 None None (mkTrack None None) false.

Definition set_ebmlFound (st : state) (b : bool) : state :=
  mkState (_remainder st) (_length st) (_count st) (_skipUntil st)
          (_track st) (_incompleteTrack st) b.

Definition set_tracks (st : state) (t : option Track) (inc : Track) : state :=
  mkState (_remainder st) (_length st) (_count st) (_skipUntil st)
          t inc (_ebmlFound st).

Definition set_skipUntil (st : state) (s : option num) : state :=
  mkState (_remainder st) (_length st) (_count st) s
          (_track st) (_incompleteTrack st) (_ebmlFound st).

Definition set_cursor (st : state) (r : option Buffer) (len cnt : Z) : state :=
  mkState r len cnt (_skipUntil st)
          (_track st) (_incompleteTrack st) (_ebmlFound st).

Inductive error :=
  | NoEBMLTagError       (* Did not find the EBML tag at the start of the stream *)
  | NoAudioTrackError    (* No audio track in this webm! *)
  | NotImplementedError  (* Method not implemented. *)
  | NotOpusError         (* Audio codec is not Opus! *)
  | NotVorbisError       (* Audio codec is not Vorbis! *)
  | RangeError.

(** *** [vintLength] and [expandVint] *)

(** The [for (; i < 8; i++)] loop of [vintLength], with [n] iterations left. *)
Fixpoint vint_scan (n : nat) (i : Z) (first : option byte) : Z :=
  match n with
  | O => i
  | S n' =>
      if negb (band (shl 1 (7 - i)) (int32_of_elem first) =? 0) then i
      else vint_scan n' (i + 1) first
  end.

(** [None] is the [TOO_SHORT] symbol. *)
Definition vintLength (buffer : Buffer) (index : Z) : option Z :=
  let i := vint_scan 8 0 (get buffer index) in
  let i := i + 1 in
  if blength buffer <? index + i then None else Some i.

(** The [for (let i = start + 1; i < end; i++)] loop of [expandVint], with [n]
    iterations left. *)
Fixpoint expand_loop (buffer : Buffer) (n : nat) (i : Z) (value : num) : num :=
  match n with
  | O => value
  | S n' =>
      expand_loop buffer n' (i + 1)
                  (add_elem (shl (int32_of_number value) 8) (get buffer i))
  end.

Definition expandVint (buffer : Buffer) (start end_ : Z) : option num :=
  match vintLength buffer start with
  | None => None
  | Some length =>
      if blength buffer <? end_ then None
      else
        let mask := shl 1 (8 - length) - 1 in
        let value := band (int32_of_elem (get buffer start)) mask in
        Some (expand_loop buffer (Z.to_nat (end_ - (start + 1))) (start + 1) (Int value))
  end.

(** *** Reading one tag *)

(** The keys of [TAGS].  An id is kept as its bytes; the code compares its
    hexadecimal rendering, which determines the bytes. *)
Definition ID_EBML : Buffer := [x1a; x45; xdf; xa3].
Definition ID_Segment : Buffer := [x18; x53; x80; x67].
Definition ID_Cluster : Buffer := [x1f; x43; xb6; x75].
Definition ID_Tracks : Buffer := [x16; x54; xae; x6b].
Definition ID_TrackEntry : Buffer := [xae].
Definition ID_TrackNumber : Buffer := [xd7].
Definition ID_TrackType : Buffer := [x83].
Definition ID_SimpleBlock : Buffer := [xa3].
Definition ID_CodecPrivate : Buffer := [x63; xa2].

(** [TAGS[ebmlID]]: [None] when [!(ebmlID in TAGS)], else whether the element has
    children. *)
Definition TAGS (ebmlID : Buffer) : option bool :=
  if equals ebmlID ID_EBML then Some true
  else if equals ebmlID ID_Segment then Some true
  else if equals ebmlID ID_Cluster then Some true
  else if equals ebmlID ID_Tracks then Some true
  else if equals ebmlID ID_TrackEntry then Some true
  else if equals ebmlID ID_TrackNumber then Some false
  else if equals ebmlID ID_TrackType then Some false
  else if equals ebmlID ID_SimpleBlock then Some false
  else if equals ebmlID ID_CodecPrivate then Some false
  else None.

Definition _readEBMLId (chunk : Buffer) (offset : Z) : option (Buffer * Z) :=
  match vintLength chunk offset with
  | None => None
  | Some idLength => Some (slice chunk offset (offset + idLength), offset + idLength)
  end.

(** The result is [(offset, dataLength, sizeLength)]. *)
Definition _readTagDataSize (chunk : Buffer) (offset : Z) : option (Z * num * Z) :=
  match vintLength chunk offset with
  | None => None
  | Some sizeLength =>
      match expandVint chunk offset (offset + sizeLength) with
      | None => None
      | Some dataLength => Some (offset + sizeLength, dataLength, sizeLength)
      end
  end.

(** [interface Tag] *)
Record Tag := mkTag {
  tag_offset : num;
  tag_skipUntil : option num
}.

Inductive tag_result :=
  | Throw (e : error)
  | TOO_SHORT (st : state)
  | Return (st : state) (pushed : list Buffer) (t : Tag).

(** The writes to the track descriptors under [if (!this._track)]. *)
Definition update_track (st : state) (ebmlID data : Buffer) : state :=
  match _track st with
  | Some _ => st
  | None =>
      let inc := _incompleteTrack st in
      let inc := if equals ebmlID ID_TrackEntry then mkTrack None None else inc in
      let inc := if equals ebmlID ID_TrackNumber
                 then mkTrack (option_map byteval (get data 0)) (type inc) else inc in
      let inc := if equals ebmlID ID_TrackType
                 then mkTrack (number inc) (option_map byteval (get data 0)) else inc in
      match type inc, number inc with
      | Some 2, Some _ => set_tracks st (Some inc) inc
      | _, _ => set_tracks st None inc
      end
  end.

Section Walker.

(** The hook of the concrete demuxer: the exception it throws, or the packets
    it pushes. *)
Variable _checkHead : Buffer -> error + list Buffer.

Definition _readTag (st : state) (chunk : Buffer) (offset : Z) : tag_result :=
  match _readEBMLId chunk offset with
  | None => TOO_SHORT st
  | Some (ebmlID, offset1) =>
  if negb (_ebmlFound st) && negb (equals ebmlID ID_EBML) then Throw NoEBMLTagError
  else
  let st := set_ebmlFound st true in
  match _readTagDataSize chunk offset1 with
  | None => TOO_SHORT st
  | Some (offset2, dataLength, _) =>
  match TAGS ebmlID with
  | None =>
      if gt (Int (blength chunk)) (add offset2 dataLength)
      then Return st [] (mkTag (add offset2 dataLength) None)
      else Return st [] (mkTag (Int offset2)
                               (Some (add (_count st + offset2) dataLength)))
  | Some true => Return st [] (mkTag (Int offset2) None)
  | Some false =>
      if gt (add offset2 dataLength) (Int (blength chunk)) then TOO_SHORT st
      else
        let data := slice_num chunk (Int offset2) (add offset2 dataLength) in
        let st := update_track st ebmlID data in
        let next := mkTag (add offset2 dataLength) None in
        if equals ebmlID ID_CodecPrivate then
          match _checkHead data with
          | inl e => Throw e
          | inr pushed => Return st pushed next
          end
        else if equals ebmlID ID_SimpleBlock then
          match _track st with
          | None => Throw NoAudioTrackError
          | Some track =>
              if match number track with
                 | Some n => band (int32_of_elem (get data 0)) 15 =? n
                 | None => false
                 end
              then Return st [slice_from data 4] next
              else Return st [] next
          end
        else Return st [] next
  end end end.

(** The end of [_transform]: [this._count += offset] and
    [this._remainder = chunk.slice(offset)]. *)
Definition finish (st : state) (chunk : Buffer) (offset : Z) : state :=
  set_cursor st (Some (slice_from chunk offset)) (_length st) (_count st + offset).

(** The [while] loop of [_transform].  The loop goes on as long as [_readTag]
    returns a truthy offset and no [_skipUntil]; a size field that decodes to
    a negative number can send the offset backwards and the source loop round
    for ever, so the loop is given [fuel], and [None] means it ran out. *)
Fixpoint walk (fuel : nat) (st : state) (chunk : Buffer) (offset : Z)
              (acc : list Buffer) : option (list Buffer * status state error) :=
  match fuel with
  | O => None
  | S fuel' =>
      match _readTag st chunk offset with
      | Throw e => Some (acc, Crashed e)
      | TOO_SHORT st' => Some (acc, Running (finish st' chunk offset))
      | Return st' pushed t =>
          if truthy_opt (tag_skipUntil t)
          then Some (acc ++ pushed,
                     Running (finish (set_skipUntil st' (tag_skipUntil t)) chunk offset))
          else match tag_offset t with
               | Int o =>
                   if truthy (Int o) then walk fuel' st' chunk o (acc ++ pushed)
                   else Some (acc ++ pushed, Running (finish st' chunk offset))
               | NaN => Some (acc ++ pushed, Running (finish st' chunk offset))
               end
      end
  end.

Definition _transform (st : state) (chunk : Buffer)
  : option (list Buffer * status state error) :=
  let length := _length st + blength chunk in
  let chunk := match _remainder st with Some r => r ++ chunk | None => chunk end in
  let st := set_cursor st None length (_count st) in
  match _skipUntil st with
  | Some (Int s) =>
      if truthy (Int s) && (s <? length)
      then walk (S (List.length chunk)) (set_skipUntil st None) chunk (s - _count st) []
      else if truthy (Int s)
      then Some ([], Running (set_cursor st None length (_count st + blength chunk)))
      else walk (S (List.length chunk)) st chunk 0 []
  | _ => walk (S (List.length chunk)) st chunk 0 []
  end.

Fixpoint feed (st : state) (chunks : list Buffer)
  : option (list Buffer * status state error) :=
  match chunks with
  | [] => Some ([], Running st)
  | c :: chunks' =>
      match _transform st c with
      | None => None
      | Some (out, Crashed e) => Some (out, Crashed e)
      | Some (out, Running st') =>
          match feed st' chunks' with
          | None => None
          | Some (out', s) => Some (out ++ out', s)
          end
      end
  end.

(** The source loop has no bound of its own.  [transform_within] is
    [_transform] with the number of rounds the loop may take as a parameter
    ([_transform] allows one round more than the buffer has bytes, which is
    enough whenever every round moves forward), and [feed_within] is [feed]
    over it: [None] means that the loop is not over after that many rounds. *)
Definition transform_within (rounds : nat) (st : state) (chunk : Buffer)
  : option (list Buffer * status state error) :=
  let length := _length st + blength chunk in
  let chunk := match _remainder st with Some r => r ++ chunk | None => chunk end in
  let st := set_cursor st None length (_count st) in
  match _skipUntil st with
  | Some (Int s) =>
      if truthy (Int s) && (s <? length)
      then walk rounds (set_skipUntil st None) chunk (s - _count st) []
      else if truthy (Int s)
      then Some ([], Running (set_cursor st None length (_count st + blength chunk)))
      else walk rounds st chunk 0 []
  | _ => walk rounds st chunk 0 []
  end.

Fixpoint feed_within (rounds : nat) (st : state) (chunks : list Buffer)
  : option (list Buffer * status state error) :=
  match chunks with
  | [] => Some ([], Running st)
  | c :: chunks' =>
      match transform_within rounds st c with
      | None => None
      | Some (out, Crashed e) => Some (out, Crashed e)
      | Some (out, Running st') =>
          match feed_within rounds st' chunks' with
          | None => None
          | Some (out', s) => Some (out ++ out', s)
          end
      end
  end.

End Walker.

(** [cleanup], called by [_destroy] and by [_final]; neither pushes anything. *)
Definition cleanup (st : state) : state :=
  mkState None (_length st) (_count st) (_skipUntil st)
          (_track st) (mkTrack None None) (_ebmlFound st).

Definition _final (st : state) : state * list Buffer := (cleanup st, []).
Definition _destroy (st : state) : state * list Buffer := (cleanup st, []).

(** The hook of the base class. *)
Definition base_checkHead (data : Buffer) : error + list Buffer :=
  inl NotImplementedError.

End WebmBaseDemuxer.

(** ** The two concrete demuxers *)

Module OpusWebmDemuxer.
Import WebmBaseDemuxer.

Definition OPUS_HEAD : Buffer := Buffer_from "OpusHead".

Definition _checkHead (data : Buffer) : error + list Buffer :=
  if negb (equals (slice data 0 8) OPUS_HEAD) then inl NotOpusError
  else inr [].

End OpusWebmDemuxer.

Module VorbisWebmDemuxer.
Import WebmBaseDemuxer.

Definition VORBIS_HEAD : Buffer := Buffer_from "vorbis".

Definition _checkHead (data : Buffer) : error + list Buffer :=
  match readUInt8 data 0 with
  | None => inl RangeError
  | Some b0 =>
      if negb (b0 =? 2) || negb (equals (slice data 4 10) VORBIS_HEAD)
      then inl NotVorbisError
      else
        match readUInt8 data 1, readUInt8 data 2 with
        | Some b1, Some b2 =>
            inr [ slice data 3 (3 + b1);
                  slice data (3 + b1) (3 + b1 + b2);
                  slice_from data (3 + b1 + b2) ]
        | _, _ => inl RangeError
        end
  end.

End VorbisWebmDemuxer.

(** ** More of Node's [Buffer], and [Math] on the numbers met below *)

Module Node.

(** [readUInt16LE]; [None] is the RangeError of a read that leaves the buffer. *)
Definition readUInt16LE (b : Buffer) (offset : Z) : option Z :=
  match get b offset, get b (offset + 1) with
  | Some first, Some last => Some (byteval first + byteval last * 2 ^ 8)
  | _, _ => None
  end.

(** [val | (val & 2 ** (bits - 1)) * ...]: the value of [bits] bits read as a
    signed number. *)
Definition signed (bits : Z) (val : Z) : Z :=
  if val <? 2 ^ (bits - 1) then val else val - 2 ^ bits.

Definition readInt16LE (b : Buffer) (offset : Z) : option Z :=
  match get b offset, get b (offset + 1) with
  | Some first, Some last => Some (signed 16 (byteval first + byteval last * 2 ^ 8))
  | _, _ => None
  end.

Definition readInt16BE (b : Buffer) (offset : Z) : option Z :=
  match get b offset, get b (offset + 1) with
  | Some first, Some last => Some (signed 16 (byteval first * 2 ^ 8 + byteval last))
  | _, _ => None
  end.

Definition readInt32LE (b : Buffer) (offset : Z) : option Z :=
  match get b offset, get b (offset + 1), get b (offset + 2), get b (offset + 3) with
  | Some first, Some b1, Some b2, Some last =>
      Some (signed 32 (byteval first + byteval b1 * 2 ^ 8 + byteval b2 * 2 ^ 16
                       + byteval last * 2 ^ 24))
  | _, _, _, _ => None
  end.

Definition readInt32BE (b : Buffer) (offset : Z) : option Z :=
  match get b offset, get b (offset + 1), get b (offset + 2), get b (offset + 3) with
  | Some first, Some b1, Some b2, Some last =>
      Some (signed 32 (byteval first * 2 ^ 24 + byteval b1 * 2 ^ 16 + byteval b2 * 2 ^ 8
                       + byteval last))
  | _, _, _, _ => None
  end.

(** A number that [Math.floor] returns, or that is compared with one: an
    integer, an infinity or NaN. *)
Inductive double :=
  | Fin (z : Z)
  | PInf
  | NInf
  | DNaN.

(** [Math.max(a, v)] and [Math.min(a, v)] for an integer [a]. *)
Definition Math_max (a : Z) (v : double) : double :=
  match v with
  | Fin z => Fin (Z.max a z)
  | PInf => PInf
  | NInf => Fin a
  | DNaN => DNaN
  end.

Definition Math_min (a : Z) (v : double) : double :=
  match v with
  | Fin z => Fin (Z.min a z)
  | PInf => Fin a
  | NInf => NInf
  | DNaN => DNaN
  end.

(** The byte that [buf[i] = value] stores. *)
Definition byte_of (value : Z) : byte :=
  match Byte.of_N (Z.to_N (value mod 256)) with Some b => b | None => x00 end.

(** [buf[offset++] = value; value = value >>> 8; ...], [n] times. *)
Fixpoint le_bytes (n : nat) (value : Z) : list byte :=
  match n with
  | O => []
  | S n' => byte_of value :: le_bytes n' (value / 256)
  end.

(** The buffer with [bytes] stored from [offset] on. *)
Definition put (b : Buffer) (offset : Z) (bytes : list byte) : Buffer :=
  firstn (Z.to_nat offset) b ++ bytes
  ++ skipn (Z.to_nat offset + List.length bytes) b.

(** [writeInt16LE], [writeInt16BE], [writeInt32LE] and [writeInt32BE]: [width]
    is the number of bytes.  [None] is the error thrown for a value outside the
    signed range ([checkInt]; NaN passes it and is stored as zero bytes) or for
    an offset at which the bytes do not fit in the buffer ([checkBounds]). *)
Definition writeInt (width : nat) (little : bool)
                    (b : Buffer) (value : double) (offset : Z) : option Buffer :=
  let max := 2 ^ (8 * Z.of_nat width - 1) - 1 in
  let min := - 2 ^ (8 * Z.of_nat width - 1) in
  let store v :=
    match get b offset, get b (offset + Z.of_nat width - 1) with
    | Some _, Some _ =>
        let bytes := le_bytes width v in
        Some (put b offset (if little then bytes else rev bytes))
    | _, _ => None
    end in
  match value with
  | Fin v => if (max <? v) || (v <? min) then None else store v
  | PInf | NInf => None
  | DNaN => store 0
  end.

Definition writeInt16LE := writeInt 2 true.
Definition writeInt16BE := writeInt 2 false.
Definition writeInt32LE := writeInt 4 true.
Definition writeInt32BE := writeInt 4 false.

End Node.

(** ** The Opus streams ([src/opus/Opus.ts]) *)

Module OpusStream.
Import Node.

Definition CTL_BITRATE : Z := 4002.
Definition CTL_FEC : Z := 4012.
Definition CTL_PLP : Z := 4014.

Definition OPUS_HEAD : Buffer := Buffer_from "OpusHead".
Definition OPUS_TAGS : Buffer := Buffer_from "OpusTags".

Inductive error :=
  | RangeError
  | NativeError.   (* whatever the native codec throws *)

(** The object of the ['format'] event. *)
Record format := mkFormat {
  f_channels : Z;
  f_sampleRate : Z;
  f_bitDepth : Z;
  f_float : bool;
  f_signed : bool;
  f_version : Z;
  f_preSkip : Z;
  f_gain : Z
}.

(** [this.push(x)], where [x] may be [undefined], and the two events of the
    decoder. *)
Inductive event :=
  | Push (data : option Buffer)
  | Emit_format (f : format)
  | Emit_tags (chunk : Buffer).

Section Native.

(** The codec object of [@typescord/opus] and its two methods: the object
    after the call and the buffer returned, or [None] when the call throws.
    The options [frameSize], [channels] and [rate] are integers. *)
Variable Opus : Type.
Variable encode decode : Opus -> Buffer -> Opus * option Buffer.

Record stream := mkStream {
  encoder : option Opus;
  rate : Z;
  frameSize : Z;
  channels : Z;
  required : Z
}.

(** The constructor of [OpusStream]; [native] is [new Opus(rate, channels)]. *)
Definition new (native : Opus) (frameSize rate channels : Z) : stream :=
  mkStream (Some native) rate frameSize channels (frameSize * channels * 2).

Definition set_encoder (s : stream) (e : option Opus) : stream :=
  mkStream e (rate s) (frameSize s) (channels s) (required s).

(** [this.encoder?.encode(buffer)] and [this.encoder?.decode(buffer)]: the
    stream after the call and the value returned, or [None] when the call
    throws. *)
Definition _encode (s : stream) (buffer : Buffer) : option (stream * option Buffer) :=
  match encoder s with
  | None => Some (s, None)
  | Some e =>
      match encode e buffer with
      | (e', Some out) => Some (set_encoder s (Some e'), Some out)
      | (_, None) => None
      end
  end.

Definition _decode (s : stream) (buffer : Buffer) : option (stream * option Buffer) :=
  match encoder s with
  | None => Some (s, None)
  | Some e =>
      match decode e buffer with
      | (e', Some out) => Some (set_encoder s (Some e'), Some out)
      | (_, None) => None
      end
  end.

(** [setBitrate] and [setFEC]: the arguments of the [applyEncoderCTL] call, or
    [None] when there is no encoder and no call.  The bitrate is an integer,
    an infinity or NaN.  ([setPLP] multiplies a fraction by 100 in floating
    point and is left out.) *)
Definition setBitrate (s : stream) (bitrate : double) : option (Z * double) :=
  match encoder s with
  | None => None
  | Some _ => Some (CTL_BITRATE, Math_min 128000 (Math_max 16000 bitrate))
  end.

Definition setFEC (s : stream) (enabled : bool) : option (Z * double) :=
  match encoder s with
  | None => None
  | Some _ => Some (CTL_FEC, Fin (if enabled then 1 else 0))
  end.

Definition cleanup (s : stream) : stream := set_encoder s None.

Definition _final (s : stream) : stream * list event := (cleanup s, []).
Definition _destroy (s : stream) : stream * list event := (cleanup s, []).

(** *** [Encoder] *)

Record Encoder := mkEncoder {
  base : stream;
  buffer : option Buffer
}.

(** A new encoder: [buffer] is [Buffer.alloc(0)]. *)
Definition Encoder_new (native : Opus) (frameSize rate channels : Z) : Encoder :=
  mkEncoder (new native frameSize rate channels) (Some []).

(** The [while] loop of [Encoder._transform]; [n] counts the frames encoded.
    The loop has no end when [required] is not positive, so it is given
    [fuel], and the outer [None] means it ran out.  The result is the frames
    pushed and, unless the encoder threw, the stream and [n] after the
    loop. *)
Fixpoint frames (fuel : nat) (s : stream) (buffer : Buffer) (n : Z) (acc : list event)
  : option (list event * option (stream * Z)) :=
  match fuel with
  | O => None
  | S fuel' =>
      if blength buffer <? required s * (n + 1) then Some (acc, Some (s, n))
      else
        match _encode s (slice buffer (n * required s) ((n + 1) * required s)) with
        | None => Some (acc, None)
        | Some (s', out) => frames fuel' s' buffer (n + 1) (acc ++ [Push out])
        end
  end.

Definition Encoder_transform (st : Encoder) (chunk : Buffer)
  : option (list event * status Encoder error) :=
  let buffer := match buffer st with Some b => b ++ chunk | None => chunk end in
  match frames (S (List.length buffer)) (base st) buffer 0 [] with
  | None => None
  | Some (pushed, None) => Some (pushed, Crashed NativeError)
  | Some (pushed, Some (s, n)) =>
      let buffer := if 0 <? n then slice_from buffer (n * required s) else buffer in
      Some (pushed, Running (mkEncoder s (Some buffer)))
  end.

Definition Encoder_destroy (st : Encoder) : Encoder * list event :=
  (mkEncoder (cleanup (base st)) None, []).

Fixpoint Encoder_feed (st : Encoder) (chunks : list Buffer)
  : option (list event * status Encoder error) :=
  match chunks with
  | [] => Some ([], Running st)
  | c :: chunks' =>
      match Encoder_transform st c with
      | None => None
      | Some (ev, Crashed e) => Some (ev, Crashed e)
      | Some (ev, Running st') =>
          match Encoder_feed st' chunks' with
          | None => None
          | Some (ev', r) => Some (ev ++ ev', r)
          end
      end
  end.

(** *** [Decoder] *)

(** [Decoder._transform]: a RangeError is thrown by the reads of the head; the
    error of the native decoder is caught and handed to [done]. *)
Definition Decoder_transform (s : stream) (chunk : Buffer)
  : list event * status stream error :=
  let signature := slice chunk 0 8 in
  if equals signature OPUS_HEAD then
    match readUInt8 chunk 8, readUInt16LE chunk 10, readUInt16LE chunk 16 with
    | Some version, Some preSkip, Some gain =>
        ([Emit_format (mkFormat (channels s) (rate s) 16 false true version preSkip gain)],
         Running s)
    | _, _, _ => ([], Crashed RangeError)
    end
  else if equals signature OPUS_TAGS then ([Emit_tags chunk], Running s)
  else
    match _decode s chunk with
    | None => ([], Crashed NativeError)
    | Some (s', out) => ([Push out], Running s')
    end.

End Native.

End OpusStream.

(** ** The volume transformer ([src/core/VolumeTransformer.ts]) *)

Module VolumeTransformer.
Import Node.

Inductive pcm := s16le | s16be | s32le | s32be.

Inductive error :=
  | TypeError    (* VolumeTransformer type should be one of s16le, s16be, s32le, s32be *)
  | RangeError.

(** The [switch (options.type)] of the constructor: the methods [_readInt] and
    [_writeInt] and the field [bits] it chooses.  The fields [bits], [bytes]
    and [extremum] are written there only, so they are read off the type. *)
Definition type_of (type : option string) : option pcm :=
  match type with
  | None => None
  | Some t =>
      if String.eqb t "s16le" then Some s16le
      else if String.eqb t "s16be" then Some s16be
      else if String.eqb t "s32le" then Some s32le
      else if String.eqb t "s32be" then Some s32be
      else None
  end.

Definition bits (t : pcm) : Z :=
  match t with s16le | s16be => 16 | s32le | s32be => 32 end.

Definition bytes (t : pcm) : Z := bits t / 8.

Definition extremum (t : pcm) : Z := 2 ^ (bits t - 1).

Definition _readInt (t : pcm) (buffer : Buffer) (index : Z) : option Z :=
  match t with
  | s16le => readInt16LE buffer index
  | s16be => readInt16BE buffer index
  | s32le => readInt32LE buffer index
  | s32be => readInt32BE buffer index
  end.

Definition _writeInt (t : pcm) (buffer : Buffer) (int : double) (index : Z)
  : option Buffer :=
  match t with
  | s16le => writeInt16LE buffer int index
  | s16be => writeInt16BE buffer int index
  | s32le => writeInt32LE buffer int index
  | s32be => writeInt32BE buffer int index
  end.

Section Numbers.

(** The volume is a floating-point number.  What the code does with it:
    [volume === 1], and [Math.floor(volume * int)] for an integer [int], whose
    value is an integer, an infinity or NaN.  [one] is the number 1.
    [garbage i] is the byte that memory handed out by [Buffer.allocUnsafe]
    holds at index [i]. *)
Variable float : Type.
Variable one : float.
Variable is_one : float -> bool.
Variable floor_times : float -> Z -> double.
Variable garbage : nat -> byte.

Definition allocUnsafe (size : Z) : Buffer := map garbage (seq 0 (Z.to_nat size)).

Record state := mkState {
  type : pcm;
  chunk : option Buffer;
  volume : float
}.

(** The constructor: [chunk] is [Buffer.alloc(0)], and the volume is 1 unless
    the options give one. *)
Definition new (type : option string) (volume : option float) : error + state :=
  match type_of type with
  | None => inl TypeError
  | Some t => inr (mkState t (Some []) (match volume with Some v => v | None => one end))
  end.

(** The [for (let i = 0; i < complete; i += _bytes)] loop of [_transform]. *)
Fixpoint samples (fuel : nat) (t : pcm) (volume : float) (newChunk : Buffer)
                 (complete : Z) (transformed : Buffer) (i : Z)
  : option (error + Buffer) :=
  match fuel with
  | O => None
  | S fuel' =>
      if i <? complete then
        match _readInt t newChunk i with
        | None => Some (inl RangeError)
        | Some x =>
            let int := Math_min (extremum t - 1)
                                (Math_max (- extremum t) (floor_times volume x)) in
            match _writeInt t transformed int i with
            | None => Some (inl RangeError)
            | Some transformed' =>
                samples fuel' t volume newChunk complete transformed' (i + bytes t)
            end
        end
      else Some (inr transformed)
  end.

Definition _transform (st : state) (chunk_ : Buffer)
  : option (list Buffer * status state error) :=
  if is_one (volume st) then Some ([chunk_], Running st)
  else
    let newChunk := match chunk st with Some c => c ++ chunk_ | None => chunk_ end in
    let st := mkState (type st) (Some newChunk) (volume st) in
    if blength newChunk <? bytes (type st) then Some ([], Running st)
    else
      let transformed := allocUnsafe (blength newChunk) in
      let complete := blength newChunk / bytes (type st) * bytes (type st) in
      match samples (S (List.length newChunk)) (type st) (volume st) newChunk complete
                    transformed 0 with
      | None => None
      | Some (inl e) => Some ([], Crashed e)
      | Some (inr transformed) =>
          Some ([transformed],
                Running (mkState (type st) (Some (slice_from newChunk complete)) (volume st)))
      end.

Definition _destroy (st : state) : state * list Buffer :=
  (mkState (type st) None (volume st), []).

Definition setVolume (st : state) (volume : float) : state :=
  mkState (type st) (chunk st) volume.

Fixpoint feed (st : state) (chunks : list Buffer)
  : option (list Buffer * status state error) :=
  match chunks with
  | [] => Some ([], Running st)
  | c :: chunks' =>
      match _transform st c with
      | None => None
      | Some (out, Crashed e) => Some (out, Crashed e)
      | Some (out, Running st') =>
          match feed st' chunks' with
          | None => None
          | Some (out', r) => Some (out ++ out', r)
          end
      end
  end.

End Numbers.

End VolumeTransformer.

(** ** The FFmpeg launcher ([src/core/FFmpeg.ts]) *)

Module FFmpeg.

(** The cache [FFMPEG] of the module. *)
Record FFMPEG := mkFFMPEG {
  command : option string;
  output : option string
}.

Definition no_info : FFMPEG := mkFFMPEG None None.

(** A string is truthy unless it is empty. *)
Definition truthy_string (s : option string) : bool :=
  match s with
  | Some s => negb (String.eqb s "")
  | None => false
  end.

(** An entry of [sources]: the function that requires [ffmpeg-static], or the
    name of a command. *)
Inductive source :=
  | Static
  | Name (name : string).

Definition sources : list source :=
  [Static; Name "ffmpeg"; Name "avconv"; Name "./ffmpeg"; Name "./avconv"].

Inductive result :=
  | Throw_not_found              (* FFmpeg/avconv not found! *)
  | Return (info : FFMPEG)
  | Return_undefined.

Section World.

(** [require('ffmpeg-static')]: the path, or [None] when it throws.
    [spawnSync(command, ['-h'])]: the text of its output, or [None] when the
    result has an [error]. *)
Variable require_ffmpeg_static : option string.
Variable spawnSync : string -> option string.

(** The [for (const source of sources)] loop of [getInfo].  The last statement
    of its body is the [throw], after the [try] whose [catch] does nothing:
    a second iteration never starts.  The result comes with the commands that
    were spawned. *)
Definition search (sources : list source) : list string * result :=
  match sources with
  | [] => ([], Return_undefined)
  | source :: _ =>
      match (match source with Static => require_ffmpeg_static | Name n => Some n end) with
      | None => ([], Throw_not_found)
      | Some command =>
          match spawnSync command with
          | None => ([command], Throw_not_found)
          | Some output => ([command], Return (mkFFMPEG (Some command) (Some output)))
          end
      end
  end.

(** [getInfo(force)]: the cache after the call, the commands spawned, and the
    result. *)
Definition getInfo (cache : FFMPEG) (force : bool) : FFMPEG * list string * result :=
  if truthy_string (command cache) && negb force then (cache, [], Return cache)
  else
    match search sources with
    | (spawned, Return info) => (info, spawned, Return info)
    | (spawned, r) => (cache, spawned, r)
    end.

(** What [create] does: the child process spawned, or the exception of
    [getInfo]. *)
Inductive created :=
  | Spawn (command : string) (argv : list string)
  | Throw_create.

(** [create({ args })]: the array [args] after the call (it is the caller's
    array, and [unshift] writes to it), the cache, and the outcome. *)
Definition create (cache : FFMPEG) (args : list string)
  : list string * FFMPEG * created :=
  let args := if existsb (String.eqb "-i") args then args else "-i"%string :: "-"%string :: args in
  match getInfo cache false with
  | (cache', _, Return info) =>
      (args, cache',
       Spawn (match command info with Some c => c | None => ""%string end) (args ++ ["pipe:1"%string]))
  | (cache', _, Return_undefined) => (args, cache', Spawn ""%string (args ++ ["pipe:1"%string]))
  | (cache', _, Throw_not_found) => (args, cache', Throw_create)
  end.

End World.

End FFmpeg.

(** ** The helper of the tests ([test/util.ts]) *)

Module TestUtil.

(** The [for] loop of [roughlyEquals], with [n] iterations left. *)
Fixpoint roughly_from (n : nat) (x y : Buffer) (i : Z) : bool :=
  match n with
  | O => true
  | S n' =>
      if match get x i, get y i with
         | Some a, Some b => 1 <? Z.abs (byteval a - byteval b)
         | _, _ => false
         end
      then false
      else roughly_from n' x y (i + 1)
  end.

Definition roughlyEquals (x y : Buffer) : bool :=
  if negb (blength x =? blength y) then false
  else roughly_from (List.length x) x y 0.

End TestUtil.

(** * Notions used by the statements and by their proofs

    The views of the two state machines in which the properties below are
    stated and proved, and the streams on which they are run. *)

(** ** The Ogg page reader *)

Module OggView.
Import OggDemuxer.

(** What [_readPage] has checked when it returns the excess data. *)
Record page_read (st : state) (chunk : Buffer) (st' : state) (events : list event)
                 (rest : Buffer) (pageSegments bitstream : Z) (sizes : list Z) : Prop := {
  pr_header : 27 <= blength chunk;
  pr_capture : equals (slice chunk 0 4) OGGS_HEADER = true;
  pr_version : readUInt8 chunk 4 = Some 0;
  pr_count : readUInt8 chunk 26 = Some pageSegments;
  pr_table : 27 + pageSegments <= blength chunk;
  pr_serial : readUInt32BE chunk 14 = Some bitstream;
  pr_sizes : lacing (slice chunk 27 (27 + pageSegments)) None = Some sizes;
  pr_payload : 27 + pageSegments + totalSize sizes <= blength chunk;
  pr_segments : fst (segments chunk bitstream sizes (27 + pageSegments) st) = (st', events);
  pr_rest : rest = slice_from chunk (27 + pageSegments + totalSize sizes)
}.

(** The buffer a call works on: [Buffer.concat([this._remainder, chunk])]. *)
Definition pending (st : state) (chunk : Buffer) : Buffer :=
  match _remainder st with Some r => r ++ chunk | None => chunk end.

Definition cleared (st : state) : state := mkState None (_head st) (_bitstream st).

(** The fixed header and the whole segment table are in the buffer. *)
Definition header_present (buf : Buffer) (pageSegments : Z) : Prop :=
  equals (slice buf 0 4) OGGS_HEADER = true /\
  readUInt8 buf 4 = Some 0 /\
  readUInt8 buf 26 = Some pageSegments /\
  27 + pageSegments <= blength buf.


End OggView.

(** ** The EBML tag walker *)

Module WebmWalk.
Import WebmBaseDemuxer.

(** *** The header of an element: its id and its size field *)

Definition header (chunk : Buffer) (offset : Z) : option (Buffer * Z * num) :=
  match _readEBMLId chunk offset with
  | None => None
  | Some (ebmlID, offset1) =>
      match _readTagDataSize chunk offset1 with
      | None => None
      | Some (offset2, dataLength, _) => Some (ebmlID, offset2, dataLength)
      end
  end.

(** The part of the state that [_readTag] reads and writes, next to [_count]:
    the two track descriptors and the root-tag flag. *)
Definition core : Type := (option Track * Track * bool)%type.

Definition core_of (st : state) : core :=
  (_track st, _incompleteTrack st, _ebmlFound st).

Definition with_core (st : state) (f : core) : state :=
  mkState (_remainder st) (_length st) (_count st) (_skipUntil st)
          (fst (fst f)) (snd (fst f)) (snd f).

Definition rebase (st : state) (r : tag_result) : tag_result :=
  match r with
  | Throw e => Throw e
  | TOO_SHORT st' => TOO_SHORT (with_core st (core_of st'))
  | Return st' pushed t => Return (with_core st (core_of st')) pushed t
  end.

Section Hook.

Variable checkHead : Buffer -> error + list Buffer.

(** What [_readTag] does once the id and the size field are read. *)
Definition dispatch (st : state) (chunk ebmlID : Buffer) (offset2 : Z) (dataLength : num)
  : tag_result :=
  match TAGS ebmlID with
  | None =>
      if gt (Int (blength chunk)) (add offset2 dataLength)
      then Return st [] (mkTag (add offset2 dataLength) None)
      else Return st [] (mkTag (Int offset2)
                               (Some (add (_count st + offset2) dataLength)))
  | Some true => Return st [] (mkTag (Int offset2) None)
  | Some false =>
      if gt (add offset2 dataLength) (Int (blength chunk)) then TOO_SHORT st
      else
        let data := slice_num chunk (Int offset2) (add offset2 dataLength) in
        let st := update_track st ebmlID data in
        let next := mkTag (add offset2 dataLength) None in
        if equals ebmlID ID_CodecPrivate then
          match checkHead data with
          | inl e => Throw e
          | inr pushed => Return st pushed next
          end
        else if equals ebmlID ID_SimpleBlock then
          match _track st with
          | None => Throw NoAudioTrackError
          | Some track =>
              if match number track with
                 | Some n => band (int32_of_elem (get data 0)) 15 =? n
                 | None => false
                 end
              then Return st [slice_from data 4] next
              else Return st [] next
          end
        else Return st [] next
  end.

(** [_readTag] leaves [_remainder], [_length], [_count] and [_skipUntil] alone. *)
Definition keeps_frame (st : state) (r : tag_result) : Prop :=
  match r with
  | Throw _ => True
  | TOO_SHORT st' => st' = with_core st (core_of st')
  | Return st' _ _ => st' = with_core st (core_of st')
  end.

(** *** The step of the walk, in positions of the whole stream

    [_transform] works on the tail of the stream that it has kept, with
    offsets into that tail.  [aview base r] reads a result [r] of [_readTag]
    as the loop of [_transform] does, for a tail that begins at position
    [base] of the stream: the walk ends with an exception, stops where it is,
    or goes on at a position of the stream.  A [_skipUntil] is such a
    position already. *)
Inductive astep_result :=
  | AErr (e : error)
  | AStop (f : core) (pushed : list Buffer)
  | ANext (f : core) (pushed : list Buffer) (pos : Z).

Definition aview (base : Z) (r : tag_result) : astep_result :=
  match r with
  | Throw e => AErr e
  | TOO_SHORT st' => AStop (core_of st') []
  | Return st' pushed t =>
      let by_offset :=
        match tag_offset t with
        | Int o => if truthy (Int o) then ANext (core_of st') pushed (base + o)
                   else AStop (core_of st') pushed
        | NaN => AStop (core_of st') pushed
        end in
      match tag_skipUntil t with
      | Some (Int s) => if truthy (Int s) then ANext (core_of st') pushed s else by_offset
      | _ => by_offset
      end
  end.

(** The state of a walk over a whole buffer: nothing consumed yet. *)
Definition ref_state (f : core) : state :=
  mkState None 0 0 None (fst (fst f)) (snd (fst f)) (snd f).

Definition astep (B : Buffer) (f : core) (pos : Z) : astep_result :=
  aview 0 (_readTag checkHead (ref_state f) B pos).

(** The size field at [offset], when it is the size of a leaf or of an unknown
    element, is an integer that is not negative. *)
Definition nonneg_size (chunk : Buffer) (offset : Z) : Prop :=
  forall id offset2 dl,
    header chunk offset = Some (id, offset2, dl) ->
    TAGS id <> Some true -> exists d, dl = Int d /\ 0 <= d.

(** Where the walk goes after an element: into a container, past anything
    else. *)
Definition next_pos (id : Buffer) (offset2 d : Z) : Z :=
  match TAGS id with Some true => offset2 | _ => offset2 + d end.

(** *** Streams whose sizes are read as they are meant

    [Valid T pos]: from position [pos] of [T] on, every size field that the
    walk reads for a leaf or for an unknown element is an integer that is not
    negative (the 32-bit shifts of [expandVint] did not turn it into a negative
    number).  The size of a container is never used. *)
Inductive Valid (T : Buffer) : Z -> Prop :=
  | Valid_intro (pos : Z) :
      0 <= pos -> nonneg_size T pos ->
      (forall id o2 d, header T pos = Some (id, o2, Int d) ->
                       Valid T (next_pos id o2 d)) ->
      Valid T pos.

(** The walk over the whole of [T], as events and a final exception if any. *)
Inductive Ref (T : Buffer) : core -> Z -> list Buffer -> option error -> Prop :=
  | Ref_err f pos e :
      astep T f pos = AErr e -> Ref T f pos [] (Some e)
  | Ref_stop f pos f' pushed :
      astep T f pos = AStop f' pushed -> Ref T f pos pushed None
  | Ref_next f pos f' pushed pos' ev oe :
      astep T f pos = ANext f' pushed pos' ->
      Ref T f' pos' ev oe -> Ref T f pos (pushed ++ ev) oe.

(** The bytes the state holds. *)
Definition rem_bytes (st : state) : Buffer :=
  match _remainder st with Some r => r | None => [] end.

(** [Rep st P pos]: after the bytes [P], the state stands at position [pos]:
    it has consumed [_count st] bytes and holds the rest of [P]; [pos] is where
    it will read next, the consumed count itself or the pending skip target,
    which lies at or beyond the end of [P]. *)
Definition Rep (st : state) (P : Buffer) (pos : Z) : Prop :=
  0 <= _count st <= blength P /\
  rem_bytes st = slice_from P (_count st) /\
  ((_skipUntil st = None /\ pos = _count st) \/
   (_skipUntil st = Some (Int pos) /\ blength P <= pos /\ 0 < pos)).

Definition err_of (s : status state error) : option error :=
  match s with Running _ => None | Crashed e => Some e end.

(** The states a demuxer goes through: from a new one, by reading tags, by
    moving the cursor ([_remainder], [_length], [_count], [_skipUntil]), and by
    [cleanup]. *)
Inductive reachable : state -> Prop :=
  | reach_fresh : reachable fresh
  | reach_short st chunk offset st' :
      reachable st -> _readTag checkHead st chunk offset = TOO_SHORT st' ->
      reachable st'
  | reach_return st chunk offset st' pushed t :
      reachable st -> _readTag checkHead st chunk offset = Return st' pushed t ->
      reachable st'
  | reach_cursor st st' :
      reachable st -> core_of st' = core_of st -> reachable st'
  | reach_cleanup st :
      reachable st -> reachable (cleanup st).

End Hook.

(** A check of [Valid] that can be run. *)
Fixpoint valid_from (fuel : nat) (T : Buffer) (pos : Z) : bool :=
  match fuel with
  | O => false
  | S fuel' =>
      match header T pos with
      | None => true
      | Some (id, o2, NaN) => false
      | Some (id, o2, Int d) =>
          match TAGS id with Some true => true | _ => 0 <=? d end
          && valid_from fuel' T (next_pos id o2 d)
      end
  end.

Definition valid_ebml (T : Buffer) : bool :=
  valid_from (S (S (List.length T))) T 0.

(** An in-progress descriptor that the code would promote. *)
Definition promotable (t : Track) : bool :=
  match type t, number t with
  | Some 2, Some _ => true
  | _, _ => false
  end.

(** While no track is resolved, the in-progress descriptor is not promotable:
    a promotable one is promoted in the very call that completes it. *)
Definition tracks_ok (st : state) : Prop :=
  _track st = None -> promotable (_incompleteTrack st) = false.

End WebmWalk.

(** ** Variable-length integers as they are described *)

Module VintDescribed.

(** The description in words: the number of zero bits of the first byte above
    its first set bit, scanning from bit 7 down to bit 0, plus one, is the
    length [L] of the field; the value is the first byte masked by
    [2^(8-L) - 1] followed by the other [L - 1] bytes, big-endian. *)
Fixpoint leading_zeros (n : nat) (bit : Z) (x : Z) : Z :=
  match n with
  | O => 0
  | S n' => if Z.testbit x bit then 0 else 1 + leading_zeros n' (bit - 1) x
  end.

Definition described_length (first : byte) : Z :=
  leading_zeros 8 7 (byteval first) + 1.

Definition big_endian (acc : Z) (bytes : list byte) : Z :=
  fold_left (fun v b => v * 256 + byteval b) bytes acc.

Definition described_value (field : list byte) : Z :=
  match field with
  | [] => 0
  | first :: others =>
      big_endian (Z.land (byteval first) (2 ^ (8 - described_length first) - 1)) others
  end.

End VintDescribed.

(** ** Sample streams *)

Module Samples.

(** A page of two table entries, the second one 255, and 300 bytes after it. *)
Definition open_run_page : Buffer :=
  Buffer_from "OggS" ++ repeat x00 22 ++ [x02; x0a; xff] ++ repeat x2a 300.

(** A comment packet as Opus writes it, and a page of stream 7 that carries it. *)
Definition comment_packet : Buffer := Buffer_from "OpusTags" ++ [x00; x00; x00; x00].

Definition comment_page : Buffer :=
  Buffer_from "OggS" ++ [x00; x00] ++ repeat x00 8 ++ [x00; x00; x00; x07]
  ++ repeat x00 8 ++ [x01; x0c] ++ comment_packet.

Definition head_recorded : OggDemuxer.state :=
  OggDemuxer.mkState None (Some (Buffer_from "OpusHead" ++ repeat x00 11)) (Some 7).

(** A WebM stream: the root tag, a track entry with track number 1 and track
    type 2, and the beginning of an unknown element (id ec) of eight bytes. *)
Definition interrupted_stream : Buffer :=
  [x1a; x45; xdf; xa3; x80] ++ [xae; x86; xd7; x81; x01; x83; x81; x02]
  ++ [xec; x88; x00; x00; x00].

(** The walker after that stream. *)
Definition interrupted : WebmBaseDemuxer.state :=
  WebmBaseDemuxer.mkState
    (Some [xec; x88; x00; x00; x00]) 18 13 (Some (Int 23))
    (Some (WebmBaseDemuxer.mkTrack (Some 1) (Some 2)))
    (WebmBaseDemuxer.mkTrack (Some 1) (Some 2)) true.

(** The payload as the specification lays it out: the signature right after the three
    leading bytes, then headers of 3, 4 and 5 bytes. *)
Definition claimed_payload : Buffer :=
  [x02; x03; x04] ++ Buffer_from "vorbis"
  ++ [x11; x12; x13] ++ [x21; x22; x23; x24] ++ [x31; x32; x33; x34; x35].

(** A size field of five bytes that declares 2^31 bytes, and one of nine bytes
    that starts with a zero byte. *)
Definition size_2_31 : Buffer := [x08; x80; x00; x00; x00].
Definition zero_first : Buffer := [x00; x80; x00; x00; x00; x00; x00; x00; x00].

(** Two track entries: the first of track number 1 and track type 1 (video),
    the second of track type 2 (audio) and track number 2, the type written
    before the number; then one block of track 1 and one block of track 2. *)
Definition two_entries : Buffer :=
  [x1a; x45; xdf; xa3; x80]
  ++ [xae; x86; xd7; x81; x01; x83; x81; x01]
  ++ [xae; x86; x83; x81; x02; xd7; x81; x02]
  ++ [xa3; x85; x81; x00; x00; x00; x2a]
  ++ [xa3; x85; x82; x00; x00; x00; x2b].

(** An Ogg stream of bitstream 7: a page with the head packet, then a page with
    two audio packets of 3 and 2 bytes. *)
Definition ogg_head_page : Buffer :=
  Buffer_from "OggS" ++ [x00; x02] ++ repeat x00 8 ++ [x00; x00; x00; x07]
  ++ repeat x00 8 ++ [x01; x13] ++ Buffer_from "OpusHead" ++ repeat x00 11.

Definition ogg_audio_page : Buffer :=
  Buffer_from "OggS" ++ [x00; x00] ++ repeat x00 8 ++ [x00; x00; x00; x07]
  ++ repeat x00 8 ++ [x02; x03; x02] ++ [x2a; x2b; x2c] ++ [x2d; x2e].

Definition ogg_stream : Buffer := ogg_head_page ++ ogg_audio_page.

(** A WebM stream: the root tag; an unknown element (id ec) of six bytes; a
    segment of unknown size; the tracks with one entry (track number 1, track
    type 2, codec private data "OpusHead"); a cluster of unknown size with a
    block of track 1, an unknown element (id bf) of four bytes, and another
    block of track 1. *)
Definition webm_stream : Buffer :=
  [x1a; x45; xdf; xa3; x80]
  ++ [xec; x86; x00; x00; x00; x00; x00; x00]
  ++ [x18; x53; x80; x67; x01; xff; xff; xff; xff; xff; xff; xff]
  ++ [x16; x54; xae; x6b; x93]
  ++ [xae; x91; xd7; x81; x01; x83; x81; x02; x63; xa2; x88] ++ Buffer_from "OpusHead"
  ++ [x1f; x43; xb6; x75; x01; xff; xff; xff; xff; xff; xff; xff]
  ++ [xa3; x86; x81; x00; x00; x00; x2a; x2b]
  ++ [xbf; x84; x00; x00; x00; x00]
  ++ [xa3; x85; x81; x00; x00; x00; x2c].

(** One byte per call. *)
Definition bytewise (stream : Buffer) : list Buffer := map (fun b => [b]) stream.

(** An Ogg page that declares a payload of ten bytes and brings three. *)
Definition short_page : Buffer :=
  Buffer_from "OggS" ++ repeat x00 22 ++ [x01; x0a] ++ [x2a; x2a; x2a].

(** The root tag and an unknown element whose size field decodes to -1000:
    the walker goes back and re-reads, and stops only when its position has
    come to -17. *)
Definition backward_stream : Buffer :=
  [x1a; x45; xdf; xa3; x80] ++ [xec; x08; xff; xff; xfc; x18].

End Samples.

(** ** What the Ogg page reader hands out *)

Module OggEvents.
Import OggDemuxer.

(** The head recorded and the bitstream pinned. *)
Definition pin (st : state) : option Buffer * option Z := (_head st, _bitstream st).

Definition audio_or_tags (e : event) : Prop :=
  match e with
  | Push _ | Emit_tags _ => True
  | Emit_head _ | Emit_unknownSegment _ => False
  end.

Definition unknown_segment (e : event) : Prop :=
  match e with
  | Emit_unknownSegment _ => True
  | _ => False
  end.

End OggEvents.

(** ** The frames of the Opus encoder *)

Module OpusFrames.
Import OpusStream.

Section Native.

Variable Opus : Type.
Variable encode : Opus -> Buffer -> Opus * option Buffer.

(** [count] frames of [required] bytes of [buffer], from frame [n] on. *)
Fixpoint chop (count : nat) (required : Z) (buffer : Buffer) (n : Z) : list Buffer :=
  match count with
  | O => []
  | S count' =>
      slice buffer (n * required) ((n + 1) * required)
      :: chop count' required buffer (n + 1)
  end.

(** The frames handed to [_encode] one after the other: what is pushed, and
    the stream afterwards unless the encoder threw. *)
Fixpoint encode_each (s : stream Opus) (frames : list Buffer)
  : list event * option (stream Opus) :=
  match frames with
  | [] => ([], Some s)
  | f :: frames' =>
      match _encode Opus encode s f with
      | None => ([], None)
      | Some (s', out) =>
          let '(ev, r) := encode_each s' frames' in (Push out :: ev, r)
      end
  end.

(** The bytes an encoder works on in a call. *)
Definition pending (st : Encoder Opus) (chunk : Buffer) : Buffer :=
  match buffer Opus st with Some b => b ++ chunk | None => chunk end.

End Native.

End OpusFrames.

(** ** The samples of the volume transformer *)

Module VolumeView.
Import Node VolumeTransformer.

(** The value of a sample after it is limited to the range of the type. *)
Definition clamp (t : pcm) (v : double) : double :=
  Math_min (extremum t - 1) (Math_max (- extremum t) v).

(** The integer that is read back from a sample written for [v]: NaN is
    stored as zero bytes. *)
Definition stored (t : pcm) (v : double) : Z :=
  match clamp t v with
  | Fin z => z
  | _ => 0
  end.

End VolumeView.

(** * Properties *)

(** ** Buffers *)

Section BufferFacts.

Lemma byteval_range (b : byte) : 0 <= byteval b <= 255.
Proof.
  unfold byteval. pose proof (Byte.to_N_bounded b). lia.
Qed.

Lemma blength_nonneg (b : Buffer) : 0 <= blength b.
Proof. unfold blength. lia. Qed.

Lemma blength_app (a b : Buffer) : blength (a ++ b) = blength a + blength b.
Proof. unfold blength. rewrite length_app. lia. Qed.

Lemma get_outside (b : Buffer) (i : Z) :
  i < 0 \/ blength b <= i -> get b i = None.
Proof.
  unfold get, blength. intros H.
  destruct (i <? 0) eqn:E; [reflexivity|].
  apply Z.ltb_ge in E. apply nth_error_None. lia.
Qed.

Lemma get_inside (b : Buffer) (i : Z) :
  0 <= i < blength b -> exists x, get b i = Some x.
Proof.
  unfold get, blength. intros H.
  destruct (i <? 0) eqn:E; [apply Z.ltb_lt in E; lia|].
  destruct (nth_error b (Z.to_nat i)) eqn:N; [eauto|].
  apply nth_error_None in N. lia.
Qed.

(** Data appended to a buffer is not seen below the old length. *)
Lemma get_app_l (b more : Buffer) (i : Z) :
  i < blength b -> get (b ++ more) i = get b i.
Proof.
  unfold get, blength. intros H.
  destruct (i <? 0) eqn:E; [reflexivity|].
  apply Z.ltb_ge in E. apply nth_error_app1. lia.
Qed.

Lemma get_app_r (pre b : Buffer) (i : Z) :
  0 <= i -> get (pre ++ b) (blength pre + i) = get b i.
Proof.
  unfold get, blength. intros H.
  destruct (i <? 0) eqn:E; [apply Z.ltb_lt in E; lia|].
  destruct (Z.of_nat (List.length pre) + i <? 0) eqn:E'; [apply Z.ltb_lt in E'; lia|].
  rewrite nth_error_app2 by lia. f_equal. lia.
Qed.

(** Within bounds, [slice] is [firstn] of [skipn]. *)
Lemma slice_inside (b : Buffer) (s e : Z) :
  0 <= s <= e -> e <= blength b ->
  slice b s e = firstn (Z.to_nat (e - s)) (skipn (Z.to_nat s) b).
Proof.
  intros H1 H2. unfold slice, slice_num, adjustOffset.
  assert (Hs : (if s =? 0 then 0
                else if s <? 0 then if 0 <? s + blength b then s + blength b else 0
                else if s <? blength b then s else blength b) = s).
  { destruct (s =? 0) eqn:A; [apply Z.eqb_eq in A; lia|].
    destruct (s <? 0) eqn:B; [apply Z.ltb_lt in B; lia|].
    destruct (s <? blength b) eqn:C; [reflexivity|]. apply Z.ltb_ge in C. lia. }
  assert (He : (if e =? 0 then 0
                else if e <? 0 then if 0 <? e + blength b then e + blength b else 0
                else if e <? blength b then e else blength b) = e).
  { destruct (e =? 0) eqn:A; [apply Z.eqb_eq in A; lia|].
    destruct (e <? 0) eqn:B; [apply Z.ltb_lt in B; lia|].
    destruct (e <? blength b) eqn:C; [reflexivity|]. apply Z.ltb_ge in C. lia. }
  rewrite Hs, He.
  destruct (s <? e) eqn:L; [reflexivity|].
  apply Z.ltb_ge in L. replace (e - s) with 0 by lia. reflexivity.
Qed.

(** [slice] with an end beyond the buffer stops at the end of the buffer. *)
Lemma slice_clamped (b : Buffer) (s e : Z) :
  0 <= s <= blength b -> blength b <= e ->
  slice b s e = skipn (Z.to_nat s) b.
Proof.
  intros H1 H2. unfold slice, slice_num, adjustOffset.
  assert (Hs : (if s =? 0 then 0
                else if s <? 0 then if 0 <? s + blength b then s + blength b else 0
                else if s <? blength b then s else blength b) = s).
  { destruct (s =? 0) eqn:A; [apply Z.eqb_eq in A; lia|].
    destruct (s <? 0) eqn:B; [apply Z.ltb_lt in B; lia|].
    destruct (s <? blength b) eqn:C; [reflexivity|]. apply Z.ltb_ge in C. lia. }
  assert (He : (if e =? 0 then 0
                else if e <? 0 then if 0 <? e + blength b then e + blength b else 0
                else if e <? blength b then e else blength b) = blength b).
  { destruct (e =? 0) eqn:A; [apply Z.eqb_eq in A; lia|].
    destruct (e <? 0) eqn:B; [apply Z.ltb_lt in B; lia|].
    destruct (e <? blength b) eqn:C; [apply Z.ltb_lt in C; lia|reflexivity]. }
  rewrite Hs, He.
  destruct (s <? blength b) eqn:L.
  - apply firstn_all2. rewrite length_skipn. unfold blength. lia.
  - apply Z.ltb_ge in L. simpl.
    symmetry. apply length_zero_iff_nil. rewrite length_skipn.
    unfold blength in *. lia.
Qed.

Lemma slice_from_inside (b : Buffer) (s : Z) :
  0 <= s <= blength b -> slice_from b s = skipn (Z.to_nat s) b.
Proof.
  intros H. unfold slice_from. apply slice_clamped; lia.
Qed.

Lemma slice_from_0 (b : Buffer) : slice_from b 0 = b.
Proof.
  rewrite slice_from_inside by (pose proof (blength_nonneg b); lia). reflexivity.
Qed.

(** A slice that lies inside a buffer is not changed by appended data. *)
Lemma slice_app_l (b more : Buffer) (s e : Z) :
  0 <= s <= e -> e <= blength b ->
  slice (b ++ more) s e = slice b s e.
Proof.
  intros H1 H2.
  rewrite !slice_inside by (rewrite ?blength_app; pose proof (blength_nonneg more); lia).
  unfold blength in H2.
  rewrite skipn_app, firstn_app, length_skipn.
  replace (Z.to_nat (e - s) - (List.length b - Z.to_nat s))%nat with 0%nat by lia.
  rewrite firstn_O, app_nil_r. reflexivity.
Qed.

Lemma slice_from_app (b more : Buffer) (s : Z) :
  0 <= s <= blength b -> slice_from (b ++ more) s = slice_from b s ++ more.
Proof.
  intros H.
  rewrite !slice_from_inside by (rewrite ?blength_app; pose proof (blength_nonneg more); lia).
  rewrite skipn_app. unfold blength in H.
  replace (Z.to_nat s - List.length b)%nat with 0%nat by lia. reflexivity.
Qed.

Lemma blength_slice_from (b : Buffer) (s : Z) :
  0 <= s <= blength b -> blength (slice_from b s) = blength b - s.
Proof.
  intros H. rewrite slice_from_inside by lia.
  unfold blength in *. rewrite length_skipn. lia.
Qed.

Lemma blength_slice (b : Buffer) (s e : Z) :
  0 <= s <= e -> e <= blength b -> blength (slice b s e) = e - s.
Proof.
  intros H1 H2. rewrite slice_inside by lia.
  unfold blength in *. rewrite length_firstn, length_skipn. lia.
Qed.

Lemma equals_eq (a b : Buffer) : equals a b = true <-> a = b.
Proof.
  revert b. induction a as [|x a IH]; intros [|y b]; simpl; split; intros H;
    try reflexivity; try discriminate.
  - apply andb_true_iff in H. destruct H as [H1 H2].
    apply Byte.byte_dec_bl in H1. apply IH in H2. congruence.
  - inversion H; subst. apply andb_true_iff. split.
    + now apply Byte.byte_dec_lb.
    + now apply IH.
Qed.

Lemma equals_refl (a : Buffer) : equals a a = true.
Proof. now apply equals_eq. Qed.

End BufferFacts.

(** ** Variable-length integers *)

Module VintFacts.
Import WebmBaseDemuxer.

Lemma vint_scan_bounds (n : nat) (i : Z) (x : option byte) :
  i <= vint_scan n i x <= i + Z.of_nat n.
Proof.
  revert i. induction n as [|n IH]; intros i; simpl vint_scan.
  - lia.
  - destruct (negb _).
    + lia.
    + specialize (IH (i + 1)). lia.
Qed.

Lemma vintLength_Some (buffer : Buffer) (index L : Z) :
  vintLength buffer index = Some L ->
  L = vint_scan 8 0 (get buffer index) + 1 /\ 1 <= L <= 9 /\ index + L <= blength buffer.
Proof.
  unfold vintLength.
  pose proof (vint_scan_bounds 8 0 (get buffer index)) as B.
  change (Z.of_nat 8) with 8 in B.
  remember (vint_scan 8 0 (get buffer index)) as k eqn:Hk. clear Hk.
  intros H.
  destruct (blength buffer <? index + (k + 1)) eqn:E; [discriminate|].
  apply Z.ltb_ge in E. assert (L = k + 1) by congruence. lia.
Qed.

Lemma vintLength_None (buffer : Buffer) (index : Z) :
  vintLength buffer index = None <->
  blength buffer < index + (vint_scan 8 0 (get buffer index) + 1).
Proof.
  unfold vintLength.
  destruct (blength buffer <? _) eqn:E.
  - apply Z.ltb_lt in E. tauto.
  - apply Z.ltb_ge in E. split; [discriminate|lia].
Qed.

(** Past the end of the buffer there is no vint. *)
Lemma vintLength_at_end (buffer : Buffer) (index : Z) :
  blength buffer <= index -> vintLength buffer index = None.
Proof.
  intros H. apply vintLength_None.
  pose proof (vint_scan_bounds 8 0 (get buffer index)). lia.
Qed.

Lemma vintLength_app (buffer more : Buffer) (index L : Z) :
  vintLength buffer index = Some L ->
  vintLength (buffer ++ more) index = Some L.
Proof.
  intros H. destruct (vintLength_Some _ _ _ H) as (HL & Hr & Hle).
  unfold vintLength. rewrite get_app_l by lia. rewrite <- HL.
  rewrite blength_app. pose proof (blength_nonneg more).
  destruct (_ <? _) eqn:E; [apply Z.ltb_lt in E; lia|reflexivity].
Qed.

Lemma expand_loop_app (buffer more : Buffer) (n : nat) (i : Z) (v : num) :
  (n = 0%nat \/ i + Z.of_nat n <= blength buffer) ->
  expand_loop (buffer ++ more) n i v = expand_loop buffer n i v.
Proof.
  revert i v. induction n as [|n IH]; intros i v H; simpl.
  - reflexivity.
  - destruct H as [H|H]; [discriminate|].
    rewrite get_app_l by lia. apply IH. right. lia.
Qed.

Lemma expandVint_Some (buffer : Buffer) (start end_ : Z) (v : num) :
  expandVint buffer start end_ = Some v ->
  end_ <= blength buffer /\ exists L, vintLength buffer start = Some L.
Proof.
  unfold expandVint. intros H.
  destruct (vintLength buffer start) as [L|]; [|discriminate].
  destruct (blength buffer <? end_) eqn:E; [discriminate|].
  apply Z.ltb_ge in E. eauto.
Qed.

Lemma expandVint_None (buffer : Buffer) (start end_ : Z) :
  expandVint buffer start end_ = None <->
  blength buffer < end_ \/ vintLength buffer start = None.
Proof.
  unfold expandVint.
  destruct (vintLength buffer start) as [L|].
  - destruct (blength buffer <? end_) eqn:E.
    + apply Z.ltb_lt in E. tauto.
    + apply Z.ltb_ge in E. split; [discriminate|]. intros [H|H]; [lia|discriminate].
  - tauto.
Qed.

Lemma expandVint_app (buffer more : Buffer) (start end_ : Z) (v : num) :
  expandVint buffer start end_ = Some v ->
  expandVint (buffer ++ more) start end_ = Some v.
Proof.
  intros H. destruct (expandVint_Some _ _ _ _ H) as (He & L & HL).
  destruct (vintLength_Some _ _ _ HL) as (_ & Hr & Hle).
  revert H. unfold expandVint.
  rewrite (vintLength_app _ more _ _ HL), HL.
  rewrite blength_app. pose proof (blength_nonneg more).
  destruct (blength buffer <? end_) eqn:E; [discriminate|].
  apply Z.ltb_ge in E.
  destruct (blength buffer + blength more <? end_) eqn:E'; [apply Z.ltb_lt in E'; lia|].
  rewrite get_app_l by lia.
  assert (Hn : Z.to_nat (end_ - (start + 1)) = 0%nat \/
               start + 1 + Z.of_nat (Z.to_nat (end_ - (start + 1))) <= blength buffer).
  { destruct (Z.to_nat (end_ - (start + 1))) eqn:N; [left; reflexivity|right; lia]. }
  rewrite (expand_loop_app _ more _ _ _ Hn). auto.
Qed.

(** Read at a non-negative index, every byte is inside the buffer: an integer
    comes out, never NaN. *)
Lemma expand_loop_Int (b : Buffer) (n : nat) :
  forall i v, 0 <= i -> i + Z.of_nat n <= blength b ->
    exists z, expand_loop b n i (Int v) = Int z.
Proof.
  induction n as [|n IH]; intros i v H1 H2; simpl; [eauto|].
  destruct (get_inside b i ltac:(lia)) as [x ->]. simpl.
  apply IH; lia.
Qed.

Lemma expandVint_Int (b : Buffer) (s e : Z) (v : num) :
  0 <= s -> expandVint b s e = Some v -> exists z, v = Int z.
Proof.
  intros Hs H. destruct (expandVint_Some _ _ _ _ H) as (He & L & HL).
  revert H. unfold expandVint. rewrite HL.
  destruct (blength b <? e); [discriminate|]. intros H. injection H as <-.
  destruct (Z.to_nat (e - (s + 1))) eqn:N.
  - simpl. eauto.
  - apply expand_loop_Int; lia.
Qed.

End VintFacts.

(** At a negative index [buffer[index]] is [undefined]; [vintLength] takes it
    for a zero byte and returns the length 9, and [expandVint] goes on to add
    [undefined] to its value: both results are numeric to the caller, and no
    byte of the buffer went into them. *)
Lemma vint_length_of_a_negative_index :
  get [x81; x82; x83] (-20) = None /\
  WebmBaseDemuxer.vintLength [x81; x82; x83] (-20) = Some 9 /\
  WebmBaseDemuxer.expandVint [x81; x82; x83] (-20) (-11) = Some NaN /\
  ~ (forall (buffer : Buffer) (index L : Z),
       WebmBaseDemuxer.vintLength buffer index = Some L ->
       exists first, get buffer index = Some first).
Proof.
  split; [reflexivity|]. split; [reflexivity|]. split; [reflexivity|].
  intros H. destruct (H [x81; x82; x83] (-20) 9 eq_refl) as [first F].
  discriminate F.
Qed.

(** C10, for an index that is not negative.  [vintLength] returns a length [L]
    only when [index + L] is at most the length of the buffer, and then the
    byte at [index] is a byte of the buffer and [L] is read off that byte;
    [expandVint] returns a result only when [end] is at most the length of the
    buffer, and the result is then an integer, not NaN.  In the other cases
    ([index + L] beyond the buffer; [end] beyond the buffer, or no length for
    the first byte) the result is [TOO_SHORT].  A numeric result is derived
    from the bytes of the buffer alone: data appended to the buffer never
    changes it. *)
Theorem vint_results_stay_inside_buffer (buffer : Buffer) (index end_ : Z) :
  0 <= index ->
  (forall L, WebmBaseDemuxer.vintLength buffer index = Some L ->
             index + L <= blength buffer /\
             exists first, get buffer index = Some first /\
                           L = WebmBaseDemuxer.vint_scan 8 0 (Some first) + 1) /\
  (forall v, WebmBaseDemuxer.expandVint buffer index end_ = Some v ->
             end_ <= blength buffer /\ exists z, v = Int z) /\
  (WebmBaseDemuxer.vintLength buffer index = None <->
   blength buffer < index + (WebmBaseDemuxer.vint_scan 8 0 (get buffer index) + 1)) /\
  (WebmBaseDemuxer.expandVint buffer index end_ = None <->
   blength buffer < end_ \/ WebmBaseDemuxer.vintLength buffer index = None) /\
  (forall L more, WebmBaseDemuxer.vintLength buffer index = Some L ->
                  WebmBaseDemuxer.vintLength (buffer ++ more) index = Some L) /\
  (forall v more, WebmBaseDemuxer.expandVint buffer index end_ = Some v ->
                  WebmBaseDemuxer.expandVint (buffer ++ more) index end_ = Some v).
Proof.
  intros Hi.
  split; [|split; [|split; [|split; [|split]]]].
  - intros L H. destruct (VintFacts.vintLength_Some _ _ _ H) as (HL & Hr & Hle).
    split; [exact Hle|].
    destruct (get_inside buffer index ltac:(lia)) as [first F].
    exists first. split; [exact F|]. now rewrite <- F.
  - intros v H. split.
    + now apply VintFacts.expandVint_Some in H.
    + now apply (VintFacts.expandVint_Int buffer index end_).
  - apply VintFacts.vintLength_None.
  - apply VintFacts.expandVint_None.
  - intros L more H. now apply VintFacts.vintLength_app.
  - intros v more H. now apply VintFacts.expandVint_app.
Qed.

Lemma vint_results_stay_inside_buffer_witness :
  0 <= 0 /\
  (0 + 2 <= blength [x41; x02] /\
   exists first, get [x41; x02] 0 = Some first /\
                 2 = WebmBaseDemuxer.vint_scan 8 0 (Some first) + 1) /\
  (2 <= blength [x41; x02] /\ exists z, Int 258 = Int z) /\
  WebmBaseDemuxer.vintLength ([x41; x02] ++ [xff]) 0 = Some 2 /\
  WebmBaseDemuxer.expandVint ([x41; x02] ++ [xff]) 0 2 = Some (Int 258).
Proof.
  assert (H0 : 0 <= 0) by lia.
  pose proof (vint_results_stay_inside_buffer [x41; x02] 0 2 H0)
    as (H1 & H2 & _ & _ & H5 & H6).
  split; [exact H0|].
  split; [apply (H1 2); reflexivity|].
  split; [apply (H2 (Int 258)); reflexivity|].
  split; [apply (H5 2 [xff]); reflexivity|].
  apply (H6 (Int 258) [xff]); reflexivity.
Defined.

(** ** The Ogg page reader: one page *)

Module OggFacts.
Import OggDemuxer OggView.

Lemma readUInt8_app (b more : Buffer) (i : Z) :
  i < blength b -> readUInt8 (b ++ more) i = readUInt8 b i.
Proof. intros H. unfold readUInt8. now rewrite get_app_l. Qed.

Lemma readUInt8_range (b : Buffer) (i v : Z) :
  readUInt8 b i = Some v -> 0 <= v <= 255.
Proof.
  unfold readUInt8. destruct (get b i); simpl; [|discriminate].
  intros H. injection H as <-. apply byteval_range.
Qed.

Lemma readUInt32BE_app (b more : Buffer) (i : Z) :
  i + 3 < blength b -> readUInt32BE (b ++ more) i = readUInt32BE b i.
Proof.
  intros H. unfold readUInt32BE. now rewrite !get_app_l by lia.
Qed.

Lemma lacing_nonneg (table : list byte) :
  forall cur sizes,
    match cur with Some s => 0 <= s | None => True end ->
    lacing table cur = Some sizes -> Forall (fun s => 0 <= s) sizes.
Proof.
  induction table as [|x table IH]; intros cur sizes Hc H; simpl in H.
  - destruct cur; [discriminate|]. injection H as <-. constructor.
  - pose proof (byteval_range x) as Hx.
    assert (Hs : 0 <= match cur with None => 0 | Some s => s end + byteval x)
      by (destruct cur; lia).
    destruct (byteval x =? 255).
    + eapply IH; [|exact H]. exact Hs.
    + destruct (lacing table None) as [l|] eqn:E; [|discriminate].
      simpl in H. injection H as <-. constructor; [exact Hs|].
      eapply IH; [|exact E]. exact I.
Qed.

(** A table whose last entry is 255 leaves a lacing run open. *)
Lemma lacing_open_run (table : list byte) :
  forall cur, lacing (table ++ [xff]) cur = None.
Proof.
  induction table as [|x table IH]; intros cur; simpl.
  - reflexivity.
  - destruct (byteval x =? 255); [apply IH|]. now rewrite IH.
Qed.

(** A run of [k] entries 255 closed by an entry below 255 is one segment. *)
Lemma lacing_run (k : nat) (x : byte) :
  byteval x <> 255 ->
  forall cur,
    lacing (repeat xff k ++ [x]) cur
    = Some [match cur with None => 0 | Some s => s end + 255 * Z.of_nat k + byteval x].
Proof.
  intros Hx. apply Z.eqb_neq in Hx.
  induction k as [|k IH]; intros cur.
  - cbn [repeat app lacing]. rewrite Hx. cbn [option_map].
    do 2 f_equal. lia.
  - cbn [repeat app lacing]. change (byteval xff) with 255.
    rewrite Z.eqb_refl, IH. do 2 f_equal. destruct cur; lia.
Qed.

Lemma totalSize_nonneg (sizes : list Z) :
  Forall (fun s => 0 <= s) sizes -> 0 <= totalSize sizes.
Proof.
  unfold totalSize. induction 1 as [|s sizes Hs _ IH]; simpl; lia.
Qed.

(** The segments of a page lie inside the page: data after the page does not
    change them, and the cursor ends right after the payload. *)
Lemma segments_app (chunk more : Buffer) (bitstream : Z) (sizes : list Z) :
  forall start st,
    Forall (fun s => 0 <= s) sizes -> 0 <= start ->
    start + totalSize sizes <= blength chunk ->
    segments (chunk ++ more) bitstream sizes start st
    = segments chunk bitstream sizes start st /\
    snd (segments chunk bitstream sizes start st) = start + totalSize sizes.
Proof.
  induction sizes as [|size sizes IH]; intros start st Hnn Hs Hle.
  - simpl. split; [reflexivity|lia].
  - inversion Hnn as [|? ? Hsize Hrest]; subst.
    pose proof (totalSize_nonneg _ Hrest) as Ht.
    simpl in Hle. fold (totalSize sizes) in Hle.
    simpl segments.
    rewrite slice_app_l by lia.
    destruct (route st bitstream (slice chunk start (start + size))) as [st1 ev1].
    destruct (IH (start + size) st1 Hrest ltac:(lia) ltac:(lia)) as [E1 E2].
    rewrite E1.
    destruct (segments chunk bitstream sizes (start + size) st1) as [[st2 ev2] start2].
    simpl in *. split; [reflexivity|]. fold (totalSize sizes). lia.
Qed.

Lemma readPage_Rest_inv (st : state) (chunk : Buffer) st' events rest :
  _readPage st chunk = Rest st' events rest ->
  exists pageSegments bitstream sizes,
    page_read st chunk st' events rest pageSegments bitstream sizes.
Proof.
  unfold _readPage, OGG_PAGE_HEADER_SIZE, STREAM_STRUCTURE_VERSION.
  destruct (blength chunk <? 26) eqn:E1; [discriminate|].
  destruct (equals (slice chunk 0 4) OGGS_HEADER) eqn:E2; [|discriminate]. cbn [negb].
  destruct (readUInt8 chunk 4) as [version|] eqn:E3; [|discriminate].
  destruct (version =? 0) eqn:E4; [|discriminate]. cbn [negb].
  destruct (blength chunk <? 27) eqn:E5; [discriminate|].
  destruct (readUInt8 chunk 26) as [n|] eqn:E6; [|discriminate].
  destruct (blength chunk <? 27 + n) eqn:E7; [discriminate|].
  destruct (readUInt32BE chunk 14) as [bs|] eqn:E8; [|discriminate].
  destruct (lacing (slice chunk 27 (27 + n)) None) as [sizes|] eqn:E9; [|discriminate].
  destruct (blength chunk <? 27 + n + totalSize sizes) eqn:E10; [discriminate|].
  apply Z.ltb_ge in E5, E7, E10. apply Z.eqb_eq in E4. subst version.
  pose proof (readUInt8_range _ _ _ E6) as Hn.
  pose proof (lacing_nonneg _ None _ I E9) as Hnn.
  destruct (segments_app chunk [] bs sizes (27 + n) st Hnn ltac:(lia) E10) as [_ Hend].
  destruct (segments chunk bs sizes (27 + n) st) as [[st1 ev1] start] eqn:E11.
  simpl in Hend. subst start.
  intros H. injection H as <- <- <-.
  exists n, bs, sizes. constructor; try lia; auto.
  rewrite E11. reflexivity.
Qed.

Lemma readPage_Rest_intro (st : state) (chunk : Buffer) st' events rest n bs sizes :
  page_read st chunk st' events rest n bs sizes ->
  _readPage st chunk = Rest st' events rest.
Proof.
  intros [H1 H2 H3 H4 H5 H6 H7 H8 H9 H10].
  unfold _readPage, OGG_PAGE_HEADER_SIZE, STREAM_STRUCTURE_VERSION.
  destruct (blength chunk <? 26) eqn:E1; [apply Z.ltb_lt in E1; lia|].
  rewrite H2, H3. cbn [negb Z.eqb].
  destruct (blength chunk <? 27) eqn:E5; [apply Z.ltb_lt in E5; lia|].
  rewrite H4.
  destruct (blength chunk <? 27 + n) eqn:E7; [apply Z.ltb_lt in E7; lia|].
  rewrite H6, H7.
  destruct (blength chunk <? 27 + n + totalSize sizes) eqn:E10;
    [apply Z.ltb_lt in E10; lia|].
  pose proof (readUInt8_range _ _ _ H4) as Hn.
  pose proof (lacing_nonneg _ None _ I H7) as Hnn.
  destruct (segments_app chunk [] bs sizes (27 + n) st Hnn ltac:(lia) H8) as [_ Hend].
  destruct (segments chunk bs sizes (27 + n) st) as [[st1 ev1] start] eqn:E11.
  simpl in *. subst start. injection H9 as <- <-. now subst rest.
Qed.

(** A page that was read is read in the same way when more data follows it. *)
Lemma readPage_Rest_app (st : state) (chunk more : Buffer) st' events rest :
  _readPage st chunk = Rest st' events rest ->
  _readPage st (chunk ++ more) = Rest st' events (rest ++ more).
Proof.
  intros H. apply readPage_Rest_inv in H. destruct H as (n & bs & sizes & P).
  destruct P as [H1 H2 H3 H4 H5 H6 H7 H8 H9 H10].
  pose proof (readUInt8_range _ _ _ H4) as Hn.
  pose proof (lacing_nonneg _ None _ I H7) as Hnn.
  pose proof (totalSize_nonneg _ Hnn) as Ht.
  pose proof (blength_nonneg more) as Hm.
  destruct (segments_app chunk more bs sizes (27 + n) st Hnn ltac:(lia) H8) as [Hseg _].
  apply (readPage_Rest_intro _ _ _ _ _ n bs sizes).
  constructor; rewrite ?blength_app; try lia.
  - rewrite slice_app_l by lia. exact H2.
  - rewrite readUInt8_app by lia. exact H3.
  - rewrite readUInt8_app by lia. exact H4.
  - rewrite readUInt32BE_app by lia. exact H6.
  - rewrite slice_app_l by lia. exact H7.
  - rewrite Hseg. exact H9.
  - subst rest. rewrite slice_from_app by lia. reflexivity.
Qed.

Lemma readPage_Rest_shorter (st : state) (chunk : Buffer) st' events rest :
  _readPage st chunk = Rest st' events rest ->
  blength rest + 27 <= blength chunk.
Proof.
  intros H. apply readPage_Rest_inv in H. destruct H as (n & bs & sizes & P).
  destruct P as [H1 H2 H3 H4 H5 H6 H7 H8 H9 H10].
  pose proof (readUInt8_range _ _ _ H4) as Hn.
  pose proof (totalSize_nonneg _ (lacing_nonneg _ None _ I H7)) as Ht.
  subst rest. rewrite blength_slice_from by lia. lia.
Qed.

(** An exception is decided by the first 26 bytes. *)
Lemma readPage_Threw_app (st : state) (chunk more : Buffer) e :
  _readPage st chunk = Threw e -> _readPage st (chunk ++ more) = Threw e.
Proof.
  unfold _readPage, OGG_PAGE_HEADER_SIZE, STREAM_STRUCTURE_VERSION.
  pose proof (blength_nonneg more) as Hm. rewrite blength_app.
  destruct (blength chunk <? 26) eqn:E1; [discriminate|]. apply Z.ltb_ge in E1.
  destruct (blength chunk + blength more <? 26) eqn:E1'; [apply Z.ltb_lt in E1'; lia|].
  rewrite slice_app_l by lia. rewrite readUInt8_app by lia.
  destruct (equals (slice chunk 0 4) OGGS_HEADER) eqn:E2; [|auto]. cbn [negb].
  destruct (readUInt8 chunk 4) as [version|] eqn:E3; [|auto].
  destruct (version =? 0) eqn:E4; [|auto]. cbn [negb].
  destruct (blength chunk <? 27) eqn:E5; [discriminate|]. apply Z.ltb_ge in E5.
  destruct (blength chunk + blength more <? 27) eqn:E5'; [apply Z.ltb_lt in E5'; lia|].
  rewrite readUInt8_app by lia.
  destruct (readUInt8 chunk 26) as [n|] eqn:E6; [|auto].
  destruct (blength chunk <? 27 + n) eqn:E7; [discriminate|]. apply Z.ltb_ge in E7.
  destruct (blength chunk + blength more <? 27 + n) eqn:E7'; [apply Z.ltb_lt in E7'; lia|].
  pose proof (readUInt8_range _ _ _ E6) as Hn.
  rewrite readUInt32BE_app by lia. rewrite slice_app_l by lia.
  destruct (readUInt32BE chunk 14) as [bs|] eqn:E8; [|auto].
  destruct (lacing (slice chunk 27 (27 + n)) None) as [sizes|] eqn:E9; [|discriminate].
  destruct (blength chunk <? 27 + n + totalSize sizes) eqn:E10; [discriminate|].
  destruct (segments chunk bs sizes (27 + n) st) as [[st1 ev1] start]. discriminate.
Qed.

(** With 27 bytes or more in the buffer, the reads of the header succeed. *)
Lemma readPage_no_RangeError (st : state) (chunk : Buffer) :
  _readPage st chunk <> Threw RangeError.
Proof.
  unfold _readPage, OGG_PAGE_HEADER_SIZE, STREAM_STRUCTURE_VERSION.
  destruct (blength chunk <? 26) eqn:E1; [discriminate|]. apply Z.ltb_ge in E1.
  destruct (equals (slice chunk 0 4) OGGS_HEADER) eqn:E2; [|discriminate]. cbn [negb].
  unfold readUInt8, readUInt32BE.
  destruct (get_inside chunk 4 ltac:(lia)) as [v4 ->]. cbn [option_map].
  destruct (byteval v4 =? 0); [|discriminate]. cbn [negb].
  destruct (blength chunk <? 27) eqn:E5; [discriminate|]. apply Z.ltb_ge in E5.
  destruct (get_inside chunk 26 ltac:(lia)) as [v26 ->]. cbn [option_map].
  destruct (blength chunk <? 27 + byteval v26) eqn:E7; [discriminate|].
  destruct (get_inside chunk 14 ltac:(lia)) as [a ->].
  destruct (get_inside chunk (14 + 1) ltac:(lia)) as [b ->].
  destruct (get_inside chunk (14 + 2) ltac:(lia)) as [c ->].
  destruct (get_inside chunk (14 + 3) ltac:(lia)) as [d ->].
  destruct (lacing (slice chunk 27 (27 + byteval v26)) None) as [sizes|];
    [|discriminate].
  destruct (blength chunk <? 27 + byteval v26 + totalSize sizes); [discriminate|].
  match goal with
  | |- context [segments ?c ?b ?s ?o ?t] =>
      destruct (segments c b s o t) as [[st1 ev1] start]
  end.
  discriminate.
Qed.

End OggFacts.

(** ** The Ogg page reader: a whole call, and a sequence of calls *)

Module OggStream.
Import OggDemuxer OggView OggFacts.

Lemma transform_unfold (st : state) (chunk : Buffer) :
  _transform st chunk
  = pages (S (List.length (pending st chunk))) (cleared st) (pending st chunk) [].
Proof. reflexivity. Qed.

Lemma route_remainder st bitstream segment st' ev :
  route st bitstream segment = (st', ev) -> _remainder st' = _remainder st.
Proof.
  unfold route. intros H.
  destruct (_head st);
    repeat match type of H with
           | (if ?c then _ else _) = _ => destruct c
           end; injection H as <- <-; reflexivity.
Qed.

Lemma segments_remainder chunk bitstream sizes :
  forall start st, _remainder (fst (fst (segments chunk bitstream sizes start st)))
                   = _remainder st.
Proof.
  induction sizes as [|size sizes IH]; intros start st; simpl; [reflexivity|].
  destruct (route st bitstream (slice chunk start (start + size))) as [st1 ev1] eqn:R.
  specialize (IH (start + size) st1).
  destruct (segments chunk bitstream sizes (start + size) st1) as [[st2 ev2] s2].
  simpl in *. rewrite IH. eapply route_remainder; eauto.
Qed.

Lemma readPage_remainder st chunk st' events rest :
  _readPage st chunk = Rest st' events rest -> _remainder st' = _remainder st.
Proof.
  intros H. apply readPage_Rest_inv in H. destruct H as (n & bs & sizes & P).
  pose proof (pr_segments _ _ _ _ _ _ _ _ P) as E.
  pose proof (segments_remainder chunk bs sizes (27 + n) st) as R.
  rewrite E in R. exact R.
Qed.

(** More fuel does not change a result. *)
Lemma pages_more_fuel (fuel : nat) :
  forall fuel' st chunk acc r,
    pages fuel st chunk acc = Some r -> (fuel <= fuel')%nat ->
    pages fuel' st chunk acc = Some r.
Proof.
  induction fuel as [|fuel IH]; intros fuel' st chunk acc r H Hle; [discriminate|].
  destruct fuel' as [|fuel']; [lia|]. simpl in *.
  destruct (_readPage st chunk); auto. apply IH; [exact H|lia].
Qed.

(** The loop of [_transform] always ends: fuel above the length of the chunk
    is enough. *)
Lemma pages_total (fuel : nat) :
  forall st chunk acc,
    (List.length chunk < fuel)%nat -> exists r, pages fuel st chunk acc = Some r.
Proof.
  induction fuel as [|fuel IH]; intros st chunk acc H; [lia|]. simpl.
  destruct (_readPage st chunk) as [e| |st' events rest] eqn:E; eauto.
  apply IH. apply readPage_Rest_shorter in E. unfold blength in E. lia.
Qed.

(** Reading [b ++ c] begins with the pages of [b]. *)
Lemma pages_app (fuel : nat) :
  forall st b acc c,
    match pages fuel st b acc with
    | None => True
    | Some (ev, Crashed e) =>
        forall fuel2, pages (fuel + fuel2) st (b ++ c) acc = Some (ev, Crashed e)
    | Some (ev, Running st1) =>
        exists st_k r,
          st1 = mkState (Some r) (_head st_k) (_bitstream st_k) /\
          _remainder st_k = _remainder st /\
          forall fuel2 r2,
            pages fuel2 st_k (r ++ c) ev = Some r2 ->
            pages (fuel + fuel2) st (b ++ c) acc = Some r2
    end.
Proof.
  induction fuel as [|fuel IH]; intros st b acc c; [exact I|].
  cbn [pages].
  destruct (_readPage st b) as [e| |st' events rest] eqn:E.
  - intros fuel2. cbn [Nat.add pages].
    now rewrite (readPage_Threw_app _ _ c _ E).
  - exists st, b. repeat split.
    intros fuel2 r2 H. eapply pages_more_fuel; [exact H|lia].
  - specialize (IH st' rest (acc ++ events) c).
    pose proof (readPage_Rest_app _ _ c _ _ _ E) as E'.
    pose proof (readPage_remainder _ _ _ _ _ E) as R.
    destruct (pages fuel st' rest (acc ++ events)) as [[ev [st1|e]]|]; [| |exact I].
    + destruct IH as (st_k & r & H1 & H2 & H3).
      exists st_k, r. repeat split; [exact H1|congruence|].
      intros fuel2 r2 H. cbn [Nat.add pages]. rewrite E'. now apply H3.
    + intros fuel2. cbn [Nat.add pages]. rewrite E'. apply IH.
Qed.

(** The events already emitted only prefix the result. *)
Lemma pages_acc (fuel : nat) :
  forall st chunk acc,
    pages fuel st chunk acc
    = match pages fuel st chunk [] with
      | Some (ev, s) => Some (acc ++ ev, s)
      | None => None
      end.
Proof.
  induction fuel as [|fuel IH]; intros st chunk acc; [reflexivity|]. simpl.
  destruct (_readPage st chunk) as [e| |st' events rest].
  - now rewrite app_nil_r.
  - now rewrite app_nil_r.
  - rewrite (IH st' rest (acc ++ events)), (IH st' rest events).
    destruct (pages fuel st' rest []) as [[ev s]|]; [|reflexivity].
    now rewrite app_assoc.
Qed.

Lemma transform_total (st : state) (chunk : Buffer) :
  exists r, _transform st chunk = Some r.
Proof. rewrite transform_unfold. apply pages_total. lia. Qed.

(** Two calls in a row do what one call on the two chunks together does. *)
Lemma transform_app (st : state) (a b : Buffer) ev1 st1 r2 :
  _transform st a = Some (ev1, Running st1) ->
  _transform st1 b = Some r2 ->
  _transform st (a ++ b) = Some (ev1 ++ fst r2, snd r2).
Proof.
  intros H1 H2.
  assert (P : pending st (a ++ b) = pending st a ++ b).
  { unfold pending. destruct (_remainder st); [now rewrite app_assoc|reflexivity]. }
  rewrite transform_unfold in H1.
  pose proof (pages_app (S (List.length (pending st a))) (cleared st) (pending st a) [] b) as A.
  rewrite H1 in A. destruct A as (st_k & rem & -> & R & A).
  rewrite transform_unfold in H2. unfold pending, cleared in H2.
  cbn [_remainder _head _bitstream] in H2.
  assert (K : mkState None (_head st_k) (_bitstream st_k) = st_k).
  { destruct st_k as [rm h bs]. simpl in R. now subst rm. }
  rewrite K in H2. destruct r2 as [ev2 s2].
  assert (H2' : pages (S (List.length (rem ++ b))) st_k (rem ++ b) ev1
                = Some (ev1 ++ ev2, s2)) by (now rewrite pages_acc, H2).
  apply A in H2'.
  destruct (transform_total st (a ++ b)) as [res Hr].
  rewrite Hr. rewrite transform_unfold, P in Hr.
  eapply pages_more_fuel in Hr; [|apply Nat.le_max_l].
  eapply pages_more_fuel in H2'; [|apply Nat.le_max_r].
  rewrite Hr in H2'. exact H2'.
Qed.

Lemma transform_app_crashed (st : state) (a b : Buffer) ev1 e :
  _transform st a = Some (ev1, Crashed e) ->
  _transform st (a ++ b) = Some (ev1, Crashed e).
Proof.
  intros H1.
  assert (P : pending st (a ++ b) = pending st a ++ b).
  { unfold pending. destruct (_remainder st); [now rewrite app_assoc|reflexivity]. }
  rewrite transform_unfold in H1.
  pose proof (pages_app (S (List.length (pending st a))) (cleared st) (pending st a) [] b) as A.
  rewrite H1 in A.
  destruct (transform_total st (a ++ b)) as [r Hr].
  rewrite Hr. rewrite transform_unfold, P in Hr.
  specialize (A (S (List.length (pending st a ++ b)))).
  eapply pages_more_fuel in Hr; [|apply Nat.le_max_l].
  eapply pages_more_fuel in A; [|apply Nat.le_max_r].
  rewrite Hr in A. exact A.
Qed.

(** Feeding chunk by chunk is feeding the concatenation at once. *)
Lemma feed_concat (chunks : list Buffer) :
  forall st c, feed st (c :: chunks) = _transform st (List.concat (c :: chunks)).
Proof.
  induction chunks as [|c' chunks IH]; intros st c.
  - cbn [feed List.concat]. rewrite app_nil_r.
    destruct (_transform st c) as [[ev [st1|e]]|]; [|reflexivity|reflexivity].
    now rewrite app_nil_r.
  - change (feed st (c :: c' :: chunks))
      with (match _transform st c with
            | None => None
            | Some (ev, Crashed e) => Some (ev, Crashed e)
            | Some (ev, Running st') =>
                match feed st' (c' :: chunks) with
                | None => None
                | Some (ev', s) => Some (ev ++ ev', s)
                end
            end).
    change (List.concat (c :: c' :: chunks)) with (c ++ List.concat (c' :: chunks)).
    destruct (transform_total st c) as [[ev1 [st1|e]] H1]; rewrite H1.
    + rewrite IH.
      destruct (transform_total st1 (List.concat (c' :: chunks))) as [[ev2 s2] H2].
      rewrite H2. now rewrite (transform_app _ _ _ _ _ _ H1 H2).
    + now rewrite (transform_app_crashed _ _ _ _ _ H1).
Qed.

End OggStream.

(** ** The EBML tag walker: reading a header *)

Module WebmFacts.
Import WebmBaseDemuxer WebmWalk VintFacts.

(** A buffer seen through a prefix: index [blength pre + i] of [pre ++ b] is
    index [i] of [b]. *)
Lemma vintLength_shift (pre b : Buffer) (i : Z) :
  0 <= i -> vintLength (pre ++ b) (blength pre + i) = vintLength b i.
Proof.
  intros H. unfold vintLength. rewrite get_app_r by lia. rewrite blength_app.
  remember (vint_scan 8 0 (get b i) + 1) as L.
  destruct (blength b <? i + L) eqn:E.
  - apply Z.ltb_lt in E.
    destruct (_ <? _) eqn:E'; [reflexivity|apply Z.ltb_ge in E'; lia].
  - apply Z.ltb_ge in E.
    destruct (_ <? _) eqn:E'; [apply Z.ltb_lt in E'; lia|reflexivity].
Qed.

Lemma expand_loop_shift (pre b : Buffer) (n : nat) :
  forall i v, 0 <= i ->
    expand_loop (pre ++ b) n (blength pre + i) v = expand_loop b n i v.
Proof.
  induction n as [|n IH]; intros i v H; simpl; [reflexivity|].
  rewrite get_app_r by lia.
  replace (blength pre + i + 1) with (blength pre + (i + 1)) by lia.
  apply IH. lia.
Qed.

Lemma expandVint_shift (pre b : Buffer) (s e : Z) :
  0 <= s ->
  expandVint (pre ++ b) (blength pre + s) (blength pre + e) = expandVint b s e.
Proof.
  intros H. unfold expandVint. rewrite vintLength_shift by lia.
  destruct (vintLength b s) as [L|]; [|reflexivity].
  rewrite blength_app, get_app_r by lia.
  replace (blength pre + e - (blength pre + s + 1)) with (e - (s + 1)) by lia.
  replace (blength pre + s + 1) with (blength pre + (s + 1)) by lia.
  rewrite expand_loop_shift by lia.
  destruct (blength b <? e) eqn:E.
  - apply Z.ltb_lt in E.
    destruct (_ <? _) eqn:E'; [reflexivity|apply Z.ltb_ge in E'; lia].
  - apply Z.ltb_ge in E.
    destruct (_ <? _) eqn:E'; [apply Z.ltb_lt in E'; lia|reflexivity].
Qed.

(** For bounds that are not negative, [slice] is [firstn] of [skipn], wherever
    the bounds lie. *)
Lemma slice_nonneg (b : Buffer) (s e : Z) :
  0 <= s <= e ->
  slice b s e = firstn (Z.to_nat (e - s)) (skipn (Z.to_nat s) b).
Proof.
  intros H. pose proof (blength_nonneg b) as Hb.
  destruct (Z.le_gt_cases e (blength b)) as [He|He].
  - apply slice_inside; lia.
  - destruct (Z.le_gt_cases s (blength b)) as [Hs|Hs].
    + rewrite slice_clamped by lia. symmetry. apply firstn_all2.
      rewrite length_skipn. unfold blength in *. lia.
    + unfold slice, slice_num, adjustOffset.
      destruct (s =? 0) eqn:A; [apply Z.eqb_eq in A; lia|].
      destruct (s <? 0) eqn:B; [apply Z.ltb_lt in B; lia|].
      destruct (s <? blength b) eqn:C; [apply Z.ltb_lt in C; lia|].
      destruct (e =? 0) eqn:A'; [apply Z.eqb_eq in A'; lia|].
      destruct (e <? 0) eqn:B'; [apply Z.ltb_lt in B'; lia|].
      destruct (e <? blength b) eqn:C'; [apply Z.ltb_lt in C'; lia|].
      rewrite Z.ltb_irrefl. simpl.
      rewrite (skipn_all2 b) by (unfold blength in *; lia).
      now rewrite firstn_nil.
Qed.

Lemma slice_shift (pre b : Buffer) (s e : Z) :
  0 <= s <= e ->
  slice (pre ++ b) (blength pre + s) (blength pre + e) = slice b s e.
Proof.
  intros H. pose proof (blength_nonneg pre) as Hp.
  rewrite !slice_nonneg by lia.
  replace (blength pre + e - (blength pre + s)) with (e - s) by lia.
  f_equal. rewrite skipn_app. unfold blength.
  rewrite skipn_all2 by lia. simpl. f_equal. lia.
Qed.

Lemma slice_from_shift (pre b : Buffer) (s : Z) :
  0 <= s <= blength b ->
  slice_from (pre ++ b) (blength pre + s) = slice_from b s.
Proof.
  intros H. unfold slice_from. rewrite blength_app. apply slice_shift. lia.
Qed.

(** *** The header of an element: its id and its size field *)

Lemma readEBMLId_Some (chunk : Buffer) (offset : Z) id offset1 :
  _readEBMLId chunk offset = Some (id, offset1) ->
  offset + 1 <= offset1 <= offset + 9 /\ offset1 <= blength chunk /\
  id = slice chunk offset offset1.
Proof.
  unfold _readEBMLId. destruct (vintLength chunk offset) as [L|] eqn:E; [|discriminate].
  intros H. injection H as <- <-.
  apply vintLength_Some in E. repeat split; lia.
Qed.

Lemma readTagDataSize_Some (chunk : Buffer) (offset : Z) offset2 dl sl :
  _readTagDataSize chunk offset = Some (offset2, dl, sl) ->
  offset + 1 <= offset2 <= offset + 9 /\ offset2 <= blength chunk /\
  (0 <= offset -> exists d, dl = Int d).
Proof.
  unfold _readTagDataSize.
  destruct (vintLength chunk offset) as [L|] eqn:E; [|discriminate].
  destruct (expandVint chunk offset (offset + L)) as [v|] eqn:E'; [|discriminate].
  intros H. injection H as <- <- <-.
  apply vintLength_Some in E. repeat split; try lia.
  intros Ho. eapply expandVint_Int; eauto.
Qed.

Lemma header_Some (chunk : Buffer) (offset : Z) id offset2 dl :
  header chunk offset = Some (id, offset2, dl) ->
  offset + 2 <= offset2 <= offset + 18 /\ offset2 <= blength chunk /\
  (0 <= offset -> exists d, dl = Int d).
Proof.
  unfold header.
  destruct (_readEBMLId chunk offset) as [[i o1]|] eqn:E; [|discriminate].
  destruct (_readTagDataSize chunk o1) as [[[o2 d] sl]|] eqn:E'; [|discriminate].
  intros H. injection H as <- <- <-.
  apply readEBMLId_Some in E. apply readTagDataSize_Some in E'.
  repeat split; try lia. intros Ho. apply E'. lia.
Qed.

Lemma readEBMLId_shift (pre b : Buffer) (o : Z) :
  0 <= o ->
  _readEBMLId (pre ++ b) (blength pre + o)
  = option_map (fun '(id, o1) => (id, blength pre + o1)) (_readEBMLId b o).
Proof.
  intros H. unfold _readEBMLId. rewrite vintLength_shift by lia.
  destruct (vintLength b o) as [L|] eqn:E; [|reflexivity]. simpl.
  apply vintLength_Some in E.
  replace (blength pre + o + L) with (blength pre + (o + L)) by lia.
  rewrite slice_shift by lia. reflexivity.
Qed.

Lemma readTagDataSize_shift (pre b : Buffer) (o : Z) :
  0 <= o ->
  _readTagDataSize (pre ++ b) (blength pre + o)
  = option_map (fun '(o2, dl, sl) => (blength pre + o2, dl, sl)) (_readTagDataSize b o).
Proof.
  intros H. unfold _readTagDataSize. rewrite vintLength_shift by lia.
  destruct (vintLength b o) as [L|] eqn:E; [|reflexivity].
  replace (blength pre + o + L) with (blength pre + (o + L)) by lia.
  rewrite expandVint_shift by lia.
  destruct (expandVint b o (o + L)); reflexivity.
Qed.

Lemma readEBMLId_app (b more : Buffer) (o : Z) r :
  0 <= o -> _readEBMLId b o = Some r -> _readEBMLId (b ++ more) o = Some r.
Proof.
  intros Ho. unfold _readEBMLId.
  destruct (vintLength b o) as [L|] eqn:E; [|discriminate].
  rewrite (vintLength_app _ more _ _ E). apply vintLength_Some in E.
  rewrite slice_app_l by lia. auto.
Qed.

Lemma readTagDataSize_app (b more : Buffer) (o : Z) r :
  _readTagDataSize b o = Some r -> _readTagDataSize (b ++ more) o = Some r.
Proof.
  unfold _readTagDataSize.
  destruct (vintLength b o) as [L|] eqn:E; [|discriminate].
  rewrite (vintLength_app _ more _ _ E).
  destruct (expandVint b o (o + L)) as [v|] eqn:E'; [|discriminate].
  rewrite (expandVint_app _ more _ _ _ E'). auto.
Qed.

End WebmFacts.

(** ** The EBML tag walker: one tag *)

Module WebmStep.
Import WebmBaseDemuxer WebmWalk VintFacts WebmFacts.

Lemma with_core_of (st : state) : with_core st (core_of st) = st.
Proof. now destruct st. Qed.

Lemma core_of_with_core (st : state) (f : core) : core_of (with_core st f) = f.
Proof. now destruct f as [[t i] e]. Qed.

Lemma update_track_frame (st : state) (id data : Buffer) :
  update_track st id data = with_core st (core_of (update_track st id data)).
Proof.
  destruct st as [r l c s t i e]. unfold update_track, with_core, core_of, set_tracks.
  cbn [_track _incompleteTrack _remainder _length _count _skipUntil _ebmlFound fst snd].
  destruct t; [reflexivity|].
  repeat match goal with
         | |- context [match ?x with _ => _ end] => destruct x
         end; reflexivity.
Qed.

Lemma update_track_core (st1 st2 : state) (id data : Buffer) :
  core_of st1 = core_of st2 ->
  core_of (update_track st1 id data) = core_of (update_track st2 id data).
Proof.
  destruct st1, st2. unfold core_of. cbn. intros H. injection H as -> -> ->.
  unfold update_track, set_tracks. cbn.
  destruct _track1; [reflexivity|].
  repeat match goal with
         | |- context [match ?x with _ => _ end] => destruct x
         end; reflexivity.
Qed.

Section Hook.

Variable checkHead : Buffer -> error + list Buffer.

Local Abbreviation dispatch := (WebmWalk.dispatch checkHead).
Local Abbreviation astep := (WebmWalk.astep checkHead).
Local Abbreviation Ref := (WebmWalk.Ref checkHead).

Lemma readTag_unfold (st : state) (chunk : Buffer) (offset : Z) :
  _readTag checkHead st chunk offset
  = match _readEBMLId chunk offset with
    | None => TOO_SHORT st
    | Some (ebmlID, offset1) =>
        if negb (_ebmlFound st) && negb (equals ebmlID ID_EBML)
        then Throw NoEBMLTagError
        else match _readTagDataSize chunk offset1 with
             | None => TOO_SHORT (set_ebmlFound st true)
             | Some (offset2, dataLength, _) =>
                 dispatch (set_ebmlFound st true) chunk ebmlID offset2 dataLength
             end
    end.
Proof. reflexivity. Qed.

Lemma dispatch_frame (st : state) chunk id offset2 dl :
  keeps_frame st (dispatch st chunk id offset2 dl).
Proof.
  unfold dispatch.
  destruct (TAGS id) as [[|]|]; cbn [keeps_frame].
  - now rewrite with_core_of.
  - destruct (gt _ _); cbn [keeps_frame]; [now rewrite with_core_of|].
    pose proof (update_track_frame st id
                  (slice_num chunk (Int offset2) (add offset2 dl))) as U.
    remember (update_track st id
                (slice_num chunk (Int offset2) (add offset2 dl))) as u.
    destruct (equals id ID_CodecPrivate).
    + destruct (checkHead _); cbn [keeps_frame]; [exact I|exact U].
    + destruct (equals id ID_SimpleBlock); [|exact U].
      destruct (_track u); [|exact I].
      destruct (match number t with Some n => _ | None => false end); exact U.
  - destruct (gt _ _); cbn [keeps_frame]; now rewrite with_core_of.
Qed.

Lemma readTag_frame (st : state) chunk offset :
  keeps_frame st (_readTag checkHead st chunk offset).
Proof.
  rewrite readTag_unfold.
  destruct (_readEBMLId chunk offset) as [[id o1]|]; [|cbn; now rewrite with_core_of].
  destruct (negb (_ebmlFound st) && negb (equals id ID_EBML)); [exact I|].
  assert (F : forall r, keeps_frame (set_ebmlFound st true) r -> keeps_frame st r).
  { intros [e|s'|s' pu t]; cbn; auto. }
  destruct (_readTagDataSize chunk o1) as [[[o2 dl] sl]|].
  - apply F, dispatch_frame.
  - now destruct st.
Qed.

Lemma truthy_pos (z : Z) : 0 < z -> truthy (Int z) = true.
Proof. intros H. simpl. destruct (z =? 0) eqn:E; [apply Z.eqb_eq in E; lia|reflexivity]. Qed.

Lemma ltb_shift (a b c : Z) : (a + b <? a + c) = (b <? c).
Proof.
  destruct (b <? c) eqn:E.
  - apply Z.ltb_lt in E. apply Z.ltb_lt. lia.
  - apply Z.ltb_ge in E. apply Z.ltb_ge. lia.
Qed.

Ltac aview_next H :=
  cbn [aview tag_skipUntil tag_offset add];
  rewrite ?Z.add_0_l; rewrite !truthy_pos by lia; rewrite H; f_equal; lia.

Lemma dispatch_shift (st1 st2 : state) (pre b id : Buffer) (off2 d : Z) :
  core_of st1 = core_of st2 ->
  _count st1 = blength pre -> _count st2 = 0 ->
  0 < off2 -> (TAGS id <> Some true -> 0 <= d) ->
  aview (blength pre) (dispatch st1 b id off2 (Int d))
  = aview 0 (dispatch st2 (pre ++ b) id (blength pre + off2) (Int d)).
Proof.
  intros Hc H1 H2 Ho Hd. pose proof (blength_nonneg pre) as Hp.
  unfold dispatch. rewrite blength_app, H1, H2.
  destruct (TAGS id) as [[|]|] eqn:T.
  - aview_next Hc.
  - specialize (Hd ltac:(discriminate)).
    cbn [gt add].
    replace (blength pre + off2 + d) with (blength pre + (off2 + d)) by lia.
    rewrite ltb_shift.
    destruct (blength b <? off2 + d) eqn:E; [cbn [aview]; now rewrite Hc|].
    change (slice_num ?x (Int ?a) (Int ?c)) with (slice x a c).
    rewrite slice_shift by lia.
    pose proof (update_track_core st1 st2 id (slice b off2 (off2 + d)) Hc) as U.
    remember (update_track st1 id (slice b off2 (off2 + d))) as u1.
    remember (update_track st2 id (slice b off2 (off2 + d))) as u2.
    assert (Ut : _track u1 = _track u2) by (unfold core_of in U; congruence).
    destruct (equals id ID_CodecPrivate).
    + destruct (checkHead _); [reflexivity|]. aview_next U.
    + destruct (equals id ID_SimpleBlock).
      * rewrite Ut. destruct (_track u2); [|reflexivity].
        destruct (match number t with Some n => _ | None => false end);
          aview_next U.
      * aview_next U.
  - specialize (Hd ltac:(discriminate)).
    cbn [gt add].
    replace (blength pre + off2 + d) with (blength pre + (off2 + d)) by lia.
    rewrite ltb_shift.
    destruct (off2 + d <? blength b) eqn:E.
    + aview_next Hc.
    + aview_next Hc.
Qed.

(** A step on the kept tail [b] at offset [o] is the step on the stream
    [pre ++ b] at position [blength pre + o]. *)
Lemma readTag_shift (st : state) (pre b : Buffer) (o : Z) :
  0 <= o -> _count st = blength pre -> nonneg_size b o ->
  aview (blength pre) (_readTag checkHead st b o)
  = astep (pre ++ b) (core_of st) (blength pre + o).
Proof.
  intros Ho Hc Hn. unfold astep. rewrite !readTag_unfold.
  rewrite readEBMLId_shift by lia.
  destruct (_readEBMLId b o) as [[id o1]|] eqn:E1; cbn [option_map];
    [|now destruct st].
  pose proof (readEBMLId_Some _ _ _ _ E1) as (B1 & B2 & _).
  replace (_ebmlFound (ref_state (core_of st))) with (_ebmlFound st)
    by (now destruct st).
  destruct (negb (_ebmlFound st) && negb (equals id ID_EBML)); [reflexivity|].
  rewrite readTagDataSize_shift by lia.
  destruct (_readTagDataSize b o1) as [[[o2 dl] sl]|] eqn:E2; cbn [option_map];
    [|now destruct st].
  pose proof (readTagDataSize_Some _ _ _ _ _ E2) as (B3 & B4 & B5).
  destruct (B5 ltac:(lia)) as [d ->].
  apply dispatch_shift; try (now destruct st); try lia.
  intros T. unfold nonneg_size, header in Hn.
  rewrite E1, E2 in Hn. destruct (Hn _ _ _ eq_refl T) as (d' & Hd' & Hd'').
  injection Hd' as ->. exact Hd''.
Qed.

Lemma header_app (b more : Buffer) (o : Z) h :
  0 <= o -> header b o = Some h -> header (b ++ more) o = Some h.
Proof.
  intros Ho. unfold header.
  destruct (_readEBMLId b o) as [[id o1]|] eqn:E1; [|discriminate].
  rewrite (readEBMLId_app _ more _ _ Ho E1).
  destruct (_readTagDataSize b o1) as [[[o2 dl] sl]|] eqn:E2; [|discriminate].
  now rewrite (readTagDataSize_app _ more _ _ E2).
Qed.

Lemma nonneg_size_prefix (b more : Buffer) (o : Z) :
  0 <= o -> nonneg_size (b ++ more) o -> nonneg_size b o.
Proof.
  intros Ho H id o2 dl Hh T. eapply H; [|exact T].
  apply header_app; eauto.
Qed.

Lemma astep_at_end (B : Buffer) (f : core) (pos : Z) :
  blength B <= pos -> astep B f pos = AStop f [].
Proof.
  intros H. unfold astep. rewrite readTag_unfold. unfold _readEBMLId.
  rewrite vintLength_at_end by lia. cbn. now destruct f as [[t i] e].
Qed.

(** Once the id at [pos] is read, the root-tag flag may as well be set already,
    when it is set or the id is the root tag. *)
Lemma astep_ebml (B : Buffer) (f : core) (pos : Z) id o1 :
  _readEBMLId B pos = Some (id, o1) ->
  snd f = true \/ equals id ID_EBML = true ->
  astep B (fst f, true) pos = astep B f pos.
Proof.
  intros E H. unfold astep. rewrite !readTag_unfold, E.
  destruct f as [[t i] e]. cbn [fst snd ref_state _ebmlFound negb andb] in *.
  destruct H as [-> | ->]; [reflexivity|].
  rewrite andb_false_r. reflexivity.
Qed.

(** More data after the buffer does not change a step that did not stop for
    want of data. *)
Lemma dispatch_app (st : state) (P R id : Buffer) (off2 d : Z) :
  _count st = 0 -> 0 < off2 <= blength P -> (TAGS id <> Some true -> 0 <= d) ->
  match aview 0 (dispatch st P id off2 (Int d)) with
  | AStop f pushed =>
      f = core_of st /\ pushed = [] /\ TAGS id = Some false /\ blength P < off2 + d
  | r => aview 0 (dispatch st (P ++ R) id off2 (Int d)) = r
  end.
Proof.
  intros Hc Ho Hd. pose proof (blength_nonneg R) as Hr.
  unfold dispatch. rewrite blength_app, Hc.
  destruct (TAGS id) as [[|]|] eqn:T.
  - cbn [aview tag_skipUntil tag_offset add]. rewrite truthy_pos by lia. reflexivity.
  - specialize (Hd ltac:(discriminate)). cbn [gt add].
    destruct (blength P <? off2 + d) eqn:E.
    + apply Z.ltb_lt in E. cbn [aview]. auto.
    + apply Z.ltb_ge in E.
      destruct (blength P + blength R <? off2 + d) eqn:E';
        [apply Z.ltb_lt in E'; lia|].
      change (slice_num ?x (Int ?a) (Int ?c)) with (slice x a c).
      rewrite slice_app_l by lia.
      remember (update_track st id (slice P off2 (off2 + d))) as u.
      assert (N : forall pushed,
                 aview 0 (Return u pushed (mkTag (Int (off2 + d)) None))
                 = ANext (core_of u) pushed (off2 + d)).
      { intros pushed. cbn [aview tag_skipUntil tag_offset].
        rewrite truthy_pos by lia. reflexivity. }
      destruct (equals id ID_CodecPrivate).
      * destruct (checkHead _); [reflexivity|]. now rewrite N.
      * destruct (equals id ID_SimpleBlock).
        -- destruct (_track u); [|reflexivity].
           destruct (match number t with Some n => _ | None => false end);
             now rewrite N.
        -- now rewrite N.
  - specialize (Hd ltac:(discriminate)). cbn [gt add].
    assert (N : aview 0 (Return st [] (mkTag (Int (off2 + d)) None))
                = ANext (core_of st) [] (off2 + d) /\
                aview 0 (Return st [] (mkTag (Int off2) (Some (Int (0 + off2 + d)))))
                = ANext (core_of st) [] (off2 + d)).
    { cbn [aview tag_skipUntil tag_offset]. rewrite Z.add_0_l.
      rewrite !truthy_pos by lia. auto. }
    destruct N as [N1 N2].
    destruct (off2 + d <? blength P) eqn:E.
    + apply Z.ltb_lt in E. rewrite N1.
      destruct (off2 + d <? blength P + blength R) eqn:E';
        [exact N1|apply Z.ltb_ge in E'; lia].
    + rewrite N2. destruct (off2 + d <? blength P + blength R); assumption.
Qed.

Lemma astep_app (P R : Buffer) (f : core) (pos : Z) :
  0 <= pos -> nonneg_size P pos ->
  match astep P f pos with
  | AStop f' pushed =>
      pushed = [] /\ astep (P ++ R) f' pos = astep (P ++ R) f pos
  | r => astep (P ++ R) f pos = r
  end.
Proof.
  intros Hp Hn. unfold astep at 1. rewrite readTag_unfold.
  destruct (_readEBMLId P pos) as [[id o1]|] eqn:E1.
  2:{ cbn [aview]. split; [reflexivity|]. now destruct f as [[t i] e]. }
  pose proof (readEBMLId_Some _ _ _ _ E1) as (B1 & B2 & _).
  pose proof (readEBMLId_app _ R _ _ Hp E1) as E1'.
  replace (_ebmlFound (ref_state f)) with (snd f) by (now destruct f as [[t i] e]).
  destruct (negb (snd f) && negb (equals id ID_EBML)) eqn:C.
  { cbn [aview]. unfold astep. rewrite readTag_unfold, E1'.
    replace (_ebmlFound (ref_state f)) with (snd f) by (now destruct f as [[t i] e]).
    now rewrite C. }
  assert (C' : snd f = true \/ equals id ID_EBML = true).
  { destruct (snd f); [now left|]. destruct (equals id ID_EBML); [now right|discriminate]. }
  assert (K : core_of (set_ebmlFound (ref_state f) true) = (fst f, true))
    by (now destruct f as [[t i] e]).
  destruct (_readTagDataSize P o1) as [[[o2 dl] sl]|] eqn:E2.
  2:{ cbn [aview]. rewrite K. split; [reflexivity|]. eapply astep_ebml; eauto. }
  pose proof (readTagDataSize_Some _ _ _ _ _ E2) as (B3 & B4 & B5).
  pose proof (readTagDataSize_app _ R _ _ E2) as E2'.
  destruct (B5 ltac:(lia)) as [d ->].
  assert (Hd : TAGS id <> Some true -> 0 <= d).
  { intros T. unfold nonneg_size, header in Hn. rewrite E1, E2 in Hn.
    destruct (Hn _ _ _ eq_refl T) as (d' & Hd' & Hd''). now injection Hd' as ->. }
  pose proof (dispatch_app (set_ebmlFound (ref_state f) true) P R id o2 d
                           ltac:(now destruct f as [[t i] e]) ltac:(lia) Hd) as D.
  assert (U : astep (P ++ R) f pos
              = aview 0 (dispatch (set_ebmlFound (ref_state f) true) (P ++ R) id o2 (Int d))).
  { unfold astep. rewrite readTag_unfold, E1'.
    replace (_ebmlFound (ref_state f)) with (snd f) by (now destruct f as [[t i] e]).
    now rewrite C, E2'. }
  destruct (aview 0 (dispatch (set_ebmlFound (ref_state f) true) P id o2 (Int d)))
    as [e|f' pu|f' pu p'] eqn:A.
  - now rewrite U.
  - destruct D as (-> & -> & _ & _). split; [reflexivity|].
    rewrite K. eapply astep_ebml; eauto.
  - now rewrite U.
Qed.

Lemma dispatch_shape (st : state) (b id : Buffer) (off2 d : Z) :
  0 < off2 <= blength b -> (TAGS id <> Some true -> 0 <= d) ->
  match dispatch st b id off2 (Int d) with
  | Return st' pushed t =>
      (tag_skipUntil t = None /\ tag_offset t = Int (next_pos id off2 d) /\
       next_pos id off2 d <= blength b) \/
      (tag_skipUntil t = Some (Int (_count st + off2 + d)) /\ TAGS id = None /\
       blength b <= off2 + d)
  | _ => True
  end.
Proof.
  intros Ho Hd. unfold dispatch, next_pos.
  destruct (TAGS id) as [[|]|] eqn:T.
  - left. cbn. repeat split; lia.
  - specialize (Hd ltac:(discriminate)). cbn [gt add].
    destruct (blength b <? off2 + d) eqn:E; [exact I|]. apply Z.ltb_ge in E.
    destruct (equals id ID_CodecPrivate).
    + destruct (checkHead _); [exact I|]. left. cbn. auto.
    + destruct (equals id ID_SimpleBlock).
      * destruct (_track _); [|exact I].
        destruct (match number t with Some n => _ | None => false end);
          left; cbn; auto.
      * left. cbn. auto.
  - specialize (Hd ltac:(discriminate)). cbn [gt add].
    destruct (off2 + d <? blength b) eqn:E.
    + apply Z.ltb_lt in E. left. cbn. repeat split; lia.
    + apply Z.ltb_ge in E. right. cbn. auto.
Qed.

Lemma readTag_shape (st : state) (b : Buffer) (o : Z) :
  0 <= o -> nonneg_size b o ->
  match _readTag checkHead st b o with
  | Return st' pushed t =>
      exists id o2 d,
        header b o = Some (id, o2, Int d) /\ o + 2 <= o2 <= next_pos id o2 d /\
        ((tag_skipUntil t = None /\ tag_offset t = Int (next_pos id o2 d) /\
          next_pos id o2 d <= blength b) \/
         (tag_skipUntil t = Some (Int (_count st + o2 + d)) /\ TAGS id = None /\
          blength b <= o2 + d))
  | _ => True
  end.
Proof.
  intros Ho Hn. rewrite readTag_unfold.
  destruct (_readEBMLId b o) as [[id o1]|] eqn:E1; [|exact I].
  destruct (negb (_ebmlFound st) && negb (equals id ID_EBML)); [exact I|].
  destruct (_readTagDataSize b o1) as [[[o2 dl] sl]|] eqn:E2; [|exact I].
  assert (Hh : header b o = Some (id, o2, dl)) by (unfold header; now rewrite E1, E2).
  pose proof (header_Some _ _ _ _ _ Hh) as (B1 & B2 & B3).
  destruct (B3 Ho) as [d ->].
  assert (Hd : TAGS id <> Some true -> 0 <= d).
  { intros T. destruct (Hn _ _ _ Hh T) as (d' & Hd' & Hd''). now injection Hd' as ->. }
  pose proof (dispatch_shape (set_ebmlFound st true) b id o2 d ltac:(lia) Hd) as D.
  destruct (dispatch (set_ebmlFound st true) b id o2 (Int d)) as [e|s'|s' pu t];
    try exact I.
  exists id, o2, d. split; [exact Hh|]. split.
  - unfold next_pos. destruct (TAGS id) as [[|]|]; try lia;
      specialize (Hd ltac:(discriminate)); lia.
  - replace (_count (set_ebmlFound st true)) with (_count st) in D by (now destruct st).
    exact D.
Qed.

(** The position a step goes on at is the one the header gives. *)
Lemma astep_ANext (B : Buffer) (f f' : core) pushed (pos pos' : Z) :
  0 <= pos -> nonneg_size B pos ->
  astep B f pos = ANext f' pushed pos' ->
  exists id o2 d,
    header B pos = Some (id, o2, Int d) /\ pos + 2 <= o2 <= pos' /\
    pos' = next_pos id o2 d /\ (TAGS id = Some false -> pos' <= blength B).
Proof.
  intros Hp Hn. unfold astep.
  pose proof (readTag_shape (ref_state f) B pos Hp Hn) as S.
  destruct (_readTag checkHead (ref_state f) B pos) as [e|s'|s' pu t];
    try discriminate.
  destruct S as (id & o2 & d & Hh & Hb & [(S1 & S2 & S3)|(S1 & S2 & S3)]).
  - cbn [aview]. rewrite S1, S2. rewrite truthy_pos by lia.
    intros H. injection H as <- <- <-. exists id, o2, d.
    repeat split; try lia; auto.
  - cbn [aview]. rewrite S1.
    replace (_count (ref_state f)) with 0 by (now destruct f as [[t' i] e]).
    rewrite Z.add_0_l. unfold next_pos in *. rewrite S2 in *.
    rewrite truthy_pos by lia.
    intros H. injection H as <- <- <-. exists id, o2, d.
    rewrite S2. repeat split; try lia; auto. discriminate.
Qed.

Lemma header_shift (pre b : Buffer) (o : Z) :
  0 <= o ->
  header (pre ++ b) (blength pre + o)
  = option_map (fun '(id, o2, dl) => (id, blength pre + o2, dl)) (header b o).
Proof.
  intros Ho. unfold header. rewrite readEBMLId_shift by lia.
  destruct (_readEBMLId b o) as [[id o1]|] eqn:E1; cbn [option_map]; [|reflexivity].
  pose proof (readEBMLId_Some _ _ _ _ E1) as (B1 & _).
  rewrite readTagDataSize_shift by lia.
  destruct (_readTagDataSize b o1) as [[[o2 dl] sl]|]; reflexivity.
Qed.

Lemma nonneg_size_shift (pre b : Buffer) (o : Z) :
  0 <= o -> nonneg_size (pre ++ b) (blength pre + o) -> nonneg_size b o.
Proof.
  intros Ho H id o2 dl Hh T. apply (H id (blength pre + o2) dl); [|exact T].
  rewrite header_shift by lia. now rewrite Hh.
Qed.

Lemma Valid_pos T pos : Valid T pos -> 0 <= pos /\ nonneg_size T pos.
Proof. now destruct 1. Qed.

Lemma Valid_next T f f' pushed pos pos' :
  Valid T pos -> astep T f pos = ANext f' pushed pos' ->
  Valid T pos' /\ pos + 2 <= pos'.
Proof.
  intros [p Hp Hn Hv] A.
  destruct (astep_ANext _ _ _ _ _ _ Hp Hn A) as (id & o2 & d & Hh & Hb & -> & _).
  split; [eauto|lia].
Qed.

Lemma Ref_deterministic T f pos ev oe :
  Ref T f pos ev oe -> forall ev' oe', Ref T f pos ev' oe' -> ev = ev' /\ oe = oe'.
Proof.
  induction 1 as [f pos e A|f pos f' pu A|f pos f' pu pos' ev oe A _ IH];
    intros ev' oe' H'; inversion H'; subst; try congruence.
  - split; congruence.
  - split; congruence.
  - match goal with
    | H1 : astep T f pos = ANext ?a ?b ?c |- _ =>
        rewrite A in H1; injection H1 as <- <- <-
    end.
    match goal with
    | H2 : Ref T f' pos' _ _ |- _ => destruct (IH _ _ H2) as [-> ->]
    end.
    auto.
Qed.

Lemma Ref_same_step T f1 f2 pos ev oe :
  astep T f1 pos = astep T f2 pos -> Ref T f1 pos ev oe -> Ref T f2 pos ev oe.
Proof.
  intros E H. inversion H; subst.
  - apply Ref_err. congruence.
  - eapply Ref_stop. rewrite <- E. eassumption.
  - eapply Ref_next; [|eassumption]. rewrite <- E. eassumption.
Qed.

(** *** A call of [_transform] against the walk over the whole stream *)

Lemma frame_fields (st st' : state) (g : core) :
  st' = with_core st g ->
  _count st' = _count st /\ _skipUntil st' = _skipUntil st /\
  _length st' = _length st /\ _remainder st' = _remainder st.
Proof. intros ->. now destruct st. Qed.

Lemma walk_sim (pre b R : Buffer) (fuel : nat) :
  forall st o acc,
    0 <= o <= blength b -> _count st = blength pre -> _skipUntil st = None ->
    Valid ((pre ++ b) ++ R) (blength pre + o) ->
    (Z.to_nat (blength b - o) < fuel)%nat ->
    exists ev res,
      walk checkHead fuel st b o acc = Some (acc ++ ev, res) /\
      match res with
      | Crashed e => Ref ((pre ++ b) ++ R) (core_of st) (blength pre + o) ev (Some e)
      | Running st' =>
          _length st' = _length st /\
          exists pos',
            Rep st' (pre ++ b) pos' /\ Valid ((pre ++ b) ++ R) pos' /\
            (exists f'', astep (pre ++ b) (core_of st') pos' = AStop f'' []) /\
            forall ev2 oe,
              Ref ((pre ++ b) ++ R) (core_of st') pos' ev2 oe ->
              Ref ((pre ++ b) ++ R) (core_of st) (blength pre + o) (ev ++ ev2) oe
      end.
Proof.
  induction fuel as [|fuel IH]; intros st o acc Ho Hc Hs Hv Hf; [lia|].
  pose proof (blength_nonneg pre) as Hpre.
  destruct (Valid_pos _ _ Hv) as [Hp HnT].
  assert (HnP : nonneg_size (pre ++ b) (blength pre + o))
    by (eapply nonneg_size_prefix; eauto).
  assert (Hn : nonneg_size b o) by (eapply nonneg_size_shift; [lia|eauto]).
  pose proof (readTag_shift st pre b o ltac:(lia) Hc Hn) as Sh.
  pose proof (readTag_frame st b o) as Fr.
  pose proof (readTag_shape st b o ltac:(lia) Hn) as Sp.
  pose proof (astep_app (pre ++ b) R (core_of st) (blength pre + o) Hp HnP) as Ext.
  pose proof (astep_app (pre ++ b) [] (core_of st) (blength pre + o) Hp HnP) as Ext0.
  rewrite app_nil_r in Ext0.
  cbn [walk].
  destruct (_readTag checkHead st b o) as [e|st'|st' pushed t] eqn:E.
  - (* an exception *)
    exists [], (Crashed e). rewrite app_nil_r. split; [reflexivity|].
    cbn [aview] in Sh. rewrite <- Sh in Ext. now apply Ref_err.
  - (* no more data *)
    cbn [keeps_frame] in Fr. destruct (frame_fields _ _ _ Fr) as (F1 & F2 & F3 & F4).
    exists [], (Running (finish st' b o)). rewrite app_nil_r. split; [reflexivity|].
    cbn [aview] in Sh. rewrite <- Sh in Ext, Ext0.
    destruct Ext as [_ Ext]. destruct Ext0 as [_ Ext0].
    split; [now destruct st'|].
    replace (core_of (finish st' b o)) with (core_of st') by (now destruct st').
    exists (blength pre + o). split; [|split; [exact Hv|split]].
    + unfold Rep. cbn [rem_bytes finish set_cursor _remainder _count _skipUntil].
      rewrite F1, F2, Hc, blength_app.
      split; [lia|]. split; [now rewrite slice_from_shift by lia|].
      left. auto.
    + exists (core_of st'). exact Ext0.
    + intros ev2 oe H. cbn [app]. eapply Ref_same_step; eauto.
  - (* a tag was read *)
    cbn [keeps_frame] in Fr. destruct (frame_fields _ _ _ Fr) as (F1 & F2 & F3 & F4).
    destruct Sp as (id & o2 & d & Hh & Hb & [(S1 & S2 & S3)|(S1 & S2 & S3)]).
    + (* the walk goes on at the returned offset *)
      set (o' := next_pos id o2 d) in *.
      rewrite S1, S2. cbn [truthy_opt]. rewrite truthy_pos by lia.
      cbn [aview] in Sh. rewrite S1, S2, truthy_pos in Sh by lia.
      rewrite <- Sh in Ext.
      destruct (Valid_next _ _ _ _ _ _ Hv Ext) as [Hv' _].
      destruct (IH st' o' (acc ++ pushed) ltac:(lia) ltac:(congruence)
                   ltac:(congruence) Hv' ltac:(lia)) as (ev & res & W & Q).
      exists (pushed ++ ev), res. split; [now rewrite app_assoc|].
      destruct res as [st''|e].
      * destruct Q as (L & pos' & Rp & Vp & St & Hi).
        split; [congruence|]. exists pos'.
        split; [exact Rp|]. split; [exact Vp|]. split; [exact St|].
        intros ev2 oe H. rewrite <- (app_assoc pushed ev ev2).
        eapply Ref_next; eauto.
      * eapply Ref_next; eauto.
    + (* an unknown element whose end is not in the buffer *)
      unfold next_pos in Hb. rewrite S2 in Hb.
      set (s := _count st + o2 + d) in *.
      assert (Hs0 : 0 < s) by (unfold s; lia).
      rewrite S1. cbn [truthy_opt]. rewrite truthy_pos by lia.
      cbn [aview] in Sh. rewrite S1, truthy_pos in Sh by lia.
      rewrite <- Sh in Ext.
      destruct (Valid_next _ _ _ _ _ _ Hv Ext) as [Hv' _].
      exists pushed, (Running (finish (set_skipUntil st' (Some (Int s))) b o)).
      split; [reflexivity|].
      split; [now destruct st'|].
      replace (core_of (finish (set_skipUntil st' (Some (Int s))) b o))
        with (core_of st') by (now destruct st').
      exists s. split; [|split; [exact Hv'|split]].
      * unfold Rep.
        cbn [rem_bytes finish set_cursor set_skipUntil _remainder _count _skipUntil].
        rewrite F1, Hc, blength_app.
        split; [lia|]. split; [now rewrite slice_from_shift by lia|].
        right. split; [reflexivity|]. unfold s. lia.
      * exists (core_of st'). apply astep_at_end. rewrite blength_app. unfold s. lia.
      * intros ev2 oe H. eapply Ref_next; eauto.
Qed.

Lemma transform_chunk (st : state) (c : Buffer) :
  match _remainder st with Some r => r ++ c | None => c end = rem_bytes st ++ c.
Proof. unfold rem_bytes. now destruct (_remainder st). Qed.

(** The bytes consumed so far and the bytes kept make up the bytes received. *)
Lemma Rep_split (st : state) (P : Buffer) (pos : Z) :
  Rep st P pos ->
  exists pre, P = pre ++ rem_bytes st /\ blength pre = _count st.
Proof.
  intros (H1 & H2 & _). exists (firstn (Z.to_nat (_count st)) P).
  rewrite H2, slice_from_inside by lia. split.
  - symmetry. apply firstn_skipn.
  - unfold blength in *. rewrite length_firstn. lia.
Qed.

Lemma transform_sim (st : state) (P c R : Buffer) (pos : Z) :
  _length st = blength P -> Rep st P pos -> Valid ((P ++ c) ++ R) pos ->
  exists ev res,
    _transform checkHead st c = Some (ev, res) /\
    match res with
    | Crashed e => Ref ((P ++ c) ++ R) (core_of st) pos ev (Some e)
    | Running st' =>
        _length st' = blength (P ++ c) /\
        exists pos',
          Rep st' (P ++ c) pos' /\ Valid ((P ++ c) ++ R) pos' /\
          (exists f'', astep (P ++ c) (core_of st') pos' = AStop f'' []) /\
          forall ev2 oe,
            Ref ((P ++ c) ++ R) (core_of st') pos' ev2 oe ->
            Ref ((P ++ c) ++ R) (core_of st) pos (ev ++ ev2) oe
    end.
Proof.
  intros HL HR HV.
  destruct (Rep_split _ _ _ HR) as (pre & HP & Hpre).
  destruct HR as (Hc & Hrem & Hmode).
  pose proof (blength_nonneg c) as Hcl.
  set (b := rem_bytes st ++ c).
  pose proof (f_equal blength HP) as HPl. rewrite blength_app in HPl.
  assert (HPc : P ++ c = pre ++ b) by (unfold b; rewrite HP at 1; now rewrite app_assoc).
  assert (Hb : blength b = blength P - _count st + blength c).
  { unfold b. rewrite blength_app. lia. }
  unfold _transform. rewrite transform_chunk. fold b.
  set (st1 := set_cursor st None (_length st + blength c) (_count st)).
  assert (C1 : core_of st1 = core_of st) by (now destruct st).
  rewrite HPc in *.
  destruct Hmode as [(Hs & ->)|(Hs & Hge & Hpos)].
  - (* no skip is pending *)
    replace (_skipUntil st1) with (@None num) by (now destruct st).
    destruct (walk_sim pre b R (S (List.length b)) st1 0 [])
      as (ev & res & W & Q).
    + lia.
    + now destruct st.
    + now destruct st.
    + now rewrite Hpre, Z.add_0_r.
    + unfold blength. lia.
    + exists ev, res. split; [exact W|].
      rewrite Hpre, Z.add_0_r, C1 in Q.
      destruct res as [st'|e]; [|exact Q].
      destruct Q as (L & Q). split; [|exact Q].
      rewrite L. cbn. rewrite blength_app. lia.
  - (* a skip is pending *)
    replace (_skipUntil st1) with (Some (Int pos)) by (now destruct st).
    rewrite truthy_pos by lia. cbn [andb _length st1 set_cursor].
    destruct (pos <? _length st + blength c) eqn:E.
    + (* this call crosses the skip target *)
      apply Z.ltb_lt in E.
      replace (_count (set_cursor st None (_length st + blength c) (_count st)))
        with (_count st) by (now destruct st).
      destruct (walk_sim pre b R (S (List.length b)) (set_skipUntil st1 None)
                         (pos - _count st) [])
        as (ev & res & W & Q).
      * lia.
      * now destruct st.
      * now destruct st.
      * rewrite Hpre. now replace (_count st + (pos - _count st)) with pos by lia.
      * unfold blength in *. lia.
      * exists ev, res. split; [exact W|].
        rewrite Hpre in Q.
        replace (_count st + (pos - _count st)) with pos in Q by lia.
        replace (core_of (set_skipUntil st1 None)) with (core_of st) in Q
          by (now destruct st).
        destruct res as [st'|e]; [|exact Q].
        destruct Q as (L & Q). split; [|exact Q].
        rewrite L. cbn. rewrite blength_app. lia.
    + (* the skip target is still ahead *)
      apply Z.ltb_ge in E.
      eexists [], _. split; [reflexivity|].
      cbn [_length set_cursor _count].
      split; [rewrite blength_app; lia|].
      exists pos. split; [|split; [exact HV|split]].
      * unfold Rep. cbn [rem_bytes _remainder _count _skipUntil set_cursor].
        replace (_count st1) with (_count st) by (now destruct st).
        replace (_skipUntil st1) with (Some (Int pos)) by (now destruct st).
        rewrite blength_app, Hpre.
        split; [lia|]. split.
        -- rewrite slice_from_inside by (rewrite blength_app; lia).
           symmetry. apply skipn_all2. unfold blength in *.
           rewrite length_app. lia.
        -- right. split; [reflexivity|]. rewrite HL in E. lia.
      * eexists. apply astep_at_end. rewrite blength_app. lia.
      * intros ev2 oe H. cbn [app].
        now replace (core_of (set_cursor (set_cursor st None (_length st + blength c)
                                            (_count st)) None
                                (_length st + blength c) (_count st + blength b)))
          with (core_of st) in H by (now destruct st).
Qed.

Lemma feed_sim (f0 : core) (chunks : list Buffer) :
  forall st P E pos,
    _length st = blength P -> Rep st P pos ->
    Valid (P ++ List.concat chunks) pos ->
    (exists f'', astep P (core_of st) pos = AStop f'' []) ->
    (forall ev2 oe, Ref (P ++ List.concat chunks) (core_of st) pos ev2 oe ->
                    Ref (P ++ List.concat chunks) f0 0 (E ++ ev2) oe) ->
    exists ev s,
      feed checkHead st chunks = Some (ev, s) /\
      Ref (P ++ List.concat chunks) f0 0 (E ++ ev) (err_of s).
Proof.
  induction chunks as [|c chunks IH]; intros st P E pos HL HR HV [f'' HS] HH.
  - exists [], (Running st). split; [reflexivity|].
    apply HH. cbn [List.concat] in *. rewrite app_nil_r in *.
    eapply Ref_stop. exact HS.
  - cbn [List.concat] in *. rewrite app_assoc in *.
    destruct (transform_sim st P c (List.concat chunks) pos HL HR HV)
      as (ev1 & res & W & Q).
    cbn [feed]. rewrite W.
    destruct res as [st'|e].
    + destruct Q as (L & pos' & Rp & Vp & St & Hi).
      destruct (IH st' (P ++ c) (E ++ ev1) pos' L Rp Vp St) as (ev & s & F & Rf).
      { intros ev2 oe H. rewrite <- (app_assoc E ev1 ev2). apply HH, Hi, H. }
      rewrite F. exists (ev1 ++ ev), s. split; [reflexivity|].
      rewrite (app_assoc E ev1 ev). exact Rf.
    + exists ev1, (Crashed e). split; [reflexivity|]. apply HH, Q.
Qed.

Lemma Rep_fresh : Rep fresh [] 0.
Proof.
  unfold Rep. cbn. repeat split; try lia. left. auto.
Qed.

(** Feeding a valid stream in chunks pushes what feeding it at once pushes. *)
Lemma feed_chunked (chunks : list Buffer) :
  Valid (List.concat chunks) 0 ->
  exists ev s1 s2,
    feed checkHead fresh chunks = Some (ev, s1) /\
    _transform checkHead fresh (List.concat chunks) = Some (ev, s2) /\
    err_of s1 = err_of s2.
Proof.
  intros HV.
  set (T := List.concat chunks) in *.
  set (f0 := core_of fresh).
  destruct (feed_sim f0 chunks fresh [] [] 0 eq_refl Rep_fresh HV) as (ev & s1 & F1 & R1).
  { eexists. apply astep_at_end. cbn. lia. }
  { intros ev2 oe H. exact H. }
  destruct (feed_sim f0 [T] fresh [] [] 0 eq_refl Rep_fresh) as (ev' & s2 & F2 & R2).
  { cbn [List.concat app]. now rewrite app_nil_r. }
  { eexists. apply astep_at_end. cbn. lia. }
  { intros ev2 oe H. exact H. }
  cbn [List.concat app] in R1, R2. rewrite app_nil_r in R2. fold T in R1.
  destruct (Ref_deterministic _ _ _ _ _ R1 _ _ R2) as [-> He].
  cbn [feed] in F2.
  destruct (_transform checkHead fresh T) as [[out [st'|e]]|] eqn:W; try discriminate.
  - injection F2 as <- <-. rewrite app_nil_r in *.
    exists out, s1, (Running st'). auto.
  - injection F2 as <- <-.
    exists out, s1, (Crashed e). auto.
Qed.

End Hook.

Lemma valid_from_sound (fuel : nat) (T : Buffer) :
  forall pos, 0 <= pos -> valid_from fuel T pos = true -> Valid T pos.
Proof.
  induction fuel as [|fuel IH]; intros pos Hp H; [discriminate|].
  cbn [valid_from] in H.
  constructor; [exact Hp| |].
  - intros id o2 dl Hh T'. rewrite Hh in H.
    destruct dl as [d|]; [|discriminate].
    exists d. split; [reflexivity|].
    apply andb_true_iff in H. destruct H as [H _].
    destruct (TAGS id) as [[|]|]; try congruence; now apply Z.leb_le.
  - intros id o2 d Hh. rewrite Hh in H.
    apply andb_true_iff in H. destruct H as [H1 H2].
    apply IH; [|exact H2].
    pose proof (header_Some _ _ _ _ _ Hh) as (B1 & _).
    unfold next_pos. destruct (TAGS id) as [[|]|]; try lia;
      apply Z.leb_le in H1; lia.
Qed.

Lemma valid_ebml_sound (T : Buffer) : valid_ebml T = true -> Valid T 0.
Proof. apply valid_from_sound. lia. Qed.

End WebmStep.

(** C1.  Chunked input.  For the Ogg reader and any byte stream, writing the
    stream in any number of chunks of any sizes (one byte each, for instance)
    emits the events, and leaves the state or throws the exception, of one call
    on the whole stream.  For the WebM walker, with any [_checkHead] hook and
    any stream whose size fields of leaves and unknown elements are read as
    non-negative numbers, the chunked run and the single call both return,
    push the same packets in the same order and end alike (no exception, or
    the same one), wherever the chunk boundaries fall, inside a skipped
    unknown element as well. *)
Theorem chunked_feeding_is_single_call
        (c : Buffer) (chunks : list Buffer)
        (checkHead : Buffer -> WebmBaseDemuxer.error + list Buffer)
        (wchunks : list Buffer) :
  (OggDemuxer.feed OggDemuxer.fresh (c :: chunks)
   = OggDemuxer._transform OggDemuxer.fresh (List.concat (c :: chunks)) /\
   exists r, OggDemuxer._transform OggDemuxer.fresh (List.concat (c :: chunks)) = Some r) /\
  (WebmWalk.valid_ebml (List.concat wchunks) = true ->
   exists pushed s1 s2,
     WebmBaseDemuxer.feed checkHead WebmBaseDemuxer.fresh wchunks = Some (pushed, s1) /\
     WebmBaseDemuxer._transform checkHead WebmBaseDemuxer.fresh (List.concat wchunks)
     = Some (pushed, s2) /\
     WebmWalk.err_of s1 = WebmWalk.err_of s2).
Proof.
  split.
  - split; [apply OggStream.feed_concat|apply OggStream.transform_total].
  - intros H. apply WebmStep.feed_chunked. now apply WebmStep.valid_ebml_sound.
Qed.

(** ** The Ogg page reader: pages that cannot be read yet *)

Module OggStall.
Import OggDemuxer OggView OggFacts OggStream.

Lemma header_present_app (buf more : Buffer) (n : Z) :
  header_present buf n ->
  header_present (buf ++ more) n /\
  slice (buf ++ more) 27 (27 + n) = slice buf 27 (27 + n).
Proof.
  intros (H1 & H2 & H3 & H4).
  pose proof (readUInt8_range _ _ _ H3) as Hn.
  pose proof (blength_nonneg more) as Hm.
  split; [|apply slice_app_l; lia].
  unfold header_present. rewrite blength_app.
  rewrite slice_app_l, !readUInt8_app by lia. repeat split; auto. lia.
Qed.

(** With the header present, [_readPage] returns [false] when the table ends
    inside a lacing run or when the payload is not all there. *)
Lemma readPage_stall (st : state) (buf : Buffer) (n : Z) :
  header_present buf n ->
  match lacing (slice buf 27 (27 + n)) None with
  | None => True
  | Some sizes => blength buf < 27 + n + totalSize sizes
  end ->
  _readPage st buf = False_.
Proof.
  intros (H1 & H2 & H3 & H4) HL.
  pose proof (readUInt8_range _ _ _ H3) as Hn.
  pose proof (readPage_no_RangeError st buf) as NR. revert NR.
  unfold _readPage, OGG_PAGE_HEADER_SIZE, STREAM_STRUCTURE_VERSION.
  destruct (blength buf <? 26) eqn:E1; [reflexivity|].
  rewrite H1, H2. cbn [negb Z.eqb].
  destruct (blength buf <? 27) eqn:E5; [reflexivity|].
  rewrite H3.
  destruct (blength buf <? 27 + n) eqn:E7; [reflexivity|].
  destruct (readUInt32BE buf 14) as [bs|]; [|congruence].
  destruct (lacing (slice buf 27 (27 + n)) None) as [sizes|]; [|reflexivity].
  destruct (blength buf <? 27 + n + totalSize sizes) eqn:E10; [reflexivity|].
  apply Z.ltb_ge in E10. lia.
Qed.

Lemma pending_app (st : state) (chunk more : Buffer) :
  pending st (chunk ++ more) = pending st chunk ++ more.
Proof. unfold pending. destruct (_remainder st); [now rewrite app_assoc|reflexivity]. Qed.

(** A page that cannot be read keeps the reader where it is: later chunks are
    appended to what is kept, nothing is emitted, nothing is thrown. *)
Lemma feed_stalled (st : state) (chunk : Buffer) (later : list Buffer) :
  _readPage (cleared st) (pending st chunk ++ List.concat later) = False_ ->
  feed st (chunk :: later)
  = Some ([], Running (mkState (Some (pending st chunk ++ List.concat later))
                               (_head st) (_bitstream st))).
Proof.
  intros H. rewrite feed_concat. cbn [List.concat].
  rewrite transform_unfold, pending_app. cbn [pages]. now rewrite H.
Qed.

End OggStall.

(** C9.  A buffer holds a complete page header (capture pattern, version 0) and
    a complete segment table whose last entry is 255.  Then [_readPage] returns
    [false] for it, whatever follows the table: the page is never consumed,
    and every later chunk is only appended to the bytes kept, with no event and
    no exception. *)
Theorem unterminated_lacing_stalls
        (st : OggDemuxer.state) (chunk : Buffer) (pageSegments : Z) (table : list byte) :
  let buf := OggView.pending st chunk in
  OggView.header_present buf pageSegments ->
  slice buf 27 (27 + pageSegments) = table ++ [xff] ->
  (forall st' more, OggDemuxer._readPage st' (buf ++ more) = OggDemuxer.False_) /\
  (forall later,
      OggDemuxer.feed st (chunk :: later)
      = Some ([], Running (OggDemuxer.mkState (Some (buf ++ List.concat later))
                                               (OggDemuxer._head st)
                                               (OggDemuxer._bitstream st)))).
Proof.
  intros buf H T.
  assert (A : forall st' more, OggDemuxer._readPage st' (buf ++ more) = OggDemuxer.False_).
  { intros st' more.
    destruct (OggStall.header_present_app buf more pageSegments H) as [H' S'].
    apply (OggStall.readPage_stall st' _ pageSegments H').
    rewrite S', T. now rewrite OggFacts.lacing_open_run. }
  split; [exact A|].
  intros later. apply OggStall.feed_stalled. apply A.
Qed.

Lemma unterminated_lacing_stalls_witness :
  OggView.header_present (OggView.pending OggDemuxer.fresh Samples.open_run_page) 2 /\
  slice (OggView.pending OggDemuxer.fresh Samples.open_run_page) 27 (27 + 2) = [x0a] ++ [xff] /\
  OggDemuxer._readPage OggDemuxer.fresh (Samples.open_run_page ++ repeat x2a 1000)
  = OggDemuxer.False_ /\
  OggDemuxer.feed OggDemuxer.fresh [Samples.open_run_page; [x2a]; repeat x2a 500]
  = Some ([], Running (OggDemuxer.mkState
                         (Some (Samples.open_run_page ++ List.concat [[x2a]; repeat x2a 500]))
                         None None)).
Proof.
  assert (H1 : OggView.header_present (OggView.pending OggDemuxer.fresh Samples.open_run_page) 2)
    by (vm_compute; repeat split; discriminate).
  assert (H2 : slice (OggView.pending OggDemuxer.fresh Samples.open_run_page) 27 (27 + 2)
               = [x0a] ++ [xff]) by (vm_compute; reflexivity).
  split; [exact H1|]. split; [exact H2|].
  destruct (unterminated_lacing_stalls OggDemuxer.fresh Samples.open_run_page 2 [x0a] H1 H2)
    as [A B].
  split; [apply (A OggDemuxer.fresh (repeat x2a 1000))|].
  apply (B [[x2a]; repeat x2a 500]).
Defined.

(** ** Segments of a page once the head is recorded *)

Module OggRouting.
Import OggDemuxer Samples.

(** With a head recorded, the only segment reported as tags is the one that is
    exactly the seven bytes of [OPUS_TAGS]: the header compared with it has
    eight bytes whenever the segment has eight or more. *)
Lemma tags_header_exact (segment : Buffer) :
  equals (slice segment 0 8) OPUS_TAGS = true <-> segment = OPUS_TAGS.
Proof.
  rewrite equals_eq. split.
  - intros H. pose proof (f_equal blength H) as L.
    destruct (Z.le_gt_cases 8 (blength segment)) as [G|G].
    + rewrite blength_slice in L by lia. vm_compute in L. discriminate.
    + rewrite slice_clamped in H by (pose proof (blength_nonneg segment); lia).
      exact H.
  - intros ->. reflexivity.
Qed.

Lemma route_tags_exact (st : state) (bitstream : Z) (segment : Buffer) h :
  _head st = Some h ->
  (route st bitstream segment = (st, [Emit_tags segment]) <-> segment = OPUS_TAGS).
Proof.
  intros Hh. unfold route. rewrite Hh.
  pose proof (tags_header_exact segment) as E.
  destruct (equals (slice segment 0 8) OPUS_TAGS) eqn:Q.
  - split; [intros _; now apply E|reflexivity].
  - split; [|intros H; apply E in H; discriminate].
    destruct (match _bitstream st with Some b => b =? bitstream | None => false end);
      discriminate.
Qed.

End OggRouting.

(** C2.  The code at a comment packet.  The head is recorded and the page
    belongs to the pinned stream; its one segment begins with "OpusTags".  The
    reader pushes the segment as an audio packet and emits no tags event:
    [OPUS_TAGS] is the seven bytes "OpusTag", which the eight-byte header of the
    segment never equals. *)
Theorem comment_packet_pushed_as_audio :
  OggDemuxer._transform Samples.head_recorded Samples.comment_page
  = Some ([OggDemuxer.Push Samples.comment_packet],
          Running (OggDemuxer.mkState (Some []) (OggDemuxer._head Samples.head_recorded)
                                      (Some 7))) /\
  slice Samples.comment_packet 0 8 = Buffer_from "OpusTags" /\
  OggDemuxer.OPUS_TAGS = Buffer_from "OpusTag".
Proof. vm_compute. repeat split. Qed.

(** ** Teardown *)

Module Teardown.
Import WebmBaseDemuxer Samples.

Lemma interrupted_reached :
  _transform OpusWebmDemuxer._checkHead fresh interrupted_stream
  = Some ([], Running interrupted).
Proof. vm_compute. reflexivity. Qed.

End Teardown.

(** C7, the code against the claim.  Teardown ([_destroy], also on an upstream
    error, and [_final]) pushes nothing, and the Ogg reader is left as new: no
    residual buffer, no head, no pinned bitstream id.  The [cleanup] of the
    WebM walker clears the residual buffer and the in-progress track
    descriptor and nothing else: the walker is as new after teardown only if
    its resolved track, skip target, byte counts and root-tag flag were unset
    before.  After teardown of a walker that has read a track entry and the
    start of an unknown element, the resolved track, the pending skip target,
    the two byte counts and the root-tag flag are all still there. *)
Theorem webm_teardown_keeps_state :
  (forall ost : OggDemuxer.state,
     OggDemuxer._final ost = (OggDemuxer.fresh, []) /\
     OggDemuxer._destroy ost = (OggDemuxer.fresh, [])) /\
  (forall wst : WebmBaseDemuxer.state,
     WebmBaseDemuxer._destroy wst = WebmBaseDemuxer._final wst /\
     snd (WebmBaseDemuxer._final wst) = [] /\
     (fst (WebmBaseDemuxer._final wst) = WebmBaseDemuxer.fresh <->
      WebmBaseDemuxer._track wst = None /\
      WebmBaseDemuxer._skipUntil wst = None /\
      WebmBaseDemuxer._count wst = 0 /\
      WebmBaseDemuxer._length wst = 0 /\
      WebmBaseDemuxer._ebmlFound wst = false)) /\
  WebmBaseDemuxer._transform OpusWebmDemuxer._checkHead WebmBaseDemuxer.fresh
                             Samples.interrupted_stream
  = Some ([], Running Samples.interrupted) /\
  let st := fst (WebmBaseDemuxer._final Samples.interrupted) in
  WebmBaseDemuxer._track st = Some (WebmBaseDemuxer.mkTrack (Some 1) (Some 2)) /\
  WebmBaseDemuxer._skipUntil st = Some (Int 23) /\
  WebmBaseDemuxer._count st = 13 /\
  WebmBaseDemuxer._length st = 18 /\
  WebmBaseDemuxer._ebmlFound st = true /\
  st <> WebmBaseDemuxer.fresh.
Proof.
  split; [intros ost; split; reflexivity|].
  split.
  - intros [r len cnt sk tr inc found]. split; [reflexivity|]. split; [reflexivity|].
    unfold WebmBaseDemuxer._final, WebmBaseDemuxer.cleanup, WebmBaseDemuxer.fresh.
    cbn [fst WebmBaseDemuxer._length WebmBaseDemuxer._count WebmBaseDemuxer._skipUntil
         WebmBaseDemuxer._track WebmBaseDemuxer._ebmlFound].
    split.
    + intros H. injection H as -> -> -> -> ->. repeat split.
    + intros (-> & -> & -> & -> & ->). reflexivity.
  - split; [apply Teardown.interrupted_reached|].
    cbn. repeat split. discriminate.
Qed.

(** ** The Vorbis head *)

Module VorbisHead.
Import WebmBaseDemuxer VorbisWebmDemuxer Samples.

Lemma firstn_blength (a b : Buffer) (n : Z) :
  blength a = n -> firstn (Z.to_nat n) (a ++ b) = a.
Proof.
  intros <-. unfold blength. rewrite Nat2Z.id.
  rewrite firstn_app, Nat.sub_diag, firstn_O, app_nil_r. apply firstn_all.
Qed.

Lemma skipn_blength (a b : Buffer) (n : Z) :
  blength a = n -> skipn (Z.to_nat n) (a ++ b) = b.
Proof.
  intros <-. unfold blength. rewrite Nat2Z.id.
  rewrite skipn_app, Nat.sub_diag, skipn_all. reflexivity.
Qed.

End VorbisHead.

(** C3, as the claim states it, fails: with "vorbis" right after the bytes
    2, 3, 4, the bytes 4 to 9 of the payload are "orbis" and one more byte, and
    the hook throws the codec-mismatch error. *)
Lemma vorbis_claimed_payload_rejected :
  VorbisWebmDemuxer._checkHead Samples.claimed_payload
  = inl WebmBaseDemuxer.NotVorbisError /\
  ~ exists pushed, VorbisWebmDemuxer._checkHead Samples.claimed_payload = inr pushed.
Proof.
  split; [vm_compute; reflexivity|].
  intros [pushed H]. vm_compute in H. discriminate.
Qed.

(** C3, amended.  The payload is [2, n1, n2] followed by three headers [h1],
    [h2], [h3], where [h1] has [n1] bytes and [h2] has [n2] bytes, and the bytes
    4 to 9 of the payload are "vorbis" (so the signature begins at the second
    byte of [h1]).  Then the hook throws nothing and pushes exactly the three
    packets [h1], [h2], [h3], in that order, of [n1], [n2] and the remaining
    number of bytes. *)
Theorem vorbis_head_three_packets (n1 n2 : byte) (h1 h2 h3 : Buffer) :
  let data := [x02; n1; n2] ++ h1 ++ h2 ++ h3 in
  blength h1 = byteval n1 -> blength h2 = byteval n2 ->
  slice data 4 10 = VorbisWebmDemuxer.VORBIS_HEAD ->
  VorbisWebmDemuxer._checkHead data = inr [h1; h2; h3].
Proof.
  intros data H1 H2 Hs. unfold VorbisWebmDemuxer._checkHead.
  change (readUInt8 data 0) with (Some 2).
  change (readUInt8 data 1) with (Some (byteval n1)).
  change (readUInt8 data 2) with (Some (byteval n2)).
  rewrite Hs, equals_refl. cbn [negb orb Z.eqb Pos.eqb].
  pose proof (byteval_range n1) as R1. pose proof (byteval_range n2) as R2.
  pose proof (blength_nonneg h3) as R3.
  assert (L : blength data = 3 + byteval n1 + byteval n2 + blength h3).
  { unfold data. rewrite !blength_app, H1, H2. change (blength [x02; n1; n2]) with 3. lia. }
  assert (S3 : forall k, skipn (Z.to_nat (3 + k)) data = skipn (Z.to_nat k) (h1 ++ h2 ++ h3)
                         \/ k < 0).
  { intros k. destruct (Z.lt_ge_cases k 0) as [N|N]; [now right|left].
    replace (Z.to_nat (3 + k)) with (3 + Z.to_nat k)%nat by lia. reflexivity. }
  rewrite WebmFacts.slice_nonneg by lia. rewrite WebmFacts.slice_nonneg by lia.
  rewrite slice_from_inside by lia.
  change (skipn (Z.to_nat 3) data) with (h1 ++ h2 ++ h3).
  destruct (S3 (byteval n1)) as [-> |]; [|lia].
  destruct (S3 (byteval n1 + byteval n2)) as [E |]; [|lia].
  replace (3 + byteval n1 + byteval n2) with (3 + (byteval n1 + byteval n2)) by lia.
  rewrite E.
  replace (3 + byteval n1 - 3) with (byteval n1) by lia.
  replace (3 + (byteval n1 + byteval n2) - (3 + byteval n1)) with (byteval n2) by lia.
  rewrite (VorbisHead.firstn_blength h1 _ _ H1).
  rewrite (VorbisHead.skipn_blength h1 _ _ H1).
  rewrite (VorbisHead.firstn_blength h2 _ _ H2).
  rewrite app_assoc.
  rewrite (VorbisHead.skipn_blength (h1 ++ h2) h3 (byteval n1 + byteval n2))
    by (rewrite blength_app; lia).
  reflexivity.
Qed.

Lemma vorbis_head_three_packets_witness :
  let h1 := [x01; "v"%byte; "o"%byte] in
  let h2 := Buffer_from "rbis" in
  let h3 := [x05; x2a; x2b; x2c; x2d] in
  blength h1 = byteval x03 /\ blength h2 = byteval x04 /\
  slice ([x02; x03; x04] ++ h1 ++ h2 ++ h3) 4 10 = VorbisWebmDemuxer.VORBIS_HEAD /\
  VorbisWebmDemuxer._checkHead ([x02; x03; x04] ++ h1 ++ h2 ++ h3) = inr [h1; h2; h3].
Proof.
  intros h1 h2 h3.
  split; [reflexivity|]. split; [reflexivity|]. split; [reflexivity|].
  apply (vorbis_head_three_packets x03 x04 h1 h2 h3); reflexivity.
Defined.

(** ** Variable-length integers against their description *)

Module VintSpec.
Import WebmBaseDemuxer VintDescribed Samples.

(** For a first byte with a set bit, [vintLength] finds the described length,
    which lies between 1 and 8. *)
Lemma vint_scan_described (first : byte) :
  byteval first <> 0 ->
  vint_scan 8 0 (Some first) + 1 = described_length first /\
  1 <= described_length first <= 8.
Proof.
  destruct first; vm_compute; intros H; try (exfalso; apply H; reflexivity);
    repeat split; discriminate.
Qed.

Lemma ToInt32_small (z : Z) : - 2 ^ 31 <= z < 2 ^ 31 -> ToInt32 z = z.
Proof.
  intros H. unfold ToInt32.
  destruct (Z.le_gt_cases 0 z) as [P|N].
  - rewrite Z.mod_small by lia.
    destruct (2 ^ 31 <=? z) eqn:E; [apply Z.leb_le in E; lia|reflexivity].
  - replace (z mod 2 ^ 32) with (z + 2 ^ 32).
    + destruct (2 ^ 31 <=? z + 2 ^ 32) eqn:E; [lia|apply Z.leb_gt in E; lia].
    + apply Z.mod_unique with (q := -1); lia.
Qed.

Lemma shl_8_small (v : Z) : 0 <= v -> v * 256 < 2 ^ 31 -> shl v 8 = v * 256.
Proof.
  intros H1 H2. unfold shl. change (Z.land 8 31) with 8.
  rewrite (ToInt32_small v) by lia.
  rewrite Z.shiftl_mul_pow2 by lia. change (2 ^ 8) with 256.
  apply ToInt32_small. lia.
Qed.

Lemma big_endian_lower (bytes : list byte) :
  forall acc, 0 <= acc -> acc <= big_endian acc bytes.
Proof.
  induction bytes as [|b bytes IH]; intros acc H; cbn; [lia|].
  pose proof (byteval_range b) as R.
  specialize (IH (acc * 256 + byteval b) ltac:(lia)).
  unfold big_endian in IH. lia.
Qed.

(** The loop of [expandVint] concatenates the bytes big-endian as long as the
    value stays below 2^31. *)
Lemma expand_loop_big_endian (buffer : Buffer) (bytes : list byte) :
  forall i v,
    0 <= v -> big_endian v bytes < 2 ^ 31 ->
    (forall k, (k < List.length bytes)%nat ->
               get buffer (i + Z.of_nat k) = nth_error bytes k) ->
    expand_loop buffer (List.length bytes) i (Int v) = Int (big_endian v bytes).
Proof.
  induction bytes as [|b bytes IH]; intros i v Hv Hb Hg; [reflexivity|].
  cbn [List.length expand_loop big_endian fold_left].
  pose proof (Hg 0%nat ltac:(cbn; lia)) as G0. rewrite Z.add_0_r in G0.
  rewrite G0. cbn [nth_error add_elem int32_of_number].
  pose proof (byteval_range b) as R.
  pose proof (big_endian_lower bytes (v * 256 + byteval b) ltac:(lia)) as Lo.
  cbn [big_endian fold_left] in Hb. fold (big_endian (v * 256 + byteval b) bytes) in Hb.
  rewrite (ToInt32_small v) by lia.
  rewrite shl_8_small by lia.
  apply IH; [lia|exact Hb|].
  intros k Hk. specialize (Hg (S k) ltac:(cbn; lia)).
  cbn [nth_error] in Hg. rewrite <- Hg. f_equal. lia.
Qed.

Lemma mask_described (first : byte) :
  byteval first <> 0 ->
  band (byteval first) (shl 1 (8 - described_length first) - 1)
  = Z.land (byteval first) (2 ^ (8 - described_length first) - 1).
Proof.
  destruct first; vm_compute; intros H; try (exfalso; apply H; reflexivity);
    reflexivity.
Qed.

(** What [expandVint] gets right: a size field that starts with a set bit and
    whose described value is below 2^31 is decoded to that value. *)
Lemma expandVint_described (pre post : Buffer) (first : byte) (others : list byte) :
  byteval first <> 0 ->
  blength (first :: others) = described_length first ->
  described_value (first :: others) < 2 ^ 31 ->
  let buffer := pre ++ (first :: others) ++ post in
  vintLength buffer (blength pre) = Some (described_length first) /\
  expandVint buffer (blength pre) (blength pre + described_length first)
  = Some (Int (described_value (first :: others))).
Proof.
  intros Hf HL Hv buffer.
  destruct (vint_scan_described first Hf) as [Sc Rg].
  pose proof (blength_nonneg pre) as Hp. pose proof (blength_nonneg post) as Hq.
  assert (G0 : get buffer (blength pre) = Some first).
  { unfold buffer. rewrite <- (Z.add_0_r (blength pre)). now rewrite get_app_r by lia. }
  assert (Lb : blength buffer = blength pre + described_length first + blength post).
  { unfold buffer. rewrite !blength_app. lia. }
  assert (VL : vintLength buffer (blength pre) = Some (described_length first)).
  { unfold vintLength. rewrite G0, Sc.
    destruct (_ <? _) eqn:E; [apply Z.ltb_lt in E; lia|reflexivity]. }
  split; [exact VL|].
  unfold expandVint. rewrite VL.
  destruct (_ <? _) eqn:E; [apply Z.ltb_lt in E; lia|].
  rewrite G0. cbn [int32_of_elem]. rewrite mask_described by exact Hf.
  replace (Z.to_nat (blength pre + described_length first - (blength pre + 1)))
    with (List.length others).
  2:{ unfold blength in HL. cbn [List.length] in HL. lia. }
  f_equal. apply expand_loop_big_endian.
  - apply Z.land_nonneg. left. pose proof (byteval_range first). lia.
  - exact Hv.
  - intros k Hk. unfold buffer.
    replace (blength pre + 1 + Z.of_nat k) with (blength pre + (1 + Z.of_nat k)) by lia.
    rewrite get_app_r by lia.
    unfold get. destruct (1 + Z.of_nat k <? 0) eqn:N; [apply Z.ltb_lt in N; lia|].
    replace (Z.to_nat (1 + Z.of_nat k)) with (S k) by lia.
    cbn [app nth_error]. now rewrite nth_error_app1 by lia.
Qed.

End VintSpec.

(** C4.  The code at two fields.  The two examples of the specification are
    decoded as described.  The five bytes 08 80 00 00 00 have the described
    length 5 and the described value 2^31; [expandVint] returns -2^31 for
    them, because [value << 8] is a 32-bit operation.  For a first byte 00
    [vintLength] returns 9, outside of 1 to 8. *)
Theorem vint_value_wraps_at_32_bits :
  (WebmBaseDemuxer.vintLength [x81] 0 = Some 1 /\
   WebmBaseDemuxer.expandVint [x81] 0 1 = Some (Int 1) /\
   WebmBaseDemuxer.vintLength [x41; x02] 0 = Some 2 /\
   WebmBaseDemuxer.expandVint [x41; x02] 0 2 = Some (Int 258)) /\
  (WebmBaseDemuxer.vintLength Samples.size_2_31 0 = Some 5 /\
   VintDescribed.described_length x08 = 5 /\
   VintDescribed.described_value Samples.size_2_31 = 2147483648 /\
   WebmBaseDemuxer.expandVint Samples.size_2_31 0 5 = Some (Int (-2147483648))) /\
  WebmBaseDemuxer.vintLength Samples.zero_first 0 = Some 9.
Proof. vm_compute. repeat split. Qed.

(** ** Track descriptors *)

Module WebmTracks.
Import WebmBaseDemuxer WebmWalk WebmFacts WebmStep Samples.

(** No leaf tag is the track-entry tag: [update_track] is only ever called
    with an [ebmlID] for which [TAGS] is [false]. *)
Lemma leaf_is_not_TrackEntry (ebmlID : Buffer) :
  TAGS ebmlID = Some false -> equals ebmlID ID_TrackEntry = false.
Proof.
  unfold TAGS.
  destruct (equals ebmlID ID_EBML); [discriminate|].
  destruct (equals ebmlID ID_Segment); [discriminate|].
  destruct (equals ebmlID ID_Cluster); [discriminate|].
  destruct (equals ebmlID ID_Tracks); [discriminate|].
  destruct (equals ebmlID ID_TrackEntry); [discriminate|reflexivity].
Qed.

Lemma promote_ok (st : state) (inc : Track) :
  tracks_ok (match type inc, number inc with
             | Some 2, Some _ => set_tracks st (Some inc) inc
             | _, _ => set_tracks st None inc
             end).
Proof.
  unfold tracks_ok, promotable. destruct inc as [n t].
  cbn [type number].
  destruct t as [[|[p|[p|p|]|]|p]|]; destruct n; unfold set_tracks; cbn;
    intros H; try discriminate H; reflexivity.
Qed.

Lemma update_track_ok (st : state) (id data : Buffer) :
  tracks_ok (update_track st id data).
Proof.
  unfold update_track.
  destruct (_track st) eqn:T; [unfold tracks_ok; congruence|].
  apply promote_ok.
Qed.

Section Hook.

Variable checkHead : Buffer -> error + list Buffer.

Local Abbreviation reachable := (WebmWalk.reachable checkHead).

Lemma tracks_ok_core (st st' : state) :
  core_of st' = core_of st -> tracks_ok st -> tracks_ok st'.
Proof.
  unfold core_of, tracks_ok. intros H. injection H as -> -> _. auto.
Qed.

Lemma dispatch_ok (st : state) chunk id off2 dl :
  tracks_ok st ->
  match dispatch checkHead st chunk id off2 dl with
  | Throw _ => True
  | TOO_SHORT st' => tracks_ok st'
  | Return st' _ _ => tracks_ok st'
  end.
Proof.
  intros H. unfold dispatch.
  pose proof (update_track_ok st id (slice_num chunk (Int off2) (add off2 dl))) as U.
  destruct (TAGS id) as [[|]|].
  - exact H.
  - destruct (gt _ _); [exact H|].
    destruct (equals id ID_CodecPrivate).
    + destruct (checkHead _); [exact I|exact U].
    + destruct (equals id ID_SimpleBlock); [|exact U].
      destruct (_track _); [|exact I].
      destruct (match number t with Some n => _ | None => false end); exact U.
  - destruct (gt _ _); exact H.
Qed.

Lemma readTag_ok (st : state) chunk offset :
  tracks_ok st ->
  match _readTag checkHead st chunk offset with
  | Throw _ => True
  | TOO_SHORT st' => tracks_ok st'
  | Return st' _ _ => tracks_ok st'
  end.
Proof.
  intros H. rewrite readTag_unfold.
  destruct (_readEBMLId chunk offset) as [[id o1]|]; [|exact H].
  destruct (negb (_ebmlFound st) && negb (equals id ID_EBML)); [exact I|].
  assert (H' : tracks_ok (set_ebmlFound st true)) by (now destruct st).
  destruct (_readTagDataSize chunk o1) as [[[o2 dl] sl]|]; [|exact H'].
  now apply dispatch_ok.
Qed.

Lemma reachable_ok (st : state) : reachable st -> tracks_ok st.
Proof.
  induction 1 as [|st chunk offset st' _ IH E|st chunk offset st' pushed t _ IH E
                  |st st' _ IH E|st _ IH].
  - intros _. reflexivity.
  - pose proof (readTag_ok st chunk offset IH) as K. now rewrite E in K.
  - pose proof (readTag_ok st chunk offset IH) as K. now rewrite E in K.
  - eapply tracks_ok_core; eauto.
  - intros _. reflexivity.
Qed.

(** Every state of a run is reachable. *)
Lemma walk_reachable (fuel : nat) :
  forall st chunk offset acc out st',
    reachable st ->
    walk checkHead fuel st chunk offset acc = Some (out, Running st') ->
    reachable st'.
Proof.
  induction fuel as [|fuel IH]; intros st chunk offset acc out st' R W; [discriminate|].
  cbn [walk] in W.
  destruct (_readTag checkHead st chunk offset) as [e|s1|s1 pushed t] eqn:E.
  - discriminate.
  - injection W as _ <-. eapply reach_cursor; [eapply reach_short; eauto|].
    now destruct s1.
  - assert (R1 : reachable s1) by (eapply reach_return; eauto).
    destruct (truthy_opt (tag_skipUntil t)).
    + injection W as _ <-. eapply reach_cursor; [exact R1|]. now destruct s1.
    + destruct (tag_offset t) as [o|].
      * destruct (truthy (Int o)); [eapply IH; eauto|].
        injection W as _ <-. eapply reach_cursor; [exact R1|]. now destruct s1.
      * injection W as _ <-. eapply reach_cursor; [exact R1|]. now destruct s1.
Qed.

Lemma transform_reachable (st : state) (chunk : Buffer) out st' :
  reachable st ->
  _transform checkHead st chunk = Some (out, Running st') ->
  reachable st'.
Proof.
  intros R. unfold _transform.
  set (c := match _remainder st with Some r => r ++ chunk | None => chunk end).
  set (st1 := set_cursor st None (_length st + blength chunk) (_count st)).
  assert (R1 : reachable st1) by (eapply reach_cursor; [exact R|now destruct st]).
  assert (R2 : reachable (set_skipUntil st1 None))
    by (eapply reach_cursor; [exact R|now destruct st]).
  destruct (_skipUntil st1) as [[s|]|]; try (apply walk_reachable; exact R1).
  destruct (truthy (Int s) && (s <? _length st + blength chunk)).
  - apply walk_reachable. exact R2.
  - destruct (truthy (Int s)); [|apply walk_reachable; exact R1].
    intros H. injection H as _ <-. eapply reach_cursor; [exact R|now destruct st].
Qed.

Lemma feed_reachable (chunks : list Buffer) :
  forall st out st',
    reachable st -> feed checkHead st chunks = Some (out, Running st') ->
    reachable st'.
Proof.
  induction chunks as [|c chunks IH]; intros st out st' R F; cbn [feed] in F.
  - injection F as _ <-. exact R.
  - destruct (_transform checkHead st c) as [[o1 [s1|e]]|] eqn:T; try discriminate.
    pose proof (transform_reachable _ _ _ _ R T) as R1.
    destruct (feed checkHead s1 chunks) as [[o2 s2]|] eqn:F2; [|discriminate].
    injection F as _ ->. eapply IH; eauto.
Qed.

End Hook.

End WebmTracks.

(** C8.  A track-entry tag never resets the in-progress descriptor.  When the
    id read is [ae], [_readTag] throws only for a missing root tag, and
    otherwise returns as soon as the size field is decoded (or [TOO_SHORT]
    without it), with both track descriptors untouched: the branch
    [ebmlID === 'ae'] lies behind the return for tags with children, and no
    leaf tag is [ae].  In [two_entries], the number 1 of the first entry and
    the type 2 of the second are promoted together as the audio track, so the
    block of track 1 is pushed and the block of track 2 is dropped. *)
Theorem track_entry_reset_unreachable
        (checkHead : Buffer -> WebmBaseDemuxer.error + list Buffer)
        (st : WebmBaseDemuxer.state) (chunk : Buffer) (offset offset1 : Z) :
  WebmBaseDemuxer._readEBMLId chunk offset = Some (WebmBaseDemuxer.ID_TrackEntry, offset1) ->
  match WebmBaseDemuxer._readTag checkHead st chunk offset with
  | WebmBaseDemuxer.Throw e =>
      e = WebmBaseDemuxer.NoEBMLTagError /\ WebmBaseDemuxer._ebmlFound st = false
  | WebmBaseDemuxer.TOO_SHORT st' =>
      WebmBaseDemuxer._incompleteTrack st' = WebmBaseDemuxer._incompleteTrack st /\
      WebmBaseDemuxer._track st' = WebmBaseDemuxer._track st /\
      WebmBaseDemuxer._readTagDataSize chunk offset1 = None
  | WebmBaseDemuxer.Return st' pushed t =>
      WebmBaseDemuxer._incompleteTrack st' = WebmBaseDemuxer._incompleteTrack st /\
      WebmBaseDemuxer._track st' = WebmBaseDemuxer._track st /\
      pushed = [] /\
      exists offset2 dataLength sizeLength,
        WebmBaseDemuxer._readTagDataSize chunk offset1
        = Some (offset2, dataLength, sizeLength) /\
        t = WebmBaseDemuxer.mkTag (Int offset2) None
  end /\
  (forall ebmlID, WebmBaseDemuxer.TAGS ebmlID = Some false ->
                  equals ebmlID WebmBaseDemuxer.ID_TrackEntry = false) /\
  exists st',
    WebmBaseDemuxer._transform checkHead WebmBaseDemuxer.fresh Samples.two_entries
    = Some ([[x2a]], Running st') /\
    WebmBaseDemuxer._track st' = Some (WebmBaseDemuxer.mkTrack (Some 1) (Some 2)).
Proof.
  intros H. split; [|split].
  - rewrite WebmStep.readTag_unfold, H.
    destruct (WebmBaseDemuxer._ebmlFound st) eqn:F; cbn [negb andb].
    + destruct (WebmBaseDemuxer._readTagDataSize chunk offset1) as [[[o2 dl] sl]|].
      * cbn. destruct st; cbn. repeat split. eauto.
      * destruct st; cbn. auto.
    + change (equals WebmBaseDemuxer.ID_TrackEntry WebmBaseDemuxer.ID_EBML) with false.
      cbn. auto.
  - apply WebmTracks.leaf_is_not_TrackEntry.
  - eexists. split; [vm_compute; reflexivity|reflexivity].
Qed.

Lemma track_entry_reset_unreachable_witness :
  let st := WebmBaseDemuxer.mkState None 13 13 None None
              (WebmBaseDemuxer.mkTrack (Some 1) (Some 1)) true in
  let chunk := [xae; x86; x83; x81; x02; xd7; x81; x02] in
  WebmBaseDemuxer._readEBMLId chunk 0 = Some (WebmBaseDemuxer.ID_TrackEntry, 1) /\
  exists st' pushed t,
    WebmBaseDemuxer._readTag OpusWebmDemuxer._checkHead st chunk 0
    = WebmBaseDemuxer.Return st' pushed t /\
    WebmBaseDemuxer._incompleteTrack st' = WebmBaseDemuxer.mkTrack (Some 1) (Some 1) /\
    pushed = [].
Proof.
  intros st chunk.
  assert (H : WebmBaseDemuxer._readEBMLId chunk 0 = Some (WebmBaseDemuxer.ID_TrackEntry, 1))
    by reflexivity.
  split; [exact H|].
  pose proof (track_entry_reset_unreachable OpusWebmDemuxer._checkHead st chunk 0 1 H)
    as [K _].
  destruct (WebmBaseDemuxer._readTag OpusWebmDemuxer._checkHead st chunk 0)
    as [e|s'|s' pu t] eqn:E; vm_compute in E; try discriminate E.
  destruct K as (K1 & _ & K3 & _).
  exists s', pu, t. split; [reflexivity|]. split; [exact K1|exact K3].
Defined.

(** C6.  A simple block that is all in the buffer, read in a state in which the
    root tag has been seen and no audio track is resolved: [_readTag] throws
    the no-audio-track error, and so does the walk that reaches the block.  The
    state is any state of a run of the demuxer. *)
Theorem block_before_track_throws
        (checkHead : Buffer -> WebmBaseDemuxer.error + list Buffer)
        (st : WebmBaseDemuxer.state) (chunk : Buffer) (offset offset1 offset2 : Z)
        (dataLength : num) (sizeLength : Z) :
  WebmWalk.reachable checkHead st ->
  WebmBaseDemuxer._track st = None ->
  WebmBaseDemuxer._ebmlFound st = true ->
  WebmBaseDemuxer._readEBMLId chunk offset = Some (WebmBaseDemuxer.ID_SimpleBlock, offset1) ->
  WebmBaseDemuxer._readTagDataSize chunk offset1 = Some (offset2, dataLength, sizeLength) ->
  gt (add offset2 dataLength) (Int (blength chunk)) = false ->
  WebmBaseDemuxer._readTag checkHead st chunk offset
  = WebmBaseDemuxer.Throw WebmBaseDemuxer.NoAudioTrackError /\
  forall fuel acc,
    WebmBaseDemuxer.walk checkHead (S fuel) st chunk offset acc
    = Some (acc, Crashed WebmBaseDemuxer.NoAudioTrackError).
Proof.
  intros R T F E1 E2 G.
  assert (A : WebmBaseDemuxer._readTag checkHead st chunk offset
              = WebmBaseDemuxer.Throw WebmBaseDemuxer.NoAudioTrackError).
  { rewrite WebmStep.readTag_unfold, E1, F, E2. cbn [negb andb].
    unfold WebmWalk.dispatch.
    change (WebmBaseDemuxer.TAGS WebmBaseDemuxer.ID_SimpleBlock) with (Some false).
    rewrite G.
    change (equals WebmBaseDemuxer.ID_SimpleBlock WebmBaseDemuxer.ID_CodecPrivate)
      with false.
    change (equals WebmBaseDemuxer.ID_SimpleBlock WebmBaseDemuxer.ID_SimpleBlock)
      with true.
    pose proof (WebmTracks.reachable_ok checkHead st R T) as P.
    unfold WebmBaseDemuxer.update_track.
    replace (WebmBaseDemuxer._track (WebmBaseDemuxer.set_ebmlFound st true))
      with (@None WebmBaseDemuxer.Track) by (now destruct st).
    change (equals WebmBaseDemuxer.ID_SimpleBlock WebmBaseDemuxer.ID_TrackEntry) with false.
    change (equals WebmBaseDemuxer.ID_SimpleBlock WebmBaseDemuxer.ID_TrackNumber) with false.
    change (equals WebmBaseDemuxer.ID_SimpleBlock WebmBaseDemuxer.ID_TrackType) with false.
    replace (WebmBaseDemuxer._incompleteTrack (WebmBaseDemuxer.set_ebmlFound st true))
      with (WebmBaseDemuxer._incompleteTrack st) by (now destruct st).
    unfold WebmWalk.promotable in P.
    destruct (WebmBaseDemuxer.type (WebmBaseDemuxer._incompleteTrack st))
      as [[|[p|[p|p|]|]|p]|];
      destruct (WebmBaseDemuxer.number (WebmBaseDemuxer._incompleteTrack st));
      try discriminate P; reflexivity. }
  split; [exact A|].
  intros fuel acc. cbn [WebmBaseDemuxer.walk]. now rewrite A.
Qed.

Lemma block_before_track_throws_witness :
  let st := WebmBaseDemuxer.mkState (Some []) 5 5 None None
              (WebmBaseDemuxer.mkTrack None None) true in
  let chunk := [xa3; x85; x81; x00; x00; x00; x2a] in
  WebmBaseDemuxer._transform OpusWebmDemuxer._checkHead WebmBaseDemuxer.fresh
                             [x1a; x45; xdf; xa3; x80]
  = Some ([], Running st) /\
  WebmBaseDemuxer._readTag OpusWebmDemuxer._checkHead st chunk 0
  = WebmBaseDemuxer.Throw WebmBaseDemuxer.NoAudioTrackError /\
  WebmBaseDemuxer._transform OpusWebmDemuxer._checkHead st chunk
  = Some ([], Crashed WebmBaseDemuxer.NoAudioTrackError).
Proof.
  intros st chunk.
  assert (T : WebmBaseDemuxer._transform OpusWebmDemuxer._checkHead WebmBaseDemuxer.fresh
                                         [x1a; x45; xdf; xa3; x80]
              = Some ([], Running st)) by (vm_compute; reflexivity).
  split; [exact T|].
  assert (R : WebmWalk.reachable OpusWebmDemuxer._checkHead st).
  { eapply WebmTracks.transform_reachable; [apply WebmWalk.reach_fresh|exact T]. }
  destruct (block_before_track_throws OpusWebmDemuxer._checkHead st chunk 0 1 2 (Int 5) 1
              R eq_refl eq_refl eq_refl eq_refl eq_refl) as [A W].
  split; [exact A|].
  exact (W 7%nat []).
Defined.

(** ** The Ogg page reader: what a call consumes *)

Module OggInvariant.
Import OggDemuxer OggView OggEvents OggFacts OggStream.

Section Relation.

(** A relation between the pin before, the events, and the pin after, that
    every segment respects and that composes. *)
Variable R : option Buffer * option Z -> list event -> option Buffer * option Z -> Prop.
Hypothesis R_refl : forall p, R p [] p.
Hypothesis R_trans :
  forall p ev1 q ev2 r, R p ev1 q -> R q ev2 r -> R p (ev1 ++ ev2) r.
Hypothesis R_route :
  forall st bitstream segment st' ev,
    route st bitstream segment = (st', ev) -> R (pin st) ev (pin st').

Lemma segments_rel chunk bitstream sizes :
  forall start st,
    R (pin st) (snd (fst (segments chunk bitstream sizes start st)))
      (pin (fst (fst (segments chunk bitstream sizes start st)))).
Proof.
  induction sizes as [|size sizes IH]; intros start st; cbn [segments].
  - apply R_refl.
  - destruct (route st bitstream (slice chunk start (start + size))) as [st1 ev1] eqn:E.
    specialize (IH (start + size) st1).
    destruct (segments chunk bitstream sizes (start + size) st1) as [[st2 ev2] s2].
    cbn [fst snd] in *. eapply R_trans; [|exact IH]. eapply R_route; eauto.
Qed.

Lemma readPage_rel st chunk st' events rest :
  _readPage st chunk = Rest st' events rest -> R (pin st) events (pin st').
Proof.
  intros H. apply readPage_Rest_inv in H. destruct H as (n & bs & sizes & P).
  pose proof (pr_segments _ _ _ _ _ _ _ _ P) as E.
  pose proof (segments_rel chunk bs sizes (27 + n) st) as S.
  destruct (segments chunk bs sizes (27 + n) st) as [[st2 ev2] s2].
  cbn [fst snd] in *. now injection E as <- <-.
Qed.

Lemma pages_rel (fuel : nat) :
  forall st chunk acc ev r p0,
    R p0 acc (pin st) ->
    pages fuel st chunk acc = Some (ev, r) ->
    exists q, R p0 ev q /\
              match r with Running st' => pin st' = q | Crashed _ => True end.
Proof.
  induction fuel as [|fuel IH]; intros st chunk acc ev r p0 H0 H; [discriminate|].
  cbn [pages] in H.
  destruct (_readPage st chunk) as [e| |st1 events rest] eqn:E.
  - injection H as <- <-. eauto.
  - injection H as <- <-. exists (pin st). split; [exact H0|reflexivity].
  - eapply IH; [|exact H]. eapply R_trans; [exact H0|]. eapply readPage_rel; eauto.
Qed.

Lemma transform_rel st chunk ev r :
  _transform st chunk = Some (ev, r) ->
  exists q, R (pin st) ev q /\
            match r with Running st' => pin st' = q | Crashed _ => True end.
Proof.
  rewrite transform_unfold. apply pages_rel. apply R_refl.
Qed.

Lemma feed_rel (chunks : list Buffer) :
  forall st ev r,
    feed st chunks = Some (ev, r) ->
    exists q, R (pin st) ev q /\
              match r with Running st' => pin st' = q | Crashed _ => True end.
Proof.
  induction chunks as [|c chunks IH]; intros st ev r H; cbn [feed] in H.
  - injection H as <- <-. exists (pin st). split; [apply R_refl|reflexivity].
  - destruct (_transform st c) as [[ev1 [st1|e]]|] eqn:T; [| |discriminate].
    + destruct (feed st1 chunks) as [[ev2 r2]|] eqn:F; [|discriminate].
      injection H as <- <-.
      destruct (transform_rel _ _ _ _ T) as (q1 & R1 & E1).
      destruct (IH _ _ _ F) as (q2 & R2 & E2).
      exists q2. split; [|exact E2]. eapply R_trans; [exact R1|]. now rewrite <- E1.
    + injection H as <- <-. exact (transform_rel _ _ _ _ T).
Qed.

End Relation.

(** The exceptions of a run are those of [_readPage]. *)
Lemma pages_no_RangeError (fuel : nat) :
  forall st chunk acc ev e,
    pages fuel st chunk acc = Some (ev, Crashed e) -> e <> RangeError.
Proof.
  induction fuel as [|fuel IH]; intros st chunk acc ev e H; [discriminate|].
  cbn [pages] in H.
  destruct (_readPage st chunk) as [e'| |st1 events rest] eqn:E.
  - injection H as <- <-. intros ->. now apply (readPage_no_RangeError st chunk).
  - discriminate.
  - eapply IH; eauto.
Qed.

Lemma feed_no_RangeError (chunks : list Buffer) :
  forall st ev e, feed st chunks = Some (ev, Crashed e) -> e <> RangeError.
Proof.
  induction chunks as [|c chunks IH]; intros st ev e H; cbn [feed] in H; [discriminate|].
  destruct (_transform st c) as [[ev1 [st1|e1]]|] eqn:T; [| |discriminate].
  - destruct (feed st1 chunks) as [[ev2 r2]|] eqn:F; [|discriminate].
    injection H as <- ->. eapply IH; eauto.
  - injection H as <- <-. rewrite transform_unfold in T.
    eapply pages_no_RangeError; eauto.
Qed.

(** What a call keeps is the tail of what it worked on. *)
Lemma pages_suffix (fuel : nat) :
  forall st chunk acc ev st',
    pages fuel st chunk acc = Some (ev, Running st') ->
    exists consumed kept,
      _remainder st' = Some kept /\ chunk = consumed ++ kept /\
      _readPage st' kept = False_.
Proof.
  induction fuel as [|fuel IH]; intros st chunk acc ev st' H; [discriminate|].
  cbn [pages] in H.
  destruct (_readPage st chunk) as [e| |st1 events rest] eqn:E.
  - discriminate.
  - injection H as <- <-. exists [], chunk. split; [reflexivity|]. split; [reflexivity|].
    revert E. unfold _readPage. cbn [_head _bitstream].
    destruct (blength chunk <? OGG_PAGE_HEADER_SIZE); [reflexivity|].
    destruct (negb (equals (slice chunk 0 4) OGGS_HEADER)); [discriminate|].
    destruct (readUInt8 chunk 4) as [v|]; [|discriminate].
    destruct (negb (v =? STREAM_STRUCTURE_VERSION)); [discriminate|].
    destruct (blength chunk <? 27); [reflexivity|].
    destruct (readUInt8 chunk 26) as [n|]; [|discriminate].
    destruct (blength chunk <? 27 + n); [reflexivity|].
    destruct (readUInt32BE chunk 14) as [bs|]; [|discriminate].
    destruct (lacing (slice chunk 27 (27 + n)) None) as [sizes|]; [|reflexivity].
    destruct (blength chunk <? 27 + n + totalSize sizes); [reflexivity|].
    destruct (segments chunk bs sizes (27 + n) st) as [[s1 e1] z1]. discriminate.
  - destruct (IH _ _ _ _ _ H) as (consumed & kept & K1 & K2 & K3).
    pose proof E as E'. apply readPage_Rest_inv in E'.
    destruct E' as (n & bs & sizes & P).
    destruct P as [H1 H2 H3 H4 H5 H6 H7 H8 H9 H10].
    pose proof (readUInt8_range _ _ _ H4) as Hn.
    pose proof (totalSize_nonneg _ (lacing_nonneg _ None _ I H7)) as Ht.
    rewrite slice_from_inside in H10 by lia.
    exists (firstn (Z.to_nat (27 + n + totalSize sizes)) chunk ++ consumed), kept.
    split; [exact K1|]. split; [|exact K3].
    rewrite <- app_assoc, <- K2, H10. symmetry. apply firstn_skipn.
Qed.

End OggInvariant.

(** ** Waiting for the rest of a page or of an element *)

Module Stall.

Section Ogg.
Import OggDemuxer OggView OggFacts OggStream OggStall.





End Ogg.

Section Webm.
Import WebmBaseDemuxer WebmWalk WebmFacts WebmStep.

Variable checkHead : Buffer -> error + list Buffer.

Local Abbreviation astep := (WebmWalk.astep checkHead).
Local Abbreviation Ref := (WebmWalk.Ref checkHead).














End Webm.

End Stall.


Lemma chunked_feeding_is_single_call_witness :
  OggDemuxer.feed OggDemuxer.fresh (Samples.bytewise Samples.ogg_stream)
  = OggDemuxer._transform OggDemuxer.fresh Samples.ogg_stream /\
  WebmWalk.valid_ebml (List.concat (Samples.bytewise Samples.webm_stream)) = true /\
  exists pushed s1 s2,
    WebmBaseDemuxer.feed OpusWebmDemuxer._checkHead WebmBaseDemuxer.fresh
                         (Samples.bytewise Samples.webm_stream) = Some (pushed, s1) /\
    WebmBaseDemuxer._transform OpusWebmDemuxer._checkHead WebmBaseDemuxer.fresh
                               (List.concat (Samples.bytewise Samples.webm_stream))
    = Some (pushed, s2) /\
    WebmWalk.err_of s1 = WebmWalk.err_of s2.
Proof.
  assert (V : WebmWalk.valid_ebml (List.concat (Samples.bytewise Samples.webm_stream))
              = true) by (vm_compute; reflexivity).
  destruct (chunked_feeding_is_single_call
              ["O"%byte] (Samples.bytewise (tl Samples.ogg_stream))
              OpusWebmDemuxer._checkHead (Samples.bytewise Samples.webm_stream))
    as [[O _] W].
  split; [exact O|]. split; [exact V|]. exact (W V).
Defined.


(** * Further properties of the two readers *)

(** The lacing rule.  A run of [k] table entries 255 followed by an entry [x]
    below 255 is reconstructed as one segment of [255 * k + x] bytes; the table
    [255, 255, 10] gives one segment of 520 bytes and the table [0] one segment
    of no bytes. *)
Theorem lacing_rule (k : nat) (x : byte) :
  byteval x <> 255 ->
  OggDemuxer.lacing (repeat xff k ++ [x]) None = Some [255 * Z.of_nat k + byteval x].
Proof. intros H. now rewrite (OggFacts.lacing_run k x H None). Qed.

Lemma lacing_rule_witness :
  OggDemuxer.lacing [xff; xff; x0a] None = Some [520] /\
  OggDemuxer.lacing [x00] None = Some [0].
Proof.
  split.
  - apply (lacing_rule 2 x0a). vm_compute. discriminate.
  - apply (lacing_rule 0 x00). vm_compute. discriminate.
Defined.

(** A wrong capture pattern.  When the bytes a call works on are 26 or more
    and their first four are not "OggS", the call throws the capture-pattern
    error and nothing is pushed or emitted before it. *)
Theorem bad_capture_pattern_throws (st : OggDemuxer.state) (chunk : Buffer) :
  26 <= blength (OggView.pending st chunk) ->
  slice (OggView.pending st chunk) 0 4 <> OggDemuxer.OGGS_HEADER ->
  OggDemuxer._transform st chunk = Some ([], Crashed OggDemuxer.CapturePatternError).
Proof.
  intros L C. rewrite OggStream.transform_unfold. cbn [OggDemuxer.pages].
  unfold OggDemuxer._readPage, OggDemuxer.OGG_PAGE_HEADER_SIZE.
  destruct (_ <? 26) eqn:E; [apply Z.ltb_lt in E; lia|].
  destruct (equals _ OggDemuxer.OGGS_HEADER) eqn:Q; [|reflexivity].
  apply equals_eq in Q. contradiction.
Qed.

Lemma bad_capture_pattern_throws_witness :
  OggDemuxer._transform OggDemuxer.fresh (Buffer_from "XggS" ++ repeat x00 22)
  = Some ([], Crashed OggDemuxer.CapturePatternError).
Proof.
  apply bad_capture_pattern_throws.
  - vm_compute. discriminate.
  - vm_compute. discriminate.
Defined.

(** The pinned stream.  With a head recorded and a bitstream id pinned, a
    segment other than the bytes of [OPUS_TAGS] is pushed when the id of its
    page is the pinned one and dropped without any event otherwise; the state
    does not change. *)
Theorem pinned_stream_only
        (st : OggDemuxer.state) (bitstream b : Z) (segment h : Buffer) :
  OggDemuxer._head st = Some h -> OggDemuxer._bitstream st = Some b ->
  segment <> OggDemuxer.OPUS_TAGS ->
  OggDemuxer.route st bitstream segment
  = (st, if b =? bitstream then [OggDemuxer.Push segment] else []).
Proof.
  intros Hh Hb Hs. unfold OggDemuxer.route. rewrite Hh, Hb.
  destruct (equals _ OggDemuxer.OPUS_TAGS) eqn:Q.
  - apply OggRouting.tags_header_exact in Q. contradiction.
  - destruct (b =? bitstream); reflexivity.
Qed.

Lemma pinned_stream_only_witness :
  OggDemuxer.route Samples.head_recorded 8 [x2a] = (Samples.head_recorded, []) /\
  OggDemuxer.route Samples.head_recorded 7 [x2a]
  = (Samples.head_recorded, [OggDemuxer.Push [x2a]]).
Proof.
  split.
  - apply (pinned_stream_only Samples.head_recorded 8 7 [x2a]
             (Buffer_from "OpusHead" ++ repeat x00 11));
      [reflexivity|reflexivity|discriminate].
  - apply (pinned_stream_only Samples.head_recorded 7 7 [x2a]
             (Buffer_from "OpusHead" ++ repeat x00 11));
      [reflexivity|reflexivity|discriminate].
Defined.

(** The root tag.  When the first id that a new walker reads is not the id of
    the EBML root tag, the call throws at once, whatever the hook, and nothing
    is pushed. *)
Theorem first_tag_must_be_root
        (checkHead : Buffer -> WebmBaseDemuxer.error + list Buffer)
        (chunk id : Buffer) (offset1 : Z) :
  WebmBaseDemuxer._readEBMLId chunk 0 = Some (id, offset1) ->
  id <> WebmBaseDemuxer.ID_EBML ->
  WebmBaseDemuxer._transform checkHead WebmBaseDemuxer.fresh chunk
  = Some ([], Crashed WebmBaseDemuxer.NoEBMLTagError).
Proof.
  intros H N.
  unfold WebmBaseDemuxer._transform.
  cbn [WebmBaseDemuxer.fresh WebmBaseDemuxer._remainder WebmBaseDemuxer._skipUntil
       WebmBaseDemuxer.set_cursor WebmBaseDemuxer.walk].
  unfold WebmBaseDemuxer._readTag. rewrite H.
  cbn [WebmBaseDemuxer._ebmlFound negb andb].
  destruct (equals id WebmBaseDemuxer.ID_EBML) eqn:Q; [|reflexivity].
  apply equals_eq in Q. contradiction.
Qed.

Lemma first_tag_must_be_root_witness :
  WebmBaseDemuxer._transform OpusWebmDemuxer._checkHead WebmBaseDemuxer.fresh
                             [x18; x53; x80; x67; x80]
  = Some ([], Crashed WebmBaseDemuxer.NoEBMLTagError).
Proof.
  apply (first_tag_must_be_root OpusWebmDemuxer._checkHead
           [x18; x53; x80; x67; x80] [x18; x53; x80; x67] 4).
  - reflexivity.
  - discriminate.
Defined.

(** The Opus hook.  Private codec data whose first eight bytes are "OpusHead"
    is accepted and pushes nothing; any other data throws the codec-mismatch
    error. *)
Theorem opus_head_checked (data : Buffer) :
  (slice data 0 8 = OpusWebmDemuxer.OPUS_HEAD ->
   OpusWebmDemuxer._checkHead data = inr []) /\
  (slice data 0 8 <> OpusWebmDemuxer.OPUS_HEAD ->
   OpusWebmDemuxer._checkHead data = inl WebmBaseDemuxer.NotOpusError).
Proof.
  unfold OpusWebmDemuxer._checkHead.
  destruct (equals (slice data 0 8) OpusWebmDemuxer.OPUS_HEAD) eqn:Q; split; intros H.
  - reflexivity.
  - apply equals_eq in Q. contradiction.
  - apply equals_eq in H. congruence.
  - reflexivity.
Qed.

Lemma opus_head_checked_witness :
  OpusWebmDemuxer._checkHead (Buffer_from "OpusHead" ++ [x01; x02]) = inr [] /\
  OpusWebmDemuxer._checkHead (Buffer_from "vorbis") = inl WebmBaseDemuxer.NotOpusError.
Proof.
  split.
  - apply (opus_head_checked (Buffer_from "OpusHead" ++ [x01; x02])). reflexivity.
  - apply (opus_head_checked (Buffer_from "vorbis")). vm_compute. discriminate.
Defined.

(** Variable-length integers that are decoded as described.  A field anywhere
    in a buffer whose first byte is not zero, of the described length, and
    whose described value is below 2^31: [vintLength] returns the described
    length, which lies between 1 and 8, and [expandVint] the described
    value. *)
Theorem vint_decoded_as_described
        (pre post : Buffer) (first : byte) (others : list byte) :
  byteval first <> 0 ->
  blength (first :: others) = VintDescribed.described_length first ->
  VintDescribed.described_value (first :: others) < 2 ^ 31 ->
  1 <= VintDescribed.described_length first <= 8 /\
  WebmBaseDemuxer.vintLength (pre ++ (first :: others) ++ post) (blength pre)
  = Some (VintDescribed.described_length first) /\
  WebmBaseDemuxer.expandVint (pre ++ (first :: others) ++ post) (blength pre)
                             (blength pre + VintDescribed.described_length first)
  = Some (Int (VintDescribed.described_value (first :: others))).
Proof.
  intros Hf HL Hv. split.
  - apply (VintSpec.vint_scan_described first Hf).
  - apply (VintSpec.expandVint_described pre post first others Hf HL Hv).
Qed.

Lemma vint_decoded_as_described_witness :
  WebmBaseDemuxer.vintLength ([xa3] ++ [x41; x02] ++ [xff]) 1 = Some 2 /\
  WebmBaseDemuxer.expandVint ([xa3] ++ [x41; x02] ++ [xff]) 1 (1 + 2) = Some (Int 258).
Proof.
  apply (vint_decoded_as_described [xa3] [xff] x41 [x02]).
  - vm_compute. discriminate.
  - reflexivity.
  - reflexivity.
Defined.

(** * The rest of the library *)

(** ** The helper of the tests *)

Module TestUtilFacts.
Import TestUtil.

Lemma roughly_from_spec (n : nat) (x y : Buffer) :
  forall i,
    roughly_from n x y i = true <->
    (forall k a b, 0 <= k < Z.of_nat n ->
                   get x (i + k) = Some a -> get y (i + k) = Some b ->
                   Z.abs (byteval a - byteval b) <= 1).
Proof.
  induction n as [|n IH]; intros i; cbn [roughly_from].
  - split; [intros _ k a b Hk; lia|reflexivity].
  - split.
    + intros H k a b Hk Ha Hb.
      destruct (Z.eq_dec k 0) as [->|Hk0].
      * rewrite Z.add_0_r in Ha, Hb. rewrite Ha, Hb in H.
        destruct (1 <? Z.abs (byteval a - byteval b)) eqn:E; [discriminate|].
        now apply Z.ltb_ge in E.
      * destruct (match get x i, get y i with
                  | Some a0, Some b0 => 1 <? Z.abs (byteval a0 - byteval b0)
                  | _, _ => false
                  end); [discriminate|].
        apply (proj1 (IH (i + 1)) H (k - 1) a b); [lia| |].
        -- now replace (i + 1 + (k - 1)) with (i + k) by lia.
        -- now replace (i + 1 + (k - 1)) with (i + k) by lia.
    + intros H.
      assert (H0 : match get x i, get y i with
                   | Some a0, Some b0 => 1 <? Z.abs (byteval a0 - byteval b0)
                   | _, _ => false
                   end = false).
      { destruct (get x i) as [a|] eqn:Ha; [|reflexivity].
        destruct (get y i) as [b|] eqn:Hb; [|reflexivity].
        apply Z.ltb_ge. apply (H 0 a b); [lia| |]; now rewrite Z.add_0_r. }
      rewrite H0. apply IH. intros k a b Hk Ha Hb.
      apply (H (k + 1) a b); [lia| |].
      * now replace (i + (k + 1)) with (i + 1 + k) by lia.
      * now replace (i + (k + 1)) with (i + 1 + k) by lia.
Qed.

Lemma roughlyEquals_spec (x y : Buffer) :
  roughlyEquals x y = true <->
  blength x = blength y /\
  forall i a b, get x i = Some a -> get y i = Some b ->
                Z.abs (byteval a - byteval b) <= 1.
Proof.
  unfold roughlyEquals.
  destruct (blength x =? blength y) eqn:E; cbn [negb].
  - apply Z.eqb_eq in E. rewrite roughly_from_spec. split.
    + intros H. split; [exact E|]. intros i a b Ha Hb.
      destruct (Z.lt_ge_cases i 0) as [N|N].
      { rewrite get_outside in Ha by lia. discriminate. }
      destruct (Z.lt_ge_cases i (blength x)) as [M|M].
      * apply (H i a b); [unfold blength in M; lia| |]; assumption.
      * rewrite get_outside in Ha by lia. discriminate.
    + intros [_ H] k a b _ Ha Hb. apply (H (0 + k) a b); assumption.
  - apply Z.eqb_neq in E. split; [discriminate|]. intros [H _]. contradiction.
Qed.

End TestUtilFacts.

(** [roughlyEquals] holds of two buffers exactly when they have the same
    length and no two bytes at the same index differ by more than 1.  It is
    reflexive and symmetric, and it is not transitive. *)
Theorem roughlyEquals_tolerance (x y : Buffer) :
  (TestUtil.roughlyEquals x y = true <->
   blength x = blength y /\
   forall i a b, get x i = Some a -> get y i = Some b ->
                 Z.abs (byteval a - byteval b) <= 1) /\
  TestUtil.roughlyEquals x x = true /\
  TestUtil.roughlyEquals x y = TestUtil.roughlyEquals y x /\
  exists u v w, TestUtil.roughlyEquals u v = true /\ TestUtil.roughlyEquals v w = true /\
                TestUtil.roughlyEquals u w = false.
Proof.
  split; [apply TestUtilFacts.roughlyEquals_spec|].
  split.
  - apply TestUtilFacts.roughlyEquals_spec. split; [reflexivity|].
    intros i a b Ha Hb. rewrite Ha in Hb. injection Hb as <-. lia.
  - split.
    + destruct (TestUtil.roughlyEquals x y) eqn:E1, (TestUtil.roughlyEquals y x) eqn:E2;
        try reflexivity.
      * apply TestUtilFacts.roughlyEquals_spec in E1. destruct E1 as [L H].
        assert (T : TestUtil.roughlyEquals y x = true).
        { apply TestUtilFacts.roughlyEquals_spec. split; [now symmetry|].
          intros i a b Ha Hb. specialize (H i b a Hb Ha). lia. }
        congruence.
      * apply TestUtilFacts.roughlyEquals_spec in E2. destruct E2 as [L H].
        assert (T : TestUtil.roughlyEquals x y = true).
        { apply TestUtilFacts.roughlyEquals_spec. split; [now symmetry|].
          intros i a b Ha Hb. specialize (H i b a Hb Ha). lia. }
        congruence.
    + exists [x00], [x01], [x02]. repeat split.
Qed.

(** ** The FFmpeg launcher *)

(** [getInfo] never falls back.  When the cache cannot be used (no command in
    it, or [force]) and [ffmpeg-static] cannot be required, or the command it
    names cannot be run, [getInfo] throws and leaves the cache as it was; no
    other command is spawned, whatever the commands [ffmpeg], [avconv],
    [./ffmpeg] and [./avconv] would do. *)
Theorem getInfo_never_falls_back
        (require_ffmpeg_static : option string) (spawnSync : string -> option string)
        (cache : FFmpeg.FFMPEG) (force : bool) :
  FFmpeg.truthy_string (FFmpeg.command cache) && negb force = false ->
  match require_ffmpeg_static with
  | None => True
  | Some command => spawnSync command = None
  end ->
  FFmpeg.getInfo require_ffmpeg_static spawnSync cache force
  = (cache,
     match require_ffmpeg_static with None => [] | Some command => [command] end,
     FFmpeg.Throw_not_found).
Proof.
  intros C H. unfold FFmpeg.getInfo. rewrite C.
  unfold FFmpeg.search, FFmpeg.sources.
  destruct require_ffmpeg_static as [command|]; [|reflexivity].
  now rewrite H.
Qed.

Lemma getInfo_never_falls_back_witness :
  FFmpeg.getInfo None (fun _ => Some "ffmpeg version 4.3 Copyright"%string)
                 FFmpeg.no_info false
  = (FFmpeg.no_info, [], FFmpeg.Throw_not_found).
Proof.
  apply (getInfo_never_falls_back
           None (fun _ => Some "ffmpeg version 4.3 Copyright"%string)
           FFmpeg.no_info false).
  - reflexivity.
  - exact I.
Defined.

(** The cache of [getInfo].  Once [getInfo] has returned information with a
    command that is not the empty string, every later call without [force]
    returns the same information and spawns nothing, whatever has become of
    the commands. *)
Theorem getInfo_is_cached
        (require_ffmpeg_static require' : option string)
        (spawnSync spawnSync' : string -> option string)
        (cache cache1 : FFmpeg.FFMPEG) (force : bool)
        (spawned : list string) (info : FFmpeg.FFMPEG) :
  FFmpeg.getInfo require_ffmpeg_static spawnSync cache force
  = (cache1, spawned, FFmpeg.Return info) ->
  FFmpeg.truthy_string (FFmpeg.command info) = true ->
  FFmpeg.getInfo require' spawnSync' cache1 false = (cache1, [], FFmpeg.Return info).
Proof.
  unfold FFmpeg.getInfo at 1. intros H T.
  assert (E : cache1 = info).
  { destruct (FFmpeg.truthy_string (FFmpeg.command cache) && negb force).
    - now injection H as <- _ <-.
    - destruct (FFmpeg.search require_ffmpeg_static spawnSync FFmpeg.sources)
        as [sp [| i |]]; try discriminate.
      now injection H as <- _ <-. }
  subst cache1. unfold FFmpeg.getInfo. rewrite T. reflexivity.
Qed.

Lemma getInfo_is_cached_witness :
  FFmpeg.getInfo None (fun _ => None)
                 (FFmpeg.mkFFMPEG (Some "/bin/ffmpeg"%string) (Some "ffmpeg"%string)) false
  = (FFmpeg.mkFFMPEG (Some "/bin/ffmpeg"%string) (Some "ffmpeg"%string), [],
     FFmpeg.Return (FFmpeg.mkFFMPEG (Some "/bin/ffmpeg"%string) (Some "ffmpeg"%string))).
Proof.
  apply (getInfo_is_cached
           (Some "/bin/ffmpeg"%string) None (fun _ => Some "ffmpeg"%string) (fun _ => None)
           FFmpeg.no_info _ true ["/bin/ffmpeg"%string]).
  - reflexivity.
  - reflexivity.
Defined.

Module FFmpegFacts.

Lemma existsb_In (s : string) (l : list string) :
  existsb (String.eqb s) l = true <-> In s l.
Proof.
  rewrite existsb_exists. split.
  - intros (x & Hx & E). apply String.eqb_eq in E. now subst.
  - intros H. exists s. split; [exact H|apply String.eqb_refl].
Qed.

End FFmpegFacts.

(** The arguments of the child process.  When [create] spawns a process, its
    arguments are the caller's array followed by [pipe:1], and they contain
    [-i]: an array without [-i] gets [-i -] written in front of it, an array
    with [-i] anywhere is left alone.  A second [create] with the same array
    does not change it again. *)
Theorem create_arguments
        (require_ffmpeg_static : option string) (spawnSync : string -> option string)
        (cache cache' : FFmpeg.FFMPEG) (args args' : list string)
        (command : string) (argv : list string) :
  FFmpeg.create require_ffmpeg_static spawnSync cache args
  = (args', cache', FFmpeg.Spawn command argv) ->
  argv = args' ++ ["pipe:1"%string] /\
  In "-i"%string args' /\
  (In "-i"%string args -> args' = args) /\
  (~ In "-i"%string args -> args' = "-i"%string :: "-"%string :: args) /\
  fst (fst (FFmpeg.create require_ffmpeg_static spawnSync cache' args')) = args'.
Proof.
  unfold FFmpeg.create. intros H.
  set (a := if existsb (String.eqb "-i") args then args
            else "-i"%string :: "-"%string :: args) in *.
  assert (Ha : In "-i"%string a).
  { unfold a. destruct (existsb (String.eqb "-i") args) eqn:E.
    - now apply FFmpegFacts.existsb_In.
    - left. reflexivity. }
  assert (Ea : args' = a /\ argv = a ++ ["pipe:1"%string]).
  { destruct (FFmpeg.getInfo require_ffmpeg_static spawnSync cache false)
      as [[c1 sp] [| i |]]; try discriminate; now injection H as <- _ _ <-. }
  destruct Ea as [-> ->].
  split; [reflexivity|]. split; [exact Ha|].
  split; [|split].
  - intros Hi. unfold a. apply FFmpegFacts.existsb_In in Hi. now rewrite Hi.
  - intros Hn. unfold a. destruct (existsb (String.eqb "-i") args) eqn:E; [|reflexivity].
    apply FFmpegFacts.existsb_In in E. contradiction.
  - apply FFmpegFacts.existsb_In in Ha. rewrite Ha.
    destruct (FFmpeg.getInfo require_ffmpeg_static spawnSync cache' false)
      as [[c1 sp] [| i |]]; reflexivity.
Qed.

Lemma create_arguments_witness :
  ["-i"; "-"; "-f"; "s16le"; "pipe:1"]%string
  = ["-i"; "-"; "-f"; "s16le"]%string ++ ["pipe:1"%string] /\
  fst (fst (FFmpeg.create (Some "/bin/ffmpeg"%string) (fun _ => Some "ffmpeg"%string)
                          (FFmpeg.mkFFMPEG (Some "/bin/ffmpeg"%string)
                                           (Some "ffmpeg"%string))
                          ["-i"; "-"; "-f"; "s16le"]%string))
  = ["-i"; "-"; "-f"; "s16le"]%string.
Proof.
  destruct (create_arguments
              (Some "/bin/ffmpeg"%string) (fun _ => Some "ffmpeg"%string)
              FFmpeg.no_info
              (FFmpeg.mkFFMPEG (Some "/bin/ffmpeg"%string) (Some "ffmpeg"%string))
              ["-f"; "s16le"]%string ["-i"; "-"; "-f"; "s16le"]%string
              "/bin/ffmpeg"%string ["-i"; "-"; "-f"; "s16le"; "pipe:1"]%string eq_refl)
    as (A & _ & _ & _ & B).
  split; [exact A|exact B].
Defined.

(** ** The Ogg page reader: what a run keeps *)

(** Once a head is recorded it stays.  From a state with a head recorded, a
    run over any chunks keeps that head and the pinned bitstream id, emits no
    ['head'] and no ['unknownSegment'] event, and hands out audio packets and
    ['tags'] events only; this holds up to an exception as well. *)
Theorem head_stays_pinned
        (st : OggDemuxer.state) (chunks : list Buffer) (h : Buffer)
        (events : list OggDemuxer.event)
        (r : status OggDemuxer.state OggDemuxer.error) :
  OggDemuxer._head st = Some h ->
  OggDemuxer.feed st chunks = Some (events, r) ->
  Forall OggEvents.audio_or_tags events /\
  match r with
  | Running st' =>
      OggDemuxer._head st' = Some h /\
      OggDemuxer._bitstream st' = OggDemuxer._bitstream st
  | Crashed _ => True
  end.
Proof.
  intros Hh F.
  destruct (OggInvariant.feed_rel
              (fun p ev q => forall h0, fst p = Some h0 ->
                                        q = p /\ Forall OggEvents.audio_or_tags ev)
              ltac:(intros p h0 _; split; [reflexivity|constructor])
              ltac:(intros p ev1 q ev2 r0 A B h0 Hp;
                    destruct (A h0 Hp) as [-> A2];
                    destruct (B h0 Hp) as [-> B2];
                    split; [reflexivity|apply Forall_app; auto])
              ltac:(intros s b seg s' ev E h0 Hp;
                    unfold OggEvents.pin in *; cbn [fst] in Hp;
                    unfold OggDemuxer.route in E; rewrite Hp in E;
                    repeat match type of E with
                           | (if ?c then _ else _) = _ => destruct c
                           end; injection E as <- <-;
                    (split; [reflexivity|repeat constructor]))
              chunks st events r F) as (q & Rq & Eq).
  destruct (Rq h Hh) as [-> Ev]. split; [exact Ev|].
  destruct r as [st'|e]; [|exact I].
  unfold OggEvents.pin in Eq. injection Eq as E1 E2. split; congruence.
Qed.

Lemma head_stays_pinned_witness :
  Forall OggEvents.audio_or_tags [OggDemuxer.Push Samples.comment_packet] /\
  OggDemuxer._head Samples.head_recorded
  = Some (Buffer_from "OpusHead" ++ repeat x00 11) /\
  Some 7 = OggDemuxer._bitstream Samples.head_recorded.
Proof.
  exact (head_stays_pinned
           Samples.head_recorded [Samples.comment_page]
           (Buffer_from "OpusHead" ++ repeat x00 11)
           [OggDemuxer.Push Samples.comment_packet]
           (Running (OggDemuxer.mkState (Some []) (OggDemuxer._head Samples.head_recorded)
                                        (Some 7)))
           eq_refl eq_refl).
Defined.

(** Nothing before the head.  When a run ends with no head recorded, it began
    with none, and every event of the run is an ['unknownSegment'] event: no
    audio packet and no ['tags'] event comes before the head packet. *)
Theorem no_audio_before_head
        (st st' : OggDemuxer.state) (chunks : list Buffer)
        (events : list OggDemuxer.event) :
  OggDemuxer.feed st chunks = Some (events, Running st') ->
  OggDemuxer._head st' = None ->
  OggDemuxer._head st = None /\ Forall OggEvents.unknown_segment events.
Proof.
  intros F Hn.
  destruct (OggInvariant.feed_rel
              (fun p ev q => fst q = None ->
                             fst p = None /\ Forall OggEvents.unknown_segment ev)
              ltac:(intros p Hp; split; [exact Hp|constructor])
              ltac:(intros p ev1 q ev2 r0 A B Hr;
                    destruct (B Hr) as [Hq B2];
                    destruct (A Hq) as [Hp A2];
                    split; [exact Hp|apply Forall_app; auto])
              ltac:(intros s b seg s' ev E Hq;
                    unfold OggEvents.pin in *; cbn [fst] in *;
                    unfold OggDemuxer.route in E;
                    destruct (OggDemuxer._head s) eqn:Hs;
                    repeat match type of E with
                           | (if ?c then _ else _) = _ => destruct c
                           end; injection E as <- <-; cbn in Hq;
                    try congruence;
                    (split; [reflexivity|repeat constructor]))
              chunks st events (Running st') F) as (q & Rq & Eq).
  apply Rq. rewrite <- Eq. exact Hn.
Qed.

Lemma no_audio_before_head_witness :
  OggDemuxer._head OggDemuxer.fresh = None /\
  Forall OggEvents.unknown_segment [OggDemuxer.Emit_unknownSegment Samples.comment_packet].
Proof.
  exact (no_audio_before_head
           OggDemuxer.fresh
           (OggDemuxer.mkState (Some []) None None)
           [Samples.comment_page]
           [OggDemuxer.Emit_unknownSegment Samples.comment_packet]
           eq_refl eq_refl).
Defined.

(** The exceptions of the Ogg reader.  A run never ends with a RangeError:
    every read of [_readPage] lies inside the buffer.  The only exceptions are
    those of the capture pattern and of the structure version. *)
Theorem ogg_throws_format_errors_only
        (st : OggDemuxer.state) (chunks : list Buffer)
        (events : list OggDemuxer.event) (e : OggDemuxer.error) :
  OggDemuxer.feed st chunks = Some (events, Crashed e) ->
  e = OggDemuxer.CapturePatternError \/ e = OggDemuxer.StructureVersionError.
Proof.
  intros F. pose proof (OggInvariant.feed_no_RangeError _ _ _ _ F) as N.
  destruct e; auto. contradiction.
Qed.

Lemma ogg_throws_format_errors_only_witness :
  OggDemuxer.CapturePatternError = OggDemuxer.CapturePatternError \/
  OggDemuxer.CapturePatternError = OggDemuxer.StructureVersionError.
Proof.
  exact (ogg_throws_format_errors_only
           OggDemuxer.fresh [Buffer_from "XggS" ++ repeat x00 22] []
           OggDemuxer.CapturePatternError eq_refl).
Defined.

(** A wrong structure version.  When the bytes a call works on are 26 or
    more, begin with "OggS", and their fifth byte is not 0, the call throws the
    structure-version error and nothing is pushed or emitted before it. *)
Theorem wrong_version_throws (st : OggDemuxer.state) (chunk : Buffer) (version : Z) :
  26 <= blength (OggView.pending st chunk) ->
  slice (OggView.pending st chunk) 0 4 = OggDemuxer.OGGS_HEADER ->
  readUInt8 (OggView.pending st chunk) 4 = Some version -> version <> 0 ->
  OggDemuxer._transform st chunk = Some ([], Crashed OggDemuxer.StructureVersionError).
Proof.
  intros L C V N. rewrite OggStream.transform_unfold. cbn [OggDemuxer.pages].
  unfold OggDemuxer._readPage, OggDemuxer.OGG_PAGE_HEADER_SIZE,
    OggDemuxer.STREAM_STRUCTURE_VERSION.
  destruct (_ <? 26) eqn:E; [apply Z.ltb_lt in E; lia|].
  rewrite C, equals_refl, V. cbn [negb].
  apply Z.eqb_neq in N. now rewrite N.
Qed.

Lemma wrong_version_throws_witness :
  OggDemuxer._transform OggDemuxer.fresh (Buffer_from "OggS" ++ [x01] ++ repeat x00 21)
  = Some ([], Crashed OggDemuxer.StructureVersionError).
Proof.
  apply (wrong_version_throws OggDemuxer.fresh _ 1).
  - vm_compute. discriminate.
  - reflexivity.
  - reflexivity.
  - discriminate.
Defined.

(** No byte is lost.  After a run over one chunk or more that did not throw,
    the bytes kept are a tail of the bytes received (after those kept
    before), and [_readPage] cannot read a page from them yet. *)
Theorem ogg_keeps_the_unread_tail
        (st st' : OggDemuxer.state) (c : Buffer) (chunks : list Buffer)
        (events : list OggDemuxer.event) :
  OggDemuxer.feed st (c :: chunks) = Some (events, Running st') ->
  exists consumed kept,
    OggDemuxer._remainder st' = Some kept /\
    OggView.pending st (List.concat (c :: chunks)) = consumed ++ kept /\
    OggDemuxer._readPage st' kept = OggDemuxer.False_.
Proof.
  rewrite OggStream.feed_concat, OggStream.transform_unfold.
  apply OggInvariant.pages_suffix.
Qed.

Lemma ogg_keeps_the_unread_tail_witness :
  exists consumed kept,
    Some (Samples.short_page ++ [x01]) = Some kept /\
    Samples.short_page ++ [x01] ++ [] = consumed ++ kept /\
    OggDemuxer._readPage
      (OggDemuxer.mkState (Some (Samples.short_page ++ [x01])) None None) kept
    = OggDemuxer.False_.
Proof.
  exact (ogg_keeps_the_unread_tail
           OggDemuxer.fresh
           (OggDemuxer.mkState (Some (Samples.short_page ++ [x01])) None None)
           Samples.short_page [[x01]] [] eq_refl).
Defined.

(** ** The Vorbis head, whatever the payload *)

Module VorbisFacts.
Import WebmBaseDemuxer VorbisWebmDemuxer.

Lemma slice_from_skipn (b : Buffer) (s : Z) :
  0 <= s -> slice_from b s = skipn (Z.to_nat s) b.
Proof.
  intros Hs. destruct (Z.le_gt_cases s (blength b)) as [L|G].
  - apply slice_from_inside. lia.
  - rewrite skipn_all2 by (unfold blength in G; lia).
    unfold slice_from, slice, slice_num, adjustOffset.
    pose proof (blength_nonneg b) as Hb.
    destruct (s =? 0) eqn:E0; [apply Z.eqb_eq in E0; lia|].
    destruct (s <? 0) eqn:E1; [apply Z.ltb_lt in E1; lia|].
    destruct (s <? blength b) eqn:E2; [apply Z.ltb_lt in E2; lia|].
    assert (E : (if blength b =? 0 then 0
                 else if blength b <? 0
                      then if 0 <? blength b + blength b then blength b + blength b else 0
                      else if blength b <? blength b then blength b else blength b)
                = blength b).
    { destruct (blength b =? 0) eqn:E3; [apply Z.eqb_eq in E3; lia|].
      destruct (blength b <? 0) eqn:E4; [apply Z.ltb_lt in E4; lia|].
      now destruct (blength b <? blength b). }
    rewrite E, Z.ltb_irrefl. reflexivity.
Qed.

(** Two adjoining slices make one. *)
Lemma slice_then_rest (b : Buffer) (s e : Z) :
  0 <= s <= e -> slice b s e ++ slice_from b e = slice_from b s.
Proof.
  intros H. rewrite WebmFacts.slice_nonneg by lia.
  rewrite !slice_from_skipn by lia.
  replace (Z.to_nat e) with (Z.to_nat (e - s) + Z.to_nat s)%nat by lia.
  rewrite <- skipn_skipn. apply firstn_skipn.
Qed.

Lemma slice_equal_length (b sig : Buffer) (s e : Z) :
  0 <= s < e -> slice b s e = sig -> blength sig = e - s -> e <= blength b.
Proof.
  intros H E L. rewrite WebmFacts.slice_nonneg in E by lia.
  apply (f_equal (@List.length byte)) in E.
  rewrite length_firstn, length_skipn in E. unfold blength in *. lia.
Qed.

End VorbisFacts.

(** The Vorbis hook on any payload.  It throws a RangeError exactly for the
    empty payload, and the codec-mismatch error exactly for a payload that is
    not empty and whose first byte is not 2 or whose bytes 4 to 9 are not
    "vorbis".  Every other payload is accepted: exactly three packets are
    pushed, and together, in order, they are the payload without its first
    three bytes, whatever the two length bytes say. *)
Theorem vorbis_head_on_any_payload (data : Buffer) :
  match VorbisWebmDemuxer._checkHead data with
  | inl WebmBaseDemuxer.RangeError => data = []
  | inl WebmBaseDemuxer.NotVorbisError =>
      data <> [] /\
      (readUInt8 data 0 <> Some 2 \/ slice data 4 10 <> VorbisWebmDemuxer.VORBIS_HEAD)
  | inl _ => False
  | inr pushed =>
      readUInt8 data 0 = Some 2 /\ slice data 4 10 = VorbisWebmDemuxer.VORBIS_HEAD /\
      exists p1 p2 p3,
        pushed = [p1; p2; p3] /\ p1 ++ p2 ++ p3 = slice_from data 3
  end.
Proof.
  unfold VorbisWebmDemuxer._checkHead.
  destruct data as [|b0 data'] eqn:D; [reflexivity|]. rewrite <- D.
  assert (R0 : readUInt8 data 0 = Some (byteval b0)) by (now subst data).
  rewrite R0.
  destruct (byteval b0 =? 2) eqn:E2; cbn [negb orb].
  - apply Z.eqb_eq in E2.
    destruct (equals (slice data 4 10) VorbisWebmDemuxer.VORBIS_HEAD) eqn:Q; cbn [negb].
    + apply equals_eq in Q.
      pose proof (VorbisFacts.slice_equal_length data _ 4 10 ltac:(lia) Q eq_refl) as L.
      unfold readUInt8.
      destruct (get_inside data 1 ltac:(lia)) as [b1 ->].
      destruct (get_inside data 2 ltac:(lia)) as [b2 ->].
      cbn [option_map].
      pose proof (byteval_range b1) as H1. pose proof (byteval_range b2) as H2.
      split; [congruence|]. split; [exact Q|].
      do 3 eexists. split; [reflexivity|].
      rewrite (VorbisFacts.slice_then_rest data (3 + byteval b1)) by lia.
      apply VorbisFacts.slice_then_rest. lia.
    + split; [subst data; discriminate|]. right. intros H.
      apply equals_eq in H. congruence.
  - apply Z.eqb_neq in E2. split; [subst data; discriminate|]. left. congruence.
Qed.

(** ** Blocks of a resolved track *)

Module BlockFacts.
Import WebmBaseDemuxer WebmWalk.

Lemma band_15 (a : Z) : 0 <= band a 15 < 16.
Proof.
  unfold band. change (ToInt32 15) with (Z.ones 4).
  rewrite Z.land_ones by lia. apply Z.mod_pos_bound. lia.
Qed.

Lemma set_ebmlFound_same (st : state) :
  _ebmlFound st = true -> set_ebmlFound st true = st.
Proof. destruct st. cbn. now intros ->. Qed.

Lemma update_track_resolved (st : state) (id data : Buffer) t :
  _track st = Some t -> update_track st id data = st.
Proof. unfold update_track. now intros ->. Qed.

End BlockFacts.

(** A block, once a track is resolved.  The walker has seen the root tag and
    resolved a track of number [n]; a simple block lies whole in the buffer.
    Then [_readTag] throws nothing, leaves the state alone and goes on after
    the block; it pushes the block without its first four bytes when the low
    four bits of the first byte of the block are [n], and pushes nothing
    otherwise.  So no block is ever pushed for a track numbered 16 or more. *)
Theorem block_is_matched_on_four_bits
        (checkHead : Buffer -> WebmBaseDemuxer.error + list Buffer)
        (st : WebmBaseDemuxer.state) (chunk : Buffer) (offset offset2 d : Z)
        (track : WebmBaseDemuxer.Track) (n : Z) :
  WebmBaseDemuxer._ebmlFound st = true ->
  WebmBaseDemuxer._track st = Some track -> WebmBaseDemuxer.number track = Some n ->
  WebmWalk.header chunk offset = Some (WebmBaseDemuxer.ID_SimpleBlock, offset2, Int d) ->
  0 <= d -> offset2 + d <= blength chunk ->
  let data := slice chunk offset2 (offset2 + d) in
  WebmBaseDemuxer._readTag checkHead st chunk offset
  = WebmBaseDemuxer.Return
      st
      (if band (int32_of_elem (get data 0)) 15 =? n then [slice_from data 4] else [])
      (WebmBaseDemuxer.mkTag (Int (offset2 + d)) None) /\
  (16 <= n ->
   WebmBaseDemuxer._readTag checkHead st chunk offset
   = WebmBaseDemuxer.Return st [] (WebmBaseDemuxer.mkTag (Int (offset2 + d)) None)).
Proof.
  intros He Ht Hn Hh Hd Hfit data.
  assert (A : WebmBaseDemuxer._readTag checkHead st chunk offset
              = WebmBaseDemuxer.Return
                  st
                  (if band (int32_of_elem (get data 0)) 15 =? n
                   then [slice_from data 4] else [])
                  (WebmBaseDemuxer.mkTag (Int (offset2 + d)) None)).
  { unfold WebmWalk.header in Hh. unfold WebmBaseDemuxer._readTag.
    destruct (WebmBaseDemuxer._readEBMLId chunk offset) as [[id o1]|]; [|discriminate].
    destruct (WebmBaseDemuxer._readTagDataSize chunk o1) as [[[o2 dl] sl]|];
      [|discriminate].
    injection Hh as -> -> ->.
    rewrite He. cbn [negb andb].
    rewrite (BlockFacts.set_ebmlFound_same st He).
    change (WebmBaseDemuxer.TAGS WebmBaseDemuxer.ID_SimpleBlock) with (Some false).
    cbn [add gt].
    destruct (blength chunk <? offset2 + d) eqn:E; [apply Z.ltb_lt in E; lia|].
    rewrite (BlockFacts.update_track_resolved st _ _ track Ht).
    change (equals WebmBaseDemuxer.ID_SimpleBlock WebmBaseDemuxer.ID_CodecPrivate)
      with false.
    change (equals WebmBaseDemuxer.ID_SimpleBlock WebmBaseDemuxer.ID_SimpleBlock)
      with true.
    cbn iota. rewrite Ht, Hn. unfold data, slice.
    now destruct (band _ 15 =? n). }
  split; [exact A|].
  intros H16. rewrite A.
  pose proof (BlockFacts.band_15 (int32_of_elem (get data 0))) as B.
  destruct (band (int32_of_elem (get data 0)) 15 =? n) eqn:E; [|reflexivity].
  apply Z.eqb_eq in E. lia.
Qed.

Lemma block_is_matched_on_four_bits_witness :
  WebmBaseDemuxer._readTag
    OpusWebmDemuxer._checkHead
    (WebmBaseDemuxer.mkState None 0 0 None
       (Some (WebmBaseDemuxer.mkTrack (Some 17) (Some 2)))
       (WebmBaseDemuxer.mkTrack (Some 17) (Some 2)) true)
    [xa3; x85; x91; x00; x00; x00; x2a] 0
  = WebmBaseDemuxer.Return
      (WebmBaseDemuxer.mkState None 0 0 None
         (Some (WebmBaseDemuxer.mkTrack (Some 17) (Some 2)))
         (WebmBaseDemuxer.mkTrack (Some 17) (Some 2)) true)
      [] (WebmBaseDemuxer.mkTag (Int (2 + 5)) None).
Proof.
  apply (block_is_matched_on_four_bits
           OpusWebmDemuxer._checkHead _ [xa3; x85; x91; x00; x00; x00; x2a] 0 2 5
           (WebmBaseDemuxer.mkTrack (Some 17) (Some 2)) 17);
    try reflexivity; lia.
Defined.

(** ** The bytes the walker has received *)

Module WebmAccount.
Import WebmBaseDemuxer WebmWalk WebmStep.

Section Hook.

Variable checkHead : Buffer -> error + list Buffer.

Lemma feed_rep (chunks : list Buffer) :
  forall st P pos ev st',
    _length st = blength P -> Rep st P pos -> Valid (P ++ List.concat chunks) pos ->
    feed checkHead st chunks = Some (ev, Running st') ->
    _length st' = blength (P ++ List.concat chunks) /\
    exists pos', Rep st' (P ++ List.concat chunks) pos'.
Proof.
  induction chunks as [|c chunks IH]; intros st P pos ev st' HL HR HV F.
  - cbn [feed] in F. injection F as _ <-. cbn [List.concat]. rewrite app_nil_r.
    split; [exact HL|eauto].
  - cbn [List.concat] in *. rewrite app_assoc in *.
    destruct (transform_sim checkHead st P c (List.concat chunks) pos HL HR HV)
      as (ev1 & res & W & Q).
    cbn [feed] in F. rewrite W in F.
    destruct res as [st1|e]; [|discriminate].
    destruct (feed checkHead st1 chunks) as [[ev2 r2]|] eqn:F2; [|discriminate].
    injection F as _ ->.
    destruct Q as (L & pos' & Rp & Vp & _ & _).
    exact (IH st1 (P ++ c) pos' ev2 st' L Rp Vp F2).
Qed.

End Hook.

End WebmAccount.

(** Every byte is accounted for.  After a run of the walker from a new state
    over chunks of a stream whose size fields of leaves and unknown elements
    are read as non-negative numbers, [_length] is the number of bytes
    received, [_count] lies within it, and the bytes kept are exactly the
    bytes of the stream from [_count] on: none is lost or kept twice. *)
Theorem webm_bytes_accounted
        (checkHead : Buffer -> WebmBaseDemuxer.error + list Buffer)
        (chunks : list Buffer) (pushed : list Buffer) (st' : WebmBaseDemuxer.state) :
  WebmWalk.valid_ebml (List.concat chunks) = true ->
  WebmBaseDemuxer.feed checkHead WebmBaseDemuxer.fresh chunks
  = Some (pushed, Running st') ->
  WebmBaseDemuxer._length st' = blength (List.concat chunks) /\
  0 <= WebmBaseDemuxer._count st' <= blength (List.concat chunks) /\
  WebmWalk.rem_bytes st'
  = slice_from (List.concat chunks) (WebmBaseDemuxer._count st') /\
  WebmBaseDemuxer._count st' + blength (WebmWalk.rem_bytes st')
  = WebmBaseDemuxer._length st'.
Proof.
  intros V F. apply WebmStep.valid_ebml_sound in V.
  destruct (WebmAccount.feed_rep checkHead chunks WebmBaseDemuxer.fresh [] 0 pushed st'
              eq_refl WebmStep.Rep_fresh V F) as (L & pos' & C & Rm & _).
  cbn [app] in *.
  split; [exact L|]. split; [exact C|]. split; [exact Rm|].
  rewrite Rm, blength_slice_from by lia. lia.
Qed.

Lemma webm_bytes_accounted_witness :
  WebmBaseDemuxer._length Samples.interrupted
  = blength (List.concat [firstn 7 Samples.interrupted_stream;
                          skipn 7 Samples.interrupted_stream]) /\
  0 <= 13 <= blength (List.concat [firstn 7 Samples.interrupted_stream;
                                   skipn 7 Samples.interrupted_stream]) /\
  [xec; x88; x00; x00; x00]
  = slice_from (List.concat [firstn 7 Samples.interrupted_stream;
                             skipn 7 Samples.interrupted_stream]) 13 /\
  13 + blength [xec; x88; x00; x00; x00] = 18.
Proof.
  exact (webm_bytes_accounted
           OpusWebmDemuxer._checkHead
           [firstn 7 Samples.interrupted_stream; skipn 7 Samples.interrupted_stream]
           [] Samples.interrupted eq_refl eq_refl).
Defined.

(** ** The Opus decoder *)

Module DecoderFacts.
Import Node OpusStream.

Lemma readUInt16LE_inside (b : Buffer) (i : Z) :
  0 <= i -> i + 1 < blength b -> exists v, readUInt16LE b i = Some v.
Proof.
  intros H0 H1. unfold readUInt16LE.
  destruct (get_inside b i ltac:(lia)) as [x ->].
  destruct (get_inside b (i + 1) ltac:(lia)) as [y ->]. eauto.
Qed.

Lemma readUInt16LE_outside (b : Buffer) (i : Z) :
  blength b <= i + 1 -> readUInt16LE b i = None.
Proof.
  intros H. unfold readUInt16LE.
  rewrite (get_outside b (i + 1)) by lia. now destruct (get b i).
Qed.

End DecoderFacts.

(** The packets the decoder does not decode.  A packet that begins with
    "OpusHead" is never handed to the native decoder: with 18 bytes or more
    it gives one ['format'] event, whose version, pre-skip and gain are the
    byte 8 and the little-endian 16-bit numbers at 10 and at 16; with fewer
    bytes the call throws a RangeError and emits nothing.  A packet that
    begins with "OpusTags" gives one ['tags'] event.  In both cases nothing
    is pushed and the stream is as before. *)
Theorem decoder_signatures
        (Opus : Type) (decode : Opus -> Buffer -> Opus * option Buffer)
        (s : OpusStream.stream Opus) (chunk : Buffer) :
  (slice chunk 0 8 = OpusStream.OPUS_HEAD ->
   (blength chunk < 18 ->
    OpusStream.Decoder_transform Opus decode s chunk
    = ([], Crashed OpusStream.RangeError)) /\
   (18 <= blength chunk ->
    exists version preSkip gain,
      readUInt8 chunk 8 = Some version /\
      Node.readUInt16LE chunk 10 = Some preSkip /\
      Node.readUInt16LE chunk 16 = Some gain /\
      OpusStream.Decoder_transform Opus decode s chunk
      = ([OpusStream.Emit_format
            (OpusStream.mkFormat (OpusStream.channels Opus s) (OpusStream.rate Opus s)
                                 16 false true version preSkip gain)],
         Running s))) /\
  (slice chunk 0 8 = OpusStream.OPUS_TAGS ->
   OpusStream.Decoder_transform Opus decode s chunk
   = ([OpusStream.Emit_tags chunk], Running s)).
Proof.
  unfold OpusStream.Decoder_transform. split.
  - intros H. rewrite H, equals_refl.
    pose proof (VorbisFacts.slice_equal_length chunk _ 0 8 ltac:(lia) H eq_refl) as L.
    split.
    + intros S.
      destruct (readUInt8 chunk 8) as [v|]; [|reflexivity].
      destruct (Z.le_gt_cases (blength chunk) 11) as [A|A].
      * now rewrite (DecoderFacts.readUInt16LE_outside chunk 10) by lia.
      * destruct (Node.readUInt16LE chunk 10); [|reflexivity].
        now rewrite (DecoderFacts.readUInt16LE_outside chunk 16) by lia.
    + intros S. unfold readUInt8.
      destruct (get_inside chunk 8 ltac:(lia)) as [v ->]. cbn [option_map].
      destruct (DecoderFacts.readUInt16LE_inside chunk 10 ltac:(lia) ltac:(lia)) as [p ->].
      destruct (DecoderFacts.readUInt16LE_inside chunk 16 ltac:(lia) ltac:(lia)) as [g ->].
      exists (byteval v), p, g. auto.
  - intros H. rewrite H.
    change (equals OpusStream.OPUS_TAGS OpusStream.OPUS_HEAD) with false.
    now rewrite equals_refl.
Qed.

Lemma decoder_signatures_witness :
  OpusStream.Decoder_transform unit (fun e b => (e, Some b))
    (OpusStream.new unit tt 960 48000 2) (Buffer_from "OpusHead")
  = ([], Crashed OpusStream.RangeError) /\
  OpusStream.Decoder_transform unit (fun e b => (e, Some b))
    (OpusStream.new unit tt 960 48000 2) Samples.comment_packet
  = ([OpusStream.Emit_tags Samples.comment_packet],
     Running (OpusStream.new unit tt 960 48000 2)).
Proof.
  split.
  - apply (decoder_signatures unit (fun e b => (e, Some b))
             (OpusStream.new unit tt 960 48000 2) (Buffer_from "OpusHead"));
      [reflexivity|vm_compute; reflexivity].
  - apply (decoder_signatures unit (fun e b => (e, Some b))
             (OpusStream.new unit tt 960 48000 2) Samples.comment_packet).
    reflexivity.
Defined.

(** The comment packet in the pipeline of the example.  With a head recorded
    and its bitstream pinned, the Ogg reader pushes a segment that begins with
    "OpusTags" as if it were audio; the decoder that follows recognises it,
    emits it as a ['tags'] event and does not decode it. *)
Theorem comment_packet_is_caught_by_the_decoder
        (Opus : Type) (decode : Opus -> Buffer -> Opus * option Buffer)
        (st : OggDemuxer.state) (h : Buffer) (bitstream : Z) (segment : Buffer)
        (s : OpusStream.stream Opus) :
  OggDemuxer._head st = Some h -> OggDemuxer._bitstream st = Some bitstream ->
  slice segment 0 8 = Buffer_from "OpusTags" ->
  OggDemuxer.route st bitstream segment = (st, [OggDemuxer.Push segment]) /\
  OpusStream.Decoder_transform Opus decode s segment
  = ([OpusStream.Emit_tags segment], Running s).
Proof.
  intros Hh Hb Hs. split.
  - unfold OggDemuxer.route. rewrite Hh, Hb, Hs, Z.eqb_refl. reflexivity.
  - now apply decoder_signatures.
Qed.

Lemma comment_packet_is_caught_by_the_decoder_witness :
  OggDemuxer.route Samples.head_recorded 7 Samples.comment_packet
  = (Samples.head_recorded, [OggDemuxer.Push Samples.comment_packet]) /\
  OpusStream.Decoder_transform unit (fun e b => (e, Some b))
    (OpusStream.new unit tt 960 48000 2) Samples.comment_packet
  = ([OpusStream.Emit_tags Samples.comment_packet],
     Running (OpusStream.new unit tt 960 48000 2)).
Proof.
  apply (comment_packet_is_caught_by_the_decoder
           unit (fun e b => (e, Some b)) Samples.head_recorded
           (Buffer_from "OpusHead" ++ repeat x00 11) 7 Samples.comment_packet
           (OpusStream.new unit tt 960 48000 2));
    reflexivity.
Defined.

(** The bitrate handed to the encoder.  [setBitrate] passes an integer
    bitrate on when it lies between 16000 and 128000 and the nearer of the
    two bounds otherwise; an infinity becomes a bound as well, and NaN is
    passed on as it is. *)
Theorem setBitrate_clamps
        (Opus : Type) (s : OpusStream.stream Opus) (native : Opus)
        (bitrate : Node.double) :
  OpusStream.encoder Opus s = Some native ->
  exists v,
    OpusStream.setBitrate Opus s bitrate = Some (OpusStream.CTL_BITRATE, v) /\
    match bitrate with
    | Node.Fin z =>
        exists c, v = Node.Fin c /\ 16000 <= c <= 128000 /\
                  (16000 <= z <= 128000 -> c = z) /\
                  (z < 16000 -> c = 16000) /\ (128000 < z -> c = 128000)
    | Node.PInf => v = Node.Fin 128000
    | Node.NInf => v = Node.Fin 16000
    | Node.DNaN => v = Node.DNaN
    end.
Proof.
  intros H. unfold OpusStream.setBitrate. rewrite H.
  eexists. split; [reflexivity|].
  destruct bitrate as [z| | |]; cbn [Node.Math_max Node.Math_min]; try reflexivity.
  eexists. split; [reflexivity|]. lia.
Qed.

Lemma setBitrate_clamps_witness :
  exists v,
    OpusStream.setBitrate unit (OpusStream.new unit tt 960 48000 2) (Node.Fin 512000)
    = Some (OpusStream.CTL_BITRATE, v) /\
    exists c, v = Node.Fin c /\ 16000 <= c <= 128000 /\
              (16000 <= 512000 <= 128000 -> c = 512000) /\
              (512000 < 16000 -> c = 16000) /\ (128000 < 512000 -> c = 128000).
Proof.
  exact (setBitrate_clamps unit (OpusStream.new unit tt 960 48000 2) tt
                           (Node.Fin 512000) eq_refl).
Defined.

(** ** The Opus encoder *)

Module EncoderFacts.
Import OpusStream OpusFrames.

Section Native.

Variable Opus : Type.
Variable encode : Opus -> Buffer -> Opus * option Buffer.

Local Abbreviation _encode := (OpusStream._encode Opus encode).
Local Abbreviation frames := (OpusStream.frames Opus encode).
Local Abbreviation encode_each := (OpusFrames.encode_each Opus encode).
Local Abbreviation Encoder_transform := (OpusStream.Encoder_transform Opus encode).
Local Abbreviation Encoder_feed := (OpusStream.Encoder_feed Opus encode).
Local Abbreviation required := (OpusStream.required Opus).
Local Abbreviation pending := (OpusFrames.pending Opus).
Local Abbreviation base := (OpusStream.base Opus).

Lemma encode_required (s s' : stream Opus) (f : Buffer) out :
  _encode s f = Some (s', out) -> required s' = required s.
Proof.
  unfold OpusStream._encode.
  destruct (encoder Opus s) as [e|]; [|now intros H; injection H as <- _].
  destruct (encode e f) as [e' [o|]]; [|discriminate].
  now intros H; injection H as <- _.
Qed.

Lemma encode_each_required (fs : list Buffer) :
  forall s ev s', encode_each s fs = (ev, Some s') -> required s' = required s.
Proof.
  induction fs as [|f fs IH]; intros s ev s' H; cbn [OpusFrames.encode_each] in H.
  - now injection H as _ <-.
  - destruct (_encode s f) as [[s1 out]|] eqn:E; [|discriminate].
    destruct (encode_each s1 fs) as [ev1 r1] eqn:E1.
    injection H as _ ->. rewrite (IH _ _ _ E1). eapply encode_required; eauto.
Qed.

Lemma encode_each_app (fs1 : list Buffer) :
  forall s fs2,
    encode_each s (fs1 ++ fs2)
    = match encode_each s fs1 with
      | (ev, None) => (ev, None)
      | (ev, Some s1) => let '(ev2, r) := encode_each s1 fs2 in (ev ++ ev2, r)
      end.
Proof.
  induction fs1 as [|f fs1 IH]; intros s fs2; cbn [app OpusFrames.encode_each].
  - now destruct (encode_each s fs2).
  - destruct (_encode s f) as [[s1 out]|]; [|reflexivity].
    rewrite IH. destruct (encode_each s1 fs1) as [ev [s2|]]; [|reflexivity].
    now destruct (encode_each s2 fs2).
Qed.

(** Whether one more frame is there. *)
Lemma frame_test (len req n : Z) :
  0 < req -> 0 <= n -> (len <? req * (n + 1)) = negb (n + 1 <=? len / req).
Proof.
  intros Hr Hn.
  destruct (n + 1 <=? len / req) eqn:E; cbn [negb].
  - apply Z.leb_le in E. apply Z.ltb_ge.
    pose proof (Z.mul_div_le len req Hr). nia.
  - apply Z.leb_gt in E. apply Z.ltb_lt.
    pose proof (Z.mul_succ_div_gt len req Hr). nia.
Qed.

Lemma frames_spec (k : nat) :
  forall fuel s buffer n acc,
    0 < required s -> 0 <= n ->
    Z.of_nat k = blength buffer / required s - n -> (k < fuel)%nat ->
    frames fuel s buffer n acc
    = Some (match encode_each s (chop k (required s) buffer n) with
            | (ev, None) => (acc ++ ev, None)
            | (ev, Some s') => (acc ++ ev, Some (s', n + Z.of_nat k))
            end).
Proof.
  induction k as [|k IH]; intros fuel s buffer n acc Hr Hn Hk Hf;
    (destruct fuel as [|fuel]; [lia|]); cbn [OpusStream.frames].
  - rewrite frame_test by lia.
    destruct (n + 1 <=? blength buffer / required s) eqn:E;
      [apply Z.leb_le in E; lia|].
    cbn [negb chop OpusFrames.encode_each]. now rewrite app_nil_r, Z.add_0_r.
  - rewrite frame_test by lia.
    destruct (n + 1 <=? blength buffer / required s) eqn:E;
      [|apply Z.leb_gt in E; lia].
    cbn [negb chop OpusFrames.encode_each].
    destruct (_encode s (slice buffer (n * required s) ((n + 1) * required s)))
      as [[s1 out]|] eqn:En; [|now rewrite app_nil_r].
    pose proof (encode_required _ _ _ _ En) as R1.
    rewrite (IH fuel s1 buffer (n + 1) (acc ++ [Push out])) by (rewrite ?R1; lia).
    rewrite R1.
    destruct (encode_each s1 (chop k (required s) buffer (n + 1))) as [ev [s2|]];
      rewrite <- app_assoc; cbn [app]; [|reflexivity].
    replace (n + 1 + Z.of_nat k) with (n + Z.of_nat (S k)) by lia. reflexivity.
Qed.

(** What one call does. *)
Lemma encoder_transform_spec (st : Encoder Opus) (chunk : Buffer) :
  0 < required (base st) ->
  let buf := pending st chunk in
  let q := blength buf / required (base st) in
  Encoder_transform st chunk
  = Some (match encode_each (base st) (chop (Z.to_nat q) (required (base st)) buf 0) with
          | (ev, None) => (ev, Crashed NativeError)
          | (ev, Some s') =>
              (ev, Running (mkEncoder Opus s'
                                      (Some (slice_from buf (q * required (base st))))))
          end).
Proof.
  intros Hr buf q. unfold OpusStream.Encoder_transform. cbv zeta.
  change (match OpusStream.buffer Opus st with Some b => b ++ chunk | None => chunk end)
    with buf.
  pose proof (blength_nonneg buf) as Hb.
  assert (Hq : 0 <= q) by (apply Z.div_pos; lia).
  assert (Hq' : q <= blength buf).
  { unfold q. apply Z.div_le_upper_bound; [lia|]. nia. }
  assert (Hf : (Z.to_nat q < S (List.length buf))%nat) by (unfold blength in Hq'; lia).
  rewrite (frames_spec (Z.to_nat q) _ (base st) buf 0 [] Hr ltac:(lia)
             ltac:(fold q; lia) Hf).
  destruct (encode_each (base st) (chop (Z.to_nat q) (required (base st)) buf 0))
    as [ev [s'|]] eqn:E; cbn [app]; [|reflexivity].
  rewrite (encode_each_required _ _ _ _ E).
  replace (0 + Z.of_nat (Z.to_nat q)) with q by lia.
  destruct (0 <? q) eqn:Q; [reflexivity|].
  apply Z.ltb_ge in Q. replace q with 0 by lia.
  now rewrite Z.mul_0_l, slice_from_0.
Qed.

Lemma chop_app_l (count : nat) (req : Z) (b more : Buffer) :
  forall n, 0 < req -> 0 <= n -> (n + Z.of_nat count) * req <= blength b ->
            chop count req (b ++ more) n = chop count req b n.
Proof.
  induction count as [|count IH]; intros n Hr Hn H; cbn [chop]; [reflexivity|].
  rewrite slice_app_l by nia. rewrite IH by nia. reflexivity.
Qed.

Lemma chop_split (k1 : nat) :
  forall k2 req b n,
    chop (k1 + k2) req b n = chop k1 req b n ++ chop k2 req b (n + Z.of_nat k1).
Proof.
  induction k1 as [|k1 IH]; intros k2 req b n; cbn [chop plus app].
  - now rewrite Z.add_0_r.
  - rewrite IH. do 3 f_equal. lia.
Qed.

Lemma chop_shift (count : nat) (req : Z) (pre b : Buffer) (m : Z) :
  forall n, 0 < req -> 0 <= n -> blength pre = m * req ->
            chop count req (pre ++ b) (m + n) = chop count req b n.
Proof.
  induction count as [|count IH]; intros n Hr Hn Hp; cbn [chop]; [reflexivity|].
  replace ((m + n) * req) with (blength pre + n * req) by lia.
  replace ((m + n + 1) * req) with (blength pre + (n + 1) * req) by lia.
  rewrite WebmFacts.slice_shift by nia.
  replace (m + n + 1) with (m + (n + 1)) by lia.
  rewrite IH by lia. reflexivity.
Qed.

(** A call on two chunks at once is the two calls in a row. *)
Lemma encoder_transform_app (st : Encoder Opus) (a b : Buffer) :
  0 < required (base st) ->
  Encoder_transform st (a ++ b)
  = match Encoder_transform st a with
    | Some (ev1, Running st1) =>
        match Encoder_transform st1 b with
        | Some (ev2, r) => Some (ev1 ++ ev2, r)
        | None => None
        end
    | r => r
    end.
Proof.
  intros Hr. rewrite (encoder_transform_spec st a Hr), (encoder_transform_spec st (a ++ b) Hr).
  set (req := required (base st)) in *.
  set (buf := pending st a).
  assert (P : pending st (a ++ b) = buf ++ b).
  { unfold buf, OpusFrames.pending.
    destruct (buffer Opus st); [now rewrite app_assoc|reflexivity]. }
  rewrite P. clear P.
  pose proof (blength_nonneg buf) as Hb. pose proof (blength_nonneg b) as Hbb.
  set (q1 := blength buf / req).
  assert (Hq1 : 0 <= q1) by (apply Z.div_pos; lia).
  pose proof (Z.mul_div_le (blength buf) req Hr) as M1. fold q1 in M1.
  pose proof (Z.mul_succ_div_gt (blength buf) req Hr) as M2. fold q1 in M2.
  set (r1 := slice_from buf (q1 * req)).
  assert (Hr1 : r1 = skipn (Z.to_nat (q1 * req)) buf)
    by (apply slice_from_inside; nia).
  set (pre := firstn (Z.to_nat (q1 * req)) buf).
  assert (Hsplit : buf = pre ++ r1) by (rewrite Hr1; symmetry; apply firstn_skipn).
  assert (Hpre : blength pre = q1 * req).
  { unfold pre, blength. rewrite length_firstn. unfold blength in *. nia. }
  assert (Hlr1 : blength r1 = blength buf - q1 * req).
  { unfold r1. apply blength_slice_from. nia. }
  set (q2 := blength (r1 ++ b) / req).
  assert (Hq2 : 0 <= q2).
  { apply Z.div_pos; [|lia]. pose proof (blength_nonneg (r1 ++ b)). lia. }
  assert (Hq : blength (buf ++ b) / req = q1 + q2).
  { unfold q2. rewrite !blength_app, Hlr1.
    replace (blength buf + blength b)
      with (q1 * req + (blength buf - q1 * req + blength b)) by lia.
    rewrite Z.div_add_l by lia. reflexivity. }
  rewrite Hq.
  replace (Z.to_nat (q1 + q2)) with (Z.to_nat q1 + Z.to_nat q2)%nat by lia.
  rewrite chop_split, encode_each_app.
  rewrite (chop_app_l (Z.to_nat q1) req buf b 0) by nia.
  replace (0 + Z.of_nat (Z.to_nat q1)) with (q1 + 0) by lia.
  assert (C2 : chop (Z.to_nat q2) req (buf ++ b) (q1 + 0) = chop (Z.to_nat q2) req (r1 ++ b) 0).
  { rewrite Hsplit at 1. rewrite <- app_assoc. apply chop_shift; lia. }
  rewrite C2.
  destruct (encode_each (base st) (chop (Z.to_nat q1) req buf 0)) as [ev1 [s1|]] eqn:E1;
    [|reflexivity].
  pose proof (encode_each_required _ _ _ _ E1) as R1. fold req in R1.
  assert (Hr' : 0 < required (OpusStream.base Opus (mkEncoder Opus s1 (Some r1))))
    by (cbn; lia).
  rewrite (encoder_transform_spec _ b Hr').
  cbn [OpusStream.base OpusFrames.pending OpusStream.buffer]. rewrite R1.
  fold q2.
  destruct (encode_each s1 (chop (Z.to_nat q2) req (r1 ++ b) 0)) as [ev2 [s2|]];
    [|reflexivity].
  do 5 f_equal.
  rewrite Hsplit at 1. rewrite <- app_assoc.
  replace ((q1 + q2) * req) with (blength pre + q2 * req) by lia.
  apply WebmFacts.slice_from_shift.
  pose proof (Z.mul_div_le (blength (r1 ++ b)) req Hr). fold q2 in H. nia.
Qed.

Lemma encoder_transform_required (st st' : Encoder Opus) (c : Buffer) ev :
  0 < required (base st) ->
  Encoder_transform st c = Some (ev, Running st') ->
  required (base st') = required (base st).
Proof.
  intros Hr. rewrite (encoder_transform_spec st c Hr).
  destruct (encode_each _ _) as [ev1 [s1|]] eqn:E; [|discriminate].
  intros H. injection H as _ <-. cbn. eapply encode_each_required; eauto.
Qed.

Lemma encoder_feed_concat (chunks : list Buffer) :
  forall st c, 0 < required (base st) ->
               Encoder_feed st (c :: chunks) = Encoder_transform st (List.concat (c :: chunks)).
Proof.
  induction chunks as [|c' chunks IH]; intros st c Hr.
  - cbn [OpusStream.Encoder_feed List.concat]. rewrite app_nil_r.
    destruct (Encoder_transform st c) as [[ev [st1|e]]|]; [|reflexivity|reflexivity].
    now rewrite app_nil_r.
  - change (Encoder_feed st (c :: c' :: chunks))
      with (match Encoder_transform st c with
            | None => None
            | Some (ev, Crashed e) => Some (ev, Crashed e)
            | Some (ev, Running st') =>
                match Encoder_feed st' (c' :: chunks) with
                | None => None
                | Some (ev', r) => Some (ev ++ ev', r)
                end
            end).
    change (List.concat (c :: c' :: chunks)) with (c ++ List.concat (c' :: chunks)).
    rewrite (encoder_transform_app st c _ Hr).
    destruct (Encoder_transform st c) as [[ev [st1|e]]|] eqn:T; try reflexivity.
    rewrite IH; [reflexivity|].
    rewrite (encoder_transform_required _ _ _ _ Hr T). exact Hr.
Qed.

Lemma firstn_plus (a : nat) :
  forall (b : nat) (l : Buffer), firstn (a + b) l = firstn a l ++ firstn b (skipn a l).
Proof.
  induction a as [|a IH]; intros b l; [reflexivity|].
  destruct l as [|x l]; cbn [plus firstn skipn app].
  - now rewrite firstn_nil.
  - now rewrite IH.
Qed.

(** The frames are whole and in order. *)
Lemma chop_frames (count : nat) (req : Z) (b : Buffer) :
  forall n, 0 < req -> 0 <= n -> (n + Z.of_nat count) * req <= blength b ->
            Forall (fun f => blength f = req) (chop count req b n) /\
            List.concat (chop count req b n)
            = slice b (n * req) ((n + Z.of_nat count) * req).
Proof.
  induction count as [|count IH]; intros n Hr Hn H; cbn [chop List.concat].
  - split; [constructor|].
    rewrite Z.add_0_r, WebmFacts.slice_nonneg by nia.
    now rewrite Z.sub_diag.
  - destruct (IH (n + 1) Hr ltac:(lia) ltac:(nia)) as [F C].
    split.
    + constructor; [|exact F]. rewrite blength_slice by nia. lia.
    + rewrite C.
      replace ((n + 1 + Z.of_nat count) * req) with ((n + Z.of_nat (S count)) * req) by lia.
      rewrite !WebmFacts.slice_nonneg by nia.
      set (e := (n + Z.of_nat (S count)) * req).
      replace (Z.to_nat ((n + 1) * req))
        with (Z.to_nat ((n + 1) * req - n * req) + Z.to_nat (n * req))%nat by nia.
      rewrite <- skipn_skipn.
      set (t := skipn (Z.to_nat (n * req)) b).
      replace (Z.to_nat (e - n * req))
        with (Z.to_nat ((n + 1) * req - n * req) + Z.to_nat (e - (n + 1) * req))%nat
        by (unfold e; nia).
      rewrite firstn_plus. reflexivity.
Qed.

(** With no frame size the loop has no end. *)
Lemma frames_without_end (fuel : nat) :
  forall s buffer n acc,
    required s <= 0 -> 0 <= n ->
    frames fuel s buffer n acc = None \/
    exists ev, frames fuel s buffer n acc = Some (ev, None).
Proof.
  induction fuel as [|fuel IH]; intros s buffer n acc Hr Hn; [now left|].
  cbn [OpusStream.frames].
  pose proof (blength_nonneg buffer) as Hb.
  destruct (blength buffer <? required s * (n + 1)) eqn:E;
    [apply Z.ltb_lt in E; nia|].
  destruct (_encode s _) as [[s1 out]|] eqn:En; [|right; eauto].
  apply IH; [|lia]. rewrite (encode_required _ _ _ _ En). exact Hr.
Qed.

End Native.

End EncoderFacts.

(** What a call of the encoder does.  With a positive [required], the call
    takes the bytes kept and the chunk together, hands their first [q] whole
    frames of [required] bytes to the native encoder one after the other,
    where [q] is the length divided by [required], pushes each result in order
    and keeps the bytes after the last frame, which are fewer than [required];
    if the encoder throws, the frames before are pushed and the call ends with
    the exception. *)
Theorem encoder_frames
        (Opus : Type) (encode : Opus -> Buffer -> Opus * option Buffer)
        (st : OpusStream.Encoder Opus) (chunk : Buffer) :
  0 < OpusStream.required Opus (OpusStream.base Opus st) ->
  let required := OpusStream.required Opus (OpusStream.base Opus st) in
  let buf := OpusFrames.pending Opus st chunk in
  let q := blength buf / required in
  let frames := OpusFrames.chop (Z.to_nat q) required buf 0 in
  OpusStream.Encoder_transform Opus encode st chunk
  = Some (match OpusFrames.encode_each Opus encode (OpusStream.base Opus st) frames with
          | (ev, None) => (ev, Crashed OpusStream.NativeError)
          | (ev, Some s') =>
              (ev, Running (OpusStream.mkEncoder
                              Opus s' (Some (slice_from buf (q * required)))))
          end) /\
  Forall (fun f => blength f = required) frames /\
  List.concat frames ++ slice_from buf (q * required) = buf /\
  blength (slice_from buf (q * required)) < required.
Proof.
  intros Hr required buf q frames.
  pose proof (blength_nonneg buf) as Hb.
  assert (Hq : 0 <= q) by (apply Z.div_pos; lia).
  pose proof (Z.mul_div_le (blength buf) required Hr) as M1. fold q in M1.
  pose proof (Z.mul_succ_div_gt (blength buf) required Hr) as M2. fold q in M2.
  split; [apply EncoderFacts.encoder_transform_spec; exact Hr|].
  destruct (EncoderFacts.chop_frames (Z.to_nat q) required buf 0 Hr ltac:(lia)
              ltac:(nia)) as [F C].
  split; [exact F|]. split.
  - unfold frames. rewrite C.
    replace ((0 + Z.of_nat (Z.to_nat q)) * required) with (q * required) by lia.
    rewrite Z.mul_0_l. rewrite VorbisFacts.slice_then_rest by nia.
    apply slice_from_0.
  - rewrite blength_slice_from by nia. nia.
Qed.

Lemma encoder_frames_witness :
  OpusStream.Encoder_transform unit (fun e b => (e, Some b))
    (OpusStream.Encoder_new unit tt 1 48000 2) [x01; x02; x03; x04; x05; x06; x07; x08; x09]
  = Some ([OpusStream.Push (Some [x01; x02; x03; x04]);
           OpusStream.Push (Some [x05; x06; x07; x08])],
          Running (OpusStream.mkEncoder unit (OpusStream.new unit tt 1 48000 2)
                                        (Some [x09]))).
Proof.
  apply (encoder_frames unit (fun e b => (e, Some b))
           (OpusStream.Encoder_new unit tt 1 48000 2)
           [x01; x02; x03; x04; x05; x06; x07; x08; x09]).
  reflexivity.
Defined.

(** Chunks do not matter to the encoder.  With a positive [required], writing
    a stream of bytes in any number of chunks hands the same frames to the
    native encoder, pushes the same results and leaves the same state, or
    ends with the same exception, as one call on the whole stream. *)
Theorem encoder_chunking
        (Opus : Type) (encode : Opus -> Buffer -> Opus * option Buffer)
        (st : OpusStream.Encoder Opus) (c : Buffer) (chunks : list Buffer) :
  0 < OpusStream.required Opus (OpusStream.base Opus st) ->
  OpusStream.Encoder_feed Opus encode st (c :: chunks)
  = OpusStream.Encoder_transform Opus encode st (List.concat (c :: chunks)).
Proof. apply EncoderFacts.encoder_feed_concat. Qed.

Lemma encoder_chunking_witness :
  OpusStream.Encoder_feed unit (fun e b => (e, Some b))
    (OpusStream.Encoder_new unit tt 1 48000 2)
    [[x01; x02; x03]; [x04; x05; x06; x07; x08]; [x09]]
  = OpusStream.Encoder_transform unit (fun e b => (e, Some b))
      (OpusStream.Encoder_new unit tt 1 48000 2)
      (List.concat [[x01; x02; x03]; [x04; x05; x06; x07; x08]; [x09]]).
Proof.
  apply (encoder_chunking unit (fun e b => (e, Some b))
           (OpusStream.Encoder_new unit tt 1 48000 2)).
  reflexivity.
Defined.

(** No frame size, no end.  When [required] is zero or negative (a frame size
    or a channel count of zero, say), the loop of the encoder never ends of
    itself: with any number of iterations allowed it is still running, unless
    the native encoder has thrown. *)
Theorem encoder_loops_without_a_frame_size
        (Opus : Type) (encode : Opus -> Buffer -> Opus * option Buffer)
        (fuel : nat) (s : OpusStream.stream Opus) (buffer : Buffer)
        (acc : list OpusStream.event) :
  OpusStream.required Opus s <= 0 ->
  OpusStream.frames Opus encode fuel s buffer 0 acc = None \/
  exists ev, OpusStream.frames Opus encode fuel s buffer 0 acc = Some (ev, None).
Proof. intros H. apply EncoderFacts.frames_without_end; [exact H|lia]. Qed.

Lemma encoder_loops_without_a_frame_size_witness :
  OpusStream.frames unit (fun e b => (e, Some b)) 1000
                    (OpusStream.new unit tt 0 48000 2) [x01; x02] 0 [] = None \/
  exists ev,
    OpusStream.frames unit (fun e b => (e, Some b)) 1000
                      (OpusStream.new unit tt 0 48000 2) [x01; x02] 0 [] = Some (ev, None).
Proof.
  apply (encoder_loops_without_a_frame_size unit (fun e b => (e, Some b)) 1000
           (OpusStream.new unit tt 0 48000 2) [x01; x02] []).
  vm_compute. discriminate.
Defined.

(** ** Reading and writing integers in a buffer *)

Module NodeFacts.
Import Node.

Lemma byteval_byte_of (z : Z) : byteval (byte_of z) = z mod 256.
Proof.
  unfold byte_of, byteval.
  pose proof (Z.mod_pos_bound z 256 ltac:(lia)) as B.
  pose proof (Byte.to_of_N_option_map (Z.to_N (z mod 256))) as M.
  destruct (Byte.of_N (Z.to_N (z mod 256))) as [b|] eqn:E.
  - apply Byte.to_of_N in E. rewrite E. lia.
  - cbn [option_map] in M.
    destruct (Z.to_N (z mod 256) <=? 255)%N eqn:L; [discriminate|].
    apply N.leb_gt in L. lia.
Qed.

Lemma signed_16 (v : Z) : - 2 ^ 15 <= v < 2 ^ 15 -> signed 16 (v mod 2 ^ 16) = v.
Proof.
  intros H. unfold signed.
  pose proof (Z.mod_pos_bound v (2 ^ 16) ltac:(lia)) as B.
  pose proof (Z.div_mod v (2 ^ 16) ltac:(lia)) as D.
  change (16 - 1) with 15.
  destruct (v mod 2 ^ 16 <? 2 ^ 15) eqn:E; [apply Z.ltb_lt in E|apply Z.ltb_ge in E]; lia.
Qed.

Lemma signed_32 (v : Z) : - 2 ^ 31 <= v < 2 ^ 31 -> signed 32 (v mod 2 ^ 32) = v.
Proof.
  intros H. unfold signed.
  pose proof (Z.mod_pos_bound v (2 ^ 32) ltac:(lia)) as B.
  pose proof (Z.div_mod v (2 ^ 32) ltac:(lia)) as D.
  change (32 - 1) with 31.
  destruct (v mod 2 ^ 32 <? 2 ^ 31) eqn:E; [apply Z.ltb_lt in E|apply Z.ltb_ge in E]; lia.
Qed.

Lemma two_bytes (v : Z) : v mod 256 + (v / 256) mod 256 * 2 ^ 8 = v mod 2 ^ 16.
Proof.
  change (2 ^ 16) with (256 * 256). rewrite Z.rem_mul_r by lia. lia.
Qed.

Lemma four_bytes (v : Z) :
  v mod 256 + (v / 256) mod 256 * 2 ^ 8 + (v / 256 / 256) mod 256 * 2 ^ 16
  + (v / 256 / 256 / 256) mod 256 * 2 ^ 24 = v mod 2 ^ 32.
Proof.
  change (2 ^ 32) with (256 * (256 * (256 * 256))).
  rewrite !Z.rem_mul_r by lia. lia.
Qed.

Lemma blength_put (T : Buffer) (i : Z) (bs : list byte) :
  0 <= i -> i + blength bs <= blength T -> blength (put T i bs) = blength T.
Proof.
  intros H0 H1. unfold put, blength in *.
  rewrite !length_app, length_firstn, length_skipn. lia.
Qed.

Lemma get_put_outside (T : Buffer) (i : Z) (bs : list byte) (j : Z) :
  0 <= i -> i + blength bs <= blength T ->
  j < i \/ i + blength bs <= j -> get (put T i bs) j = get T j.
Proof.
  intros H0 H1 Hj. unfold get. destruct (j <? 0) eqn:N; [reflexivity|].
  apply Z.ltb_ge in N. unfold put, blength in *.
  destruct Hj as [Hj|Hj].
  - rewrite nth_error_app1 by (rewrite length_firstn; lia).
    rewrite nth_error_firstn.
    destruct (Nat.ltb_spec (Z.to_nat j) (Z.to_nat i)); [reflexivity|lia].
  - rewrite nth_error_app2 by (rewrite length_firstn; lia).
    rewrite nth_error_app2 by (rewrite length_firstn; lia).
    rewrite nth_error_skipn, length_firstn. f_equal. lia.
Qed.

Lemma get_put_inside (T : Buffer) (i : Z) (bs : list byte) (j : Z) (k : nat) :
  0 <= i -> i + blength bs <= blength T -> (k < List.length bs)%nat ->
  j = i + Z.of_nat k -> get (put T i bs) j = nth_error bs k.
Proof.
  intros H0 H1 Hk ->. unfold get.
  destruct (i + Z.of_nat k <? 0) eqn:N; [apply Z.ltb_lt in N; lia|].
  unfold put, blength in *.
  rewrite nth_error_app2 by (rewrite length_firstn; lia).
  rewrite nth_error_app1 by (rewrite length_firstn; lia).
  rewrite length_firstn. f_equal. lia.
Qed.

End NodeFacts.

(** ** The volume transformer *)

Module VolumeFacts.
Import Node VolumeTransformer VolumeView NodeFacts.

Lemma bytes_cases (t : pcm) :
  (bytes t = 2 /\ extremum t = 2 ^ 15) \/ (bytes t = 4 /\ extremum t = 2 ^ 31).
Proof. destruct t; [left|left|right|right]; split; reflexivity. Qed.

Lemma bytes_pos (t : pcm) : 0 < bytes t.
Proof. destruct (bytes_cases t) as [[-> _]|[-> _]]; lia. Qed.

(** A clamped value is NaN or lies in the range of the type. *)
Lemma clamp_range (t : pcm) (v : double) :
  (clamp t v = DNaN /\ stored t v = 0) \/
  (clamp t v = Fin (stored t v) /\ - extremum t <= stored t v <= extremum t - 1).
Proof.
  unfold stored, clamp.
  assert (E : 0 < extremum t) by (destruct (bytes_cases t) as [[_ ->]|[_ ->]]; lia).
  destruct v as [z| | |]; cbn [Math_max Math_min]; [right|right|right|left];
    (split; [reflexivity|lia]).
Qed.

Lemma readInt_inside (t : pcm) (b : Buffer) (i : Z) :
  0 <= i -> i + bytes t <= blength b -> exists x, _readInt t b i = Some x.
Proof.
  intros H0 H1.
  destruct t; cbn in H1;
    unfold _readInt, readInt16LE, readInt16BE, readInt32LE, readInt32BE;
    repeat match goal with
           | |- context [get b ?j] =>
               let x := fresh "x" in
               destruct (get_inside b j ltac:(lia)) as [x ->]
           end; eauto.
Qed.

Lemma readInt_local (t : pcm) (a b : Buffer) (i : Z) :
  (forall j, i <= j < i + bytes t -> get a j = get b j) ->
  _readInt t a i = _readInt t b i.
Proof.
  intros H.
  destruct t; cbn in H;
    unfold _readInt, readInt16LE, readInt16BE, readInt32LE, readInt32BE;
    rewrite ?(H i), ?(H (i + 1)), ?(H (i + 2)), ?(H (i + 3)) by lia; reflexivity.
Qed.

Lemma writeInt_stores (width : nat) (little : bool) (T : Buffer) (d : double) (z i : Z) :
  (0 < width)%nat -> 0 <= i -> i + Z.of_nat width <= blength T ->
  - 2 ^ (8 * Z.of_nat width - 1) <= z <= 2 ^ (8 * Z.of_nat width - 1) - 1 ->
  d = Fin z \/ (d = DNaN /\ z = 0) ->
  writeInt width little T d i
  = Some (put T i (if little then le_bytes width z else rev (le_bytes width z))).
Proof.
  intros Hw H0 H1 Hz C. unfold writeInt.
  destruct (get_inside T i ltac:(lia)) as [g0 G0].
  destruct (get_inside T (i + Z.of_nat width - 1) ltac:(lia)) as [g1 G1].
  rewrite G0, G1.
  destruct C as [->|[-> ->]]; [|reflexivity].
  destruct (_ <? z) eqn:E1; [apply Z.ltb_lt in E1; lia|].
  destruct (z <? _) eqn:E2; [apply Z.ltb_lt in E2; lia|]. reflexivity.
Qed.

Ltac read_back T i :=
  unfold _readInt, readInt16LE, readInt16BE, readInt32LE, readInt32BE;
  rewrite ?(get_put_inside T i _ i 0), ?(get_put_inside T i _ (i + 1) 1),
    ?(get_put_inside T i _ (i + 2) 2), ?(get_put_inside T i _ (i + 3) 3)
    by (cbn; lia);
  cbn [nth_error]; rewrite !byteval_byte_of; f_equal.

(** Writing a clamped value succeeds, touches the bytes of the sample only,
    and the value is read back. *)
Lemma write_then_read (t : pcm) (T : Buffer) (v : double) (i : Z) :
  0 <= i -> i + bytes t <= blength T ->
  exists T1,
    _writeInt t T (clamp t v) i = Some T1 /\
    blength T1 = blength T /\
    (forall j, j < i \/ i + bytes t <= j -> get T1 j = get T j) /\
    _readInt t T1 i = Some (stored t v).
Proof.
  intros H0 H1.
  assert (W : exists z, - extremum t <= z <= extremum t - 1 /\ stored t v = z /\
                        (clamp t v = Fin z \/ (clamp t v = DNaN /\ z = 0))).
  { destruct (clamp_range t v) as [[C S]|[C S]].
    - exists 0. rewrite S. split; [|auto].
      destruct (bytes_cases t) as [[_ ->]|[_ ->]]; lia.
    - exists (stored t v). auto. }
  destruct W as (z & Hz & -> & C).
  destruct t; cbn in H1, Hz;
    unfold _writeInt, writeInt16LE, writeInt16BE, writeInt32LE, writeInt32BE;
    rewrite writeInt_stores with (z := z) by (first [exact C | cbn; lia]);
    (eexists; split; [reflexivity|]); cbn [le_bytes rev app];
    (split; [apply blength_put; [lia|cbn; lia]|]);
    (split; [intros j Hj; cbn in Hj; apply get_put_outside; [lia|cbn; lia|cbn; lia]|]);
    read_back T i.
  - rewrite two_bytes. apply signed_16. lia.
  - rewrite <- signed_16 with (v := z) at 3 by lia.
    rewrite <- (two_bytes z). f_equal. lia.
  - rewrite four_bytes. apply signed_32. lia.
  - rewrite <- signed_32 with (v := z) at 5 by lia.
    rewrite <- (four_bytes z). f_equal. lia.
Qed.

Section Numbers.

Variable float : Type.
Variable one : float.
Variable is_one : float -> bool.
Variable floor_times : float -> Z -> double.
Variable garbage : nat -> byte.

Local Abbreviation samples := (VolumeTransformer.samples float floor_times).
Local Abbreviation _transform :=
  (VolumeTransformer._transform float is_one floor_times garbage).
Local Abbreviation feed := (VolumeTransformer.feed float is_one floor_times garbage).
Local Abbreviation allocUnsafe := (VolumeTransformer.allocUnsafe garbage).
Local Abbreviation state := (VolumeTransformer.state float).
Local Abbreviation volume := (VolumeTransformer.volume float).
Local Abbreviation type := (VolumeTransformer.type float).
Local Abbreviation chunk := (VolumeTransformer.chunk float).

Lemma blength_allocUnsafe (n : Z) : 0 <= n -> blength (allocUnsafe n) = n.
Proof.
  intros H. unfold VolumeTransformer.allocUnsafe, blength.
  rewrite length_map, length_seq. lia.
Qed.

(** The loop over the samples, with [m] of them left: it ends without an
    exception, writes the samples from [i] up to [complete] and nothing
    else. *)
Lemma samples_spec (t : pcm) (vol : float) (N : Buffer) (complete : Z) (m : nat) :
  forall fuel T i,
    0 <= i -> i + Z.of_nat m * bytes t = complete -> complete <= blength N ->
    blength T = blength N -> (m < fuel)%nat ->
    exists T',
      samples fuel t vol N complete T i = Some (inr T') /\
      blength T' = blength N /\
      (forall j, j < i \/ complete <= j -> get T' j = get T j) /\
      (forall n, (n < m)%nat ->
                 exists x, _readInt t N (i + Z.of_nat n * bytes t) = Some x /\
                           _readInt t T' (i + Z.of_nat n * bytes t)
                           = Some (stored t (floor_times vol x))).
Proof.
  pose proof (bytes_pos t) as Hw.
  induction m as [|m IH]; intros fuel T i H0 Hc HN HT Hf;
    (destruct fuel as [|fuel]; [lia|]); cbn [VolumeTransformer.samples].
  - destruct (i <? complete) eqn:E; [apply Z.ltb_lt in E; lia|].
    exists T. split; [reflexivity|]. split; [exact HT|]. split; [reflexivity|].
    intros n Hn. lia.
  - destruct (i <? complete) eqn:E; [|apply Z.ltb_ge in E; nia].
    destruct (readInt_inside t N i H0 ltac:(nia)) as [x Hx]. rewrite Hx.
    fold (clamp t (floor_times vol x)).
    destruct (write_then_read t T (floor_times vol x) i H0 ltac:(nia))
      as (T1 & W & L1 & O1 & R1).
    rewrite W.
    destruct (IH fuel T1 (i + bytes t) ltac:(lia) ltac:(nia) HN ltac:(lia) ltac:(lia))
      as (T' & S' & L' & O' & R').
    exists T'. split; [exact S'|]. split; [exact L'|]. split.
    + intros j Hj. rewrite O' by lia. apply O1. nia.
    + intros [|n] Hn.
      * cbn [Z.of_nat]. rewrite Z.mul_0_l, Z.add_0_r. exists x. split; [exact Hx|].
        rewrite <- R1. apply readInt_local. intros j Hj. apply O'. lia.
      * destruct (R' n ltac:(lia)) as (y & Y1 & Y2).
        exists y.
        replace (i + Z.of_nat (S n) * bytes t) with (i + bytes t + Z.of_nat n * bytes t)
          by lia.
        auto.
Qed.

(** Two buffers of one length that agree from an index on have the same tail
    from that index. *)
Lemma slice_from_ext (a b : Buffer) (s : Z) :
  0 <= s -> blength a = blength b ->
  (forall j, s <= j -> get a j = get b j) -> slice_from a s = slice_from b s.
Proof.
  intros H0 HL H. rewrite !VorbisFacts.slice_from_skipn by lia.
  apply nth_error_ext. intros n. rewrite !nth_error_skipn.
  specialize (H (s + Z.of_nat n) ltac:(lia)). unfold get in H.
  destruct (s + Z.of_nat n <? 0) eqn:E; [apply Z.ltb_lt in E; lia|].
  replace (Z.to_nat (s + Z.of_nat n)) with (Z.to_nat s + n)%nat in H by lia.
  exact H.
Qed.

Lemma volume_transform_spec (st : state) (c : Buffer) :
  is_one (volume st) = false ->
  let t := type st in
  let newChunk := match chunk st with Some k => k ++ c | None => c end in
  let complete := blength newChunk / bytes t * bytes t in
  bytes t <= blength newChunk ->
  exists transformed,
    _transform st c
    = Some ([transformed],
            Running (VolumeTransformer.mkState float t
                       (Some (slice_from newChunk complete)) (volume st))) /\
    blength transformed = blength newChunk /\
    (forall k, 0 <= k < blength newChunk / bytes t ->
               exists x, _readInt t newChunk (k * bytes t) = Some x /\
                         _readInt t transformed (k * bytes t)
                         = Some (stored t (floor_times (volume st) x))) /\
    slice_from transformed complete
    = slice_from (allocUnsafe (blength newChunk)) complete /\
    blength (slice_from newChunk complete) = blength newChunk mod bytes t.
Proof.
  intros V t newChunk complete Hlen.
  pose proof (bytes_pos t) as Hw.
  pose proof (blength_nonneg newChunk) as HN.
  set (q := blength newChunk / bytes t).
  assert (Hq : 0 <= q) by (apply Z.div_pos; lia).
  pose proof (Z.mul_div_le (blength newChunk) (bytes t) Hw) as M1. fold q in M1.
  assert (Hc : complete <= blength newChunk) by (unfold complete; fold q; lia).
  assert (Hq' : q <= blength newChunk).
  { unfold q. apply Z.div_le_upper_bound; [lia|]. nia. }
  destruct (samples_spec t (volume st) newChunk complete (Z.to_nat q)
              (S (List.length newChunk)) (allocUnsafe (blength newChunk)) 0
              ltac:(lia) ltac:(unfold complete; fold q; lia) Hc
              (blength_allocUnsafe _ HN) ltac:(unfold blength in Hq'; lia))
    as (T' & S' & L' & O' & R').
  exists T'. split.
  - unfold VolumeTransformer._transform. rewrite V.
    cbn [VolumeTransformer.type VolumeTransformer.chunk VolumeTransformer.volume].
    fold t. fold newChunk.
    destruct (blength newChunk <? bytes t) eqn:E; [apply Z.ltb_lt in E; lia|].
    fold complete. rewrite S'. reflexivity.
  - split; [exact L'|]. split; [|split].
    + intros k Hk. destruct (R' (Z.to_nat k) ltac:(fold q in Hk; lia)) as (x & X1 & X2).
      exists x. rewrite Z.add_0_l in X1, X2.
      replace (Z.of_nat (Z.to_nat k)) with k in * by lia. auto.
    + apply slice_from_ext; [unfold complete; fold q; nia| |].
      * rewrite L'. symmetry. apply blength_allocUnsafe. exact HN.
      * intros j Hj. apply O'. lia.
    + rewrite blength_slice_from by (unfold complete; fold q; nia).
      unfold complete. rewrite Z.mod_eq by lia. lia.
Qed.

(** A call never throws. *)
Lemma volume_transform_runs (st : state) (c : Buffer) :
  exists out st', _transform st c = Some (out, Running st') /\ type st' = type st /\
                  volume st' = volume st.
Proof.
  destruct (is_one (volume st)) eqn:V.
  - exists [c], st. unfold VolumeTransformer._transform. rewrite V. auto.
  - set (newChunk := match chunk st with Some k => k ++ c | None => c end).
    destruct (Z.lt_ge_cases (blength newChunk) (bytes (type st))) as [S|S].
    + eexists [], _. unfold VolumeTransformer._transform. rewrite V.
      cbn [VolumeTransformer.type VolumeTransformer.chunk VolumeTransformer.volume].
      fold newChunk. apply Z.ltb_lt in S. rewrite S. auto.
    + destruct (volume_transform_spec st c V S) as (T' & E & _).
      eexists _, _. split; [exact E|]. auto.
Qed.

Lemma volume_feed_runs (chunks : list Buffer) :
  forall st, exists out st', feed st chunks = Some (out, Running st').
Proof.
  induction chunks as [|c chunks IH]; intros st; cbn [VolumeTransformer.feed].
  - eauto.
  - destruct (volume_transform_runs st c) as (out & st1 & T & _). rewrite T.
    destruct (IH st1) as (out' & st' & F). rewrite F. eauto.
Qed.

Lemma volume_feed_passthrough (chunks : list Buffer) :
  forall st, is_one (volume st) = true -> feed st chunks = Some (chunks, Running st).
Proof.
  induction chunks as [|c chunks IH]; intros st V; cbn [VolumeTransformer.feed].
  - reflexivity.
  - unfold VolumeTransformer._transform at 1. rewrite V. now rewrite IH.
Qed.

End Numbers.

End VolumeFacts.

(** At volume 1 the transformer is the identity.  Every chunk is pushed as it
    is, whatever its length, and the state, with the bytes it may still hold
    from an earlier volume, is not touched. *)
Theorem volume_one_is_passthrough
        (float : Type) (is_one : float -> bool) (floor_times : float -> Z -> Node.double)
        (garbage : nat -> byte)
        (st : VolumeTransformer.state float) (chunks : list Buffer) :
  is_one (VolumeTransformer.volume float st) = true ->
  VolumeTransformer.feed float is_one floor_times garbage st chunks
  = Some (chunks, Running st).
Proof. apply VolumeFacts.volume_feed_passthrough. Qed.

Lemma volume_one_is_passthrough_witness :
  VolumeTransformer.feed Z (Z.eqb 1) (fun v x => Node.Fin (v * x)) (fun _ => xaa)
    (VolumeTransformer.mkState Z VolumeTransformer.s16le (Some [x07]) 1)
    [[x01]; [x02; x03; x04]]
  = Some ([[x01]; [x02; x03; x04]],
          Running (VolumeTransformer.mkState Z VolumeTransformer.s16le (Some [x07]) 1)).
Proof.
  apply (volume_one_is_passthrough Z (Z.eqb 1) (fun v x => Node.Fin (v * x))
           (fun _ => xaa)).
  reflexivity.
Defined.

(** What a call does at another volume.  The bytes kept and the chunk are
    taken together.  When they are fewer than a sample, nothing is pushed and
    they are kept.  Otherwise one buffer of their length is pushed, in which
    every whole sample holds the sample of the input multiplied by the volume,
    rounded down and limited to the range of the type (NaN gives 0), and the
    bytes after the last whole sample are kept. *)
Theorem volume_scales_each_sample
        (float : Type) (is_one : float -> bool) (floor_times : float -> Z -> Node.double)
        (garbage : nat -> byte)
        (st : VolumeTransformer.state float) (c : Buffer) :
  is_one (VolumeTransformer.volume float st) = false ->
  let t := VolumeTransformer.type float st in
  let vol := VolumeTransformer.volume float st in
  let newChunk :=
    match VolumeTransformer.chunk float st with Some k => k ++ c | None => c end in
  let complete := blength newChunk / VolumeTransformer.bytes t * VolumeTransformer.bytes t in
  (blength newChunk < VolumeTransformer.bytes t ->
   VolumeTransformer._transform float is_one floor_times garbage st c
   = Some ([], Running (VolumeTransformer.mkState float t (Some newChunk) vol))) /\
  (VolumeTransformer.bytes t <= blength newChunk ->
   exists transformed,
     VolumeTransformer._transform float is_one floor_times garbage st c
     = Some ([transformed],
             Running (VolumeTransformer.mkState
                        float t (Some (slice_from newChunk complete)) vol)) /\
     blength transformed = blength newChunk /\
     forall k, 0 <= k < blength newChunk / VolumeTransformer.bytes t ->
               exists x,
                 VolumeTransformer._readInt t newChunk (k * VolumeTransformer.bytes t)
                 = Some x /\
                 VolumeTransformer._readInt t transformed (k * VolumeTransformer.bytes t)
                 = Some (VolumeView.stored t (floor_times vol x)) /\
                 - VolumeTransformer.extremum t
                 <= VolumeView.stored t (floor_times vol x)
                 <= VolumeTransformer.extremum t - 1).
Proof.
  intros V t vol newChunk complete. split.
  - intros S. unfold VolumeTransformer._transform. rewrite V.
    cbn [VolumeTransformer.type VolumeTransformer.chunk VolumeTransformer.volume].
    fold t. fold newChunk. apply Z.ltb_lt in S. now rewrite S.
  - intros S.
    destruct (VolumeFacts.volume_transform_spec float is_one floor_times garbage st c V S)
      as (T' & E & L & R & _).
    exists T'. split; [exact E|]. split; [exact L|].
    intros k Hk. destruct (R k Hk) as (x & X1 & X2).
    exists x. split; [exact X1|]. split; [exact X2|].
    destruct (VolumeFacts.clamp_range t (floor_times vol x)) as [[_ ->]|[_ B]];
      [|exact B].
    destruct (VolumeFacts.bytes_cases t) as [[_ ->]|[_ ->]]; lia.
Qed.

Lemma volume_scales_each_sample_witness :
  exists transformed,
    VolumeTransformer._transform Z (Z.eqb 1) (fun v x => Node.Fin (v * x)) (fun _ => xaa)
      (VolumeTransformer.mkState Z VolumeTransformer.s16le (Some [x00]) 3)
      [x40; xff; xff]
    = Some ([transformed],
            Running (VolumeTransformer.mkState Z VolumeTransformer.s16le (Some []) 3)) /\
    blength transformed = 4 /\
    forall k, 0 <= k < 2 ->
              exists x,
                VolumeTransformer._readInt VolumeTransformer.s16le
                                           [x00; x40; xff; xff] (k * 2) = Some x /\
                VolumeTransformer._readInt VolumeTransformer.s16le transformed (k * 2)
                = Some (VolumeView.stored VolumeTransformer.s16le (Node.Fin (3 * x))) /\
                - 32768 <= VolumeView.stored VolumeTransformer.s16le (Node.Fin (3 * x))
                <= 32767.
Proof.
  apply (volume_scales_each_sample Z (Z.eqb 1) (fun v x => Node.Fin (v * x))
           (fun _ => xaa)
           (VolumeTransformer.mkState Z VolumeTransformer.s16le (Some [x00]) 3)
           [x40; xff; xff]).
  - reflexivity.
  - vm_compute. discriminate.
Defined.

(** The bytes after the last whole sample.  At a volume other than 1, when
    the bytes taken together are a sample or more, the buffer pushed has their
    length, but only the whole samples are written: its last bytes, as many
    as the length leaves over when divided by the size of a sample, are the
    memory as [Buffer.allocUnsafe] handed it out.  The input bytes of that
    place are kept and processed again with the next chunk, so what is pushed
    is longer than what was written to the stream. *)
Theorem volume_pushes_unwritten_tail
        (float : Type) (is_one : float -> bool) (floor_times : float -> Z -> Node.double)
        (garbage : nat -> byte)
        (st : VolumeTransformer.state float) (c : Buffer) :
  is_one (VolumeTransformer.volume float st) = false ->
  let t := VolumeTransformer.type float st in
  let newChunk :=
    match VolumeTransformer.chunk float st with Some k => k ++ c | None => c end in
  let left_over := blength newChunk mod VolumeTransformer.bytes t in
  VolumeTransformer.bytes t <= blength newChunk ->
  exists transformed kept,
    VolumeTransformer._transform float is_one floor_times garbage st c
    = Some ([transformed],
            Running (VolumeTransformer.mkState
                       float t (Some kept) (VolumeTransformer.volume float st))) /\
    blength transformed = blength newChunk /\
    blength kept = left_over /\
    kept = slice_from newChunk (blength newChunk - left_over) /\
    slice_from transformed (blength newChunk - left_over)
    = slice_from (VolumeTransformer.allocUnsafe garbage (blength newChunk))
                 (blength newChunk - left_over).
Proof.
  intros V t newChunk left_over S.
  destruct (VolumeFacts.volume_transform_spec float is_one floor_times garbage st c V S)
    as (T' & E & L & _ & G & K).
  pose proof (VolumeFacts.bytes_pos t) as Hw.
  assert (C : blength newChunk / VolumeTransformer.bytes t * VolumeTransformer.bytes t
              = blength newChunk - left_over).
  { unfold left_over. rewrite Z.mod_eq by lia. lia. }
  fold t in E, G, K. fold newChunk in E, G, K, L. rewrite C in E, G, K.
  exists T', (slice_from newChunk (blength newChunk - left_over)).
  auto.
Qed.

Lemma volume_pushes_unwritten_tail_witness :
  exists transformed kept,
    VolumeTransformer._transform Z (Z.eqb 1) (fun v x => Node.Fin (v * x)) (fun _ => xaa)
      (VolumeTransformer.mkState Z VolumeTransformer.s16le (Some []) 2)
      [x01; x00; x07]
    = Some ([transformed],
            Running (VolumeTransformer.mkState Z VolumeTransformer.s16le (Some kept) 2)) /\
    blength transformed = 3 /\
    blength kept = 1 /\
    kept = slice_from [x01; x00; x07] (3 - 1) /\
    slice_from transformed (3 - 1) = slice_from [xaa; xaa; xaa] (3 - 1).
Proof.
  apply (volume_pushes_unwritten_tail Z (Z.eqb 1) (fun v x => Node.Fin (v * x))
           (fun _ => xaa)
           (VolumeTransformer.mkState Z VolumeTransformer.s16le (Some []) 2)
           [x01; x00; x07]).
  - reflexivity.
  - vm_compute. discriminate.
Defined.

(** The transformer never throws.  Whatever the type, the volume, the bytes
    kept and the chunks, a run ends without an exception: every read and
    every write of a sample lies inside its buffer, and every value written is
    within the range that [writeInt] accepts, or NaN. *)
Theorem volume_never_throws
        (float : Type) (is_one : float -> bool) (floor_times : float -> Z -> Node.double)
        (garbage : nat -> byte)
        (st : VolumeTransformer.state float) (chunks : list Buffer) :
  exists out st',
    VolumeTransformer.feed float is_one floor_times garbage st chunks
    = Some (out, Running st').
Proof. apply VolumeFacts.volume_feed_runs. Qed.

(** ** The exceptions of the walker *)

Module WebmThrows.
Import WebmBaseDemuxer.

Section Hook.

Variable checkHead : Buffer -> error + list Buffer.

Local Abbreviation expected e :=
  (e = NoEBMLTagError \/ e = NoAudioTrackError \/ exists data, checkHead data = inl e).

Lemma readTag_throws (st : state) (chunk : Buffer) (offset : Z) (e : error) :
  _readTag checkHead st chunk offset = Throw e -> expected e.
Proof.
  unfold _readTag.
  destruct (_readEBMLId chunk offset) as [[id o1]|]; [|discriminate].
  destruct (negb (_ebmlFound st) && negb (equals id ID_EBML)).
  { intros H. injection H as <-. auto. }
  destruct (_readTagDataSize chunk o1) as [[[o2 dl] sl]|]; [|discriminate].
  destruct (TAGS id) as [[|]|].
  - discriminate.
  - destruct (gt _ _); [discriminate|].
    destruct (equals id ID_CodecPrivate).
    + destruct (checkHead _) as [e'|p] eqn:C; [|discriminate].
      intros H. injection H as <-. eauto.
    + destruct (equals id ID_SimpleBlock); [|discriminate].
      destruct (_track _) as [tr|]; [|intros H; injection H as <-; auto].
      destruct (match number tr with Some n => _ | None => false end); discriminate.
  - destruct (gt _ _); discriminate.
Qed.

Lemma walk_throws (fuel : nat) :
  forall st chunk offset acc out e,
    walk checkHead fuel st chunk offset acc = Some (out, Crashed e) -> expected e.
Proof.
  induction fuel as [|fuel IH]; intros st chunk offset acc out e H; [discriminate|].
  cbn [walk] in H.
  destruct (_readTag checkHead st chunk offset) as [e'|st'|st' pushed t] eqn:R.
  - injection H as _ <-. eapply readTag_throws; eauto.
  - discriminate.
  - destruct (truthy_opt (tag_skipUntil t)); [discriminate|].
    destruct (tag_offset t) as [o|]; [|discriminate].
    destruct (truthy (Int o)); [|discriminate].
    eapply IH; eauto.
Qed.

Lemma transform_throws (st : state) (chunk : Buffer) out e :
  _transform checkHead st chunk = Some (out, Crashed e) -> expected e.
Proof.
  unfold _transform.
  destruct (_skipUntil _) as [[s|]|].
  - destruct (truthy (Int s) && (s <? _)); [apply walk_throws|].
    destruct (truthy (Int s)); [discriminate|apply walk_throws].
  - apply walk_throws.
  - apply walk_throws.
Qed.

Lemma feed_throws (chunks : list Buffer) :
  forall st out e, feed checkHead st chunks = Some (out, Crashed e) -> expected e.
Proof.
  induction chunks as [|c chunks IH]; intros st out e H; cbn [feed] in H; [discriminate|].
  destruct (_transform checkHead st c) as [[o1 [st1|e1]]|] eqn:T; [| |discriminate].
  - destruct (feed checkHead st1 chunks) as [[o2 r2]|] eqn:F; [|discriminate].
    injection H as _ ->. eapply IH; eauto.
  - injection H as _ <-. eapply transform_throws; eauto.
Qed.

(** More rounds never change a result. *)
Lemma walk_more (fuel : nat) :
  forall fuel' st chunk offset acc r,
    walk checkHead fuel st chunk offset acc = Some r -> (fuel <= fuel')%nat ->
    walk checkHead fuel' st chunk offset acc = Some r.
Proof.
  induction fuel as [|fuel IH]; intros fuel' st chunk offset acc r H L; [discriminate|].
  destruct fuel' as [|fuel']; [lia|].
  cbn [walk] in *.
  destruct (_readTag checkHead st chunk offset) as [e'|st'|st' pushed t]; try exact H.
  destruct (truthy_opt (tag_skipUntil t)); [exact H|].
  destruct (tag_offset t) as [o|]; [|exact H].
  destruct (truthy (Int o)); [|exact H].
  apply (IH fuel'); [exact H|lia].
Qed.

Lemma transform_within_more (n m : nat) (st : state) (chunk : Buffer) r :
  transform_within checkHead n st chunk = Some r -> (n <= m)%nat ->
  transform_within checkHead m st chunk = Some r.
Proof.
  unfold transform_within. intros H L.
  destruct (_skipUntil _) as [[s|]|].
  - destruct (truthy (Int s) && (s <? _)); [now apply (walk_more n)|].
    destruct (truthy (Int s)); [exact H|now apply (walk_more n)].
  - now apply (walk_more n).
  - now apply (walk_more n).
Qed.

(** [_transform] is [transform_within] for one round more than the bytes at
    hand; what it returns is what any longer run returns. *)
Lemma transform_bound (st : state) (chunk : Buffer) :
  _transform checkHead st chunk
  = transform_within checkHead
      (S (List.length (match _remainder st with Some r => r ++ chunk | None => chunk end)))
      st chunk.
Proof. reflexivity. Qed.

Lemma transform_is_within (st : state) (chunk : Buffer) r :
  _transform checkHead st chunk = Some r ->
  exists n, forall m, (n <= m)%nat -> transform_within checkHead m st chunk = Some r.
Proof.
  rewrite transform_bound. intros H. eexists. intros m L.
  eapply transform_within_more; eauto.
Qed.

Lemma feed_within_more (chunks : list Buffer) :
  forall n m st r,
    feed_within checkHead n st chunks = Some r -> (n <= m)%nat ->
    feed_within checkHead m st chunks = Some r.
Proof.
  induction chunks as [|c chunks IH]; intros n m st r H L; cbn [feed_within] in *;
    [exact H|].
  destruct (transform_within checkHead n st c) as [[o1 [st1|e1]]|] eqn:T; [| |discriminate].
  - rewrite (transform_within_more _ _ _ _ _ T L).
    destruct (feed_within checkHead n st1 chunks) as [[o2 r2]|] eqn:F; [|discriminate].
    now rewrite (IH _ _ _ _ F L).
  - now rewrite (transform_within_more _ _ _ _ _ T L).
Qed.

Lemma feed_is_within (chunks : list Buffer) :
  forall st r,
    feed checkHead st chunks = Some r ->
    exists n, forall m, (n <= m)%nat -> feed_within checkHead m st chunks = Some r.
Proof.
  induction chunks as [|c chunks IH]; intros st r H; cbn [feed] in H.
  - exists 0%nat. intros m _. exact H.
  - destruct (_transform checkHead st c) as [[o1 [st1|e1]]|] eqn:T; [| |discriminate].
    + destruct (feed checkHead st1 chunks) as [[o2 r2]|] eqn:F; [|discriminate].
      destruct (transform_is_within _ _ _ T) as [n1 H1].
      destruct (IH _ _ F) as [n2 H2].
      exists (Nat.max n1 n2). intros m L. cbn [feed_within].
      rewrite (H1 m) by lia. rewrite (H2 m) by lia. exact H.
    + destruct (transform_is_within _ _ _ T) as [n1 H1].
      exists n1. intros m L. cbn [feed_within]. rewrite (H1 m) by lia. exact H.
Qed.

Lemma transform_within_throws (rounds : nat) (st : state) (chunk : Buffer) out e :
  transform_within checkHead rounds st chunk = Some (out, Crashed e) -> expected e.
Proof.
  unfold transform_within.
  destruct (_skipUntil _) as [[s|]|].
  - destruct (truthy (Int s) && (s <? _)); [apply walk_throws|].
    destruct (truthy (Int s)); [discriminate|apply walk_throws].
  - apply walk_throws.
  - apply walk_throws.
Qed.

Lemma feed_within_throws (rounds : nat) (chunks : list Buffer) :
  forall st out e,
    feed_within checkHead rounds st chunks = Some (out, Crashed e) -> expected e.
Proof.
  induction chunks as [|c chunks IH]; intros st out e H; cbn [feed_within] in H;
    [discriminate|].
  destruct (transform_within checkHead rounds st c) as [[o1 [st1|e1]]|] eqn:T;
    [| |discriminate].
  - destruct (feed_within checkHead rounds st1 chunks) as [[o2 r2]|] eqn:F; [|discriminate].
    injection H as _ ->. eapply IH; eauto.
  - injection H as _ <-. eapply transform_within_throws; eauto.
Qed.

End Hook.

(** A size field that decodes to a negative number sends the walker backwards:
    on [backward_stream] the loop ends in its 57th round, past the rounds
    [_transform] allows, with the position at -17 and a skip target of 27. *)
Lemma backward_walk :
  _transform OpusWebmDemuxer._checkHead fresh Samples.backward_stream = None /\
  transform_within OpusWebmDemuxer._checkHead 56 fresh Samples.backward_stream = None /\
  transform_within OpusWebmDemuxer._checkHead 57 fresh Samples.backward_stream
  = Some ([], Running (mkState (Some Samples.backward_stream) 11 (-17) (Some (Int 27))
                               None (mkTrack None None) true)).
Proof. vm_compute. repeat split. Qed.

End WebmThrows.

(** The exceptions of the walker.  A run of the walker over any chunks,
    however many rounds its loop takes, ends with an exception only for a
    first tag that is not the root tag, for a block before any track is
    resolved, or with an exception that the hook of the variant threw for some
    codec private data.  With the Opus hook the exception is one of three. *)
Theorem webm_exceptions
        (checkHead : Buffer -> WebmBaseDemuxer.error + list Buffer)
        (rounds : nat) (st : WebmBaseDemuxer.state) (chunks pushed : list Buffer)
        (e : WebmBaseDemuxer.error) :
  WebmBaseDemuxer.feed_within checkHead rounds st chunks = Some (pushed, Crashed e) \/
  WebmBaseDemuxer.feed checkHead st chunks = Some (pushed, Crashed e) ->
  (e = WebmBaseDemuxer.NoEBMLTagError \/ e = WebmBaseDemuxer.NoAudioTrackError \/
   exists data, checkHead data = inl e) /\
  (checkHead = OpusWebmDemuxer._checkHead ->
   e = WebmBaseDemuxer.NoEBMLTagError \/ e = WebmBaseDemuxer.NoAudioTrackError \/
   e = WebmBaseDemuxer.NotOpusError).
Proof.
  intros F.
  assert (H : e = WebmBaseDemuxer.NoEBMLTagError \/ e = WebmBaseDemuxer.NoAudioTrackError \/
              exists data, checkHead data = inl e).
  { destruct F as [F|F].
    - exact (WebmThrows.feed_within_throws checkHead rounds chunks st pushed e F).
    - exact (WebmThrows.feed_throws checkHead chunks st pushed e F). }
  split; [exact H|].
  intros ->. destruct H as [H|[H|[data H]]]; auto.
  unfold OpusWebmDemuxer._checkHead in H.
  destruct (negb _); [|discriminate]. injection H as <-. auto.
Qed.

Lemma webm_exceptions_witness :
  (WebmBaseDemuxer.NoAudioTrackError = WebmBaseDemuxer.NoEBMLTagError \/
   WebmBaseDemuxer.NoAudioTrackError = WebmBaseDemuxer.NoAudioTrackError \/
   exists data, OpusWebmDemuxer._checkHead data = inl WebmBaseDemuxer.NoAudioTrackError) /\
  (OpusWebmDemuxer._checkHead = OpusWebmDemuxer._checkHead ->
   WebmBaseDemuxer.NoAudioTrackError = WebmBaseDemuxer.NoEBMLTagError \/
   WebmBaseDemuxer.NoAudioTrackError = WebmBaseDemuxer.NoAudioTrackError \/
   WebmBaseDemuxer.NoAudioTrackError = WebmBaseDemuxer.NotOpusError).
Proof.
  exact (webm_exceptions OpusWebmDemuxer._checkHead 60 WebmBaseDemuxer.fresh
                         [Samples.backward_stream; repeat x00 33 ++ [xa3; x81; x00]] []
                         WebmBaseDemuxer.NoAudioTrackError (or_introl eq_refl)).
Defined.

(** The volume a transformer starts with.  A transformer made without a
    volume option has the volume 1: from its first state it pushes every chunk
    as it is. *)
Theorem volume_default_is_passthrough
        (float : Type) (one : float) (is_one : float -> bool)
        (floor_times : float -> Z -> Node.double) (garbage : nat -> byte)
        (type : option string) (st : VolumeTransformer.state float)
        (chunks : list Buffer) :
  is_one one = true ->
  VolumeTransformer.new float one type None = inr st ->
  VolumeTransformer.chunk float st = Some [] /\
  VolumeTransformer.feed float is_one floor_times garbage st chunks
  = Some (chunks, Running st).
Proof.
  intros H1 N. unfold VolumeTransformer.new in N.
  destruct (VolumeTransformer.type_of type) as [t|]; [|discriminate].
  injection N as <-. split; [reflexivity|].
  apply VolumeFacts.volume_feed_passthrough. exact H1.
Qed.

Lemma volume_default_is_passthrough_witness :
  VolumeTransformer.chunk Z (VolumeTransformer.mkState Z VolumeTransformer.s32be (Some []) 1)
  = Some [] /\
  VolumeTransformer.feed Z (Z.eqb 1) (fun v x => Node.Fin (v * x)) (fun _ => xaa)
    (VolumeTransformer.mkState Z VolumeTransformer.s32be (Some []) 1) [[x01; x02; x03]]
  = Some ([[x01; x02; x03]],
          Running (VolumeTransformer.mkState Z VolumeTransformer.s32be (Some []) 1)).
Proof.
  apply (volume_default_is_passthrough Z 1 (Z.eqb 1) (fun v x => Node.Fin (v * x))
           (fun _ => xaa) (Some "s32be"%string)).
  - reflexivity.
  - reflexivity.
Defined.
